(** * PyAutoLens: the prior mapping engine and the analysis pipeline

    A shallow embedding of [auto_lens/prior.py] and
    [auto_lens/analysis/pipeline.py].

    Conventions of the embedding.
    - [prior.py] is Python 2 ([iteritems], the module [ConfigParser],
      [filter] and [map] returning lists that are concatenated and indexed):
      [map] over two lists pads the shorter with [None].  [pipeline.py]
      uses a keyword-only argument and runs under Python 3; nothing proved
      about it depends on which.
    - An object is its attribute dictionary.  A dictionary is kept as the
      list of its entries in order of first insertion; the order in which
      [iteritems] and [values] enumerate it is that of the interpreter,
      taken through the interface [DictOrder].  CPython 2.7's hash table
      layout is given as an instance.
    - Arithmetic goes through the interface [Number], as the operators
      of the code go through the type of their operands.  The mapper is
      instantiated with real numbers, where rounding, overflow and NaN do
      not exist; what rounding does to a formula is looked at with the
      binary64 instance.  [scipy.special.erfinv] is not part of these
      files: it is a parameter of what uses it.
    - Exceptions are values of [exn]; fallible code returns a [result]. *)

From stdpp Require Import base option list strings sorting.
From Stdlib Require Floats DecimalNat.
From Stdlib Require Import Ascii ZArith Rbase R_sqrt Lra DecimalString.

Local Open Scope string_scope.
Local Open Scope list_scope.

(** ** The Python runtime *)

Module Py.

(** Exceptions, by class, with the message where the code formats one. *)
Inductive exn : Type :=
  | TypeError
  | KeyError
  | IndexError
  | AttributeError
  | ValueError
  | NoOptionError
  | AssertionError (msg : string)
  | PriorException (msg : string).

Inductive result (A : Type) : Type :=
  | Ok (a : A)
  | Raise (e : exn).
Arguments Ok {A} a.
Arguments Raise {A} e.

#[export] Instance result_ret : MRet result := fun _ a => Ok a.
#[export] Instance result_bind : MBind result := fun _ _ f m =>
  match m with Ok a => f a | Raise e => Raise e end.
#[export] Instance result_fmap : FMap result := fun _ _ f m =>
  match m with Ok a => Ok (f a) | Raise e => Raise e end.

(** [for x in l: f x], stopping at the first exception. *)
Fixpoint mapR {A B} (f : A → result B) (l : list A) : result (list B) :=
  match l with
  | [] => Ok []
  | x :: l' => y ← f x; ys ← mapR f l'; Ok (y :: ys)
  end.

(** Python 2's [map(f, xs, ys)]: the shorter list is padded with [None]. *)
Fixpoint map2_padded {A B C} (f : option A → option B → result C)
    (xs : list A) (ys : list B) : result (list C) :=
  match xs, ys with
  | [], [] => Ok []
  | x :: xs', [] => c ← f (Some x) None; cs ← map2_padded f xs' []; Ok (c :: cs)
  | [], y :: ys' => c ← f None (Some y); cs ← mapR (f None ∘ Some) ys'; Ok (c :: cs)
  | x :: xs', y :: ys' =>
      c ← f (Some x) (Some y); cs ← map2_padded f xs' ys'; Ok (c :: cs)
  end.

(** [sorted(l, key=key)]: a stable sort on an integer key. *)
Fixpoint insert_by {A} (key : A → nat) (x : A) (l : list A) : list A :=
  match l with
  | [] => [x]
  | y :: l' => if (key x <=? key y)%nat then x :: y :: l' else y :: insert_by key x l'
  end.

Definition sorted {A} (key : A → nat) (l : list A) : list A :=
  foldr (insert_by key) [] l.

(** Keys of a dictionary: [__eq__] and [__hash__]. *)
Class PyKey (K : Type) := { key_eqb : K → K → bool; key_hash : K → Z }.

(** Dictionaries, as the list of entries in order of first insertion. *)
Definition dict (K V : Type) : Type := list (K * V).

Section dict.
Context {K V : Type} `{PyKey K}.

Fixpoint dict_get (d : dict K V) (k : K) : option V :=
  match d with
  | [] => None
  | (k', v) :: d' => if key_eqb k' k then Some v else dict_get d' k
  end.

(** [d[k] = v]: an equal key keeps its entry (and the stored key object),
    a new key adds one. *)
Fixpoint dict_set (d : dict K V) (k : K) (v : V) : dict K V :=
  match d with
  | [] => [(k, v)]
  | (k', v') :: d' =>
      if key_eqb k' k then (k', v) :: d' else (k', v') :: dict_set d' k v
  end.

Definition dict_mem (d : dict K V) (k : K) : bool := bool_decide (is_Some (dict_get d k)).

(** [dict(pairs)] and dictionary comprehensions. *)
Definition dict_of_list (l : list (K * V)) : dict K V :=
  foldl (fun d kv => dict_set d kv.1 kv.2) [] l.

(** [d[k]], raising [KeyError]. *)
Definition dict_index (d : dict K V) (k : K) : result V :=
  match dict_get d k with Some v => Ok v | None => Raise KeyError end.
End dict.

(** The interpreter's enumeration order of a dictionary: some arrangement
    of its entries, which may depend on the hashes of the keys and on the
    order of insertion. *)
Class DictOrder := {
  dict_order : ∀ {E : Type}, (E → Z) → list E → list E;
  dict_order_perm : ∀ {E : Type} (h : E → Z) (l : list E), dict_order h l ≡ₚ l
}.

(** [d.iteritems()], [d.items()] *)
Definition iteritems `{DictOrder} {K V} `{PyKey K} (d : dict K V) : list (K * V) :=
  dict_order (fun e => key_hash e.1) d.

(** [d.values()] *)
Definition values `{DictOrder} {K V} `{PyKey K} (d : dict K V) : list V :=
  (iteritems d).*2.

(** String helpers: [s.replace(c, "")], [s.split(c)], [str(n)]. *)
Fixpoint remove_char (c : ascii) (s : string) : string :=
  match s with
  | EmptyString => EmptyString
  | String a s' => if Ascii.eqb a c then remove_char c s' else String a (remove_char c s')
  end.

Fixpoint split_go (c : ascii) (s : string) (cur : string) : list string :=
  match s with
  | EmptyString => [cur]
  | String a s' =>
      if Ascii.eqb a c then cur :: split_go c s' EmptyString
      else split_go c s' (cur +:+ String a EmptyString)
  end.

Definition split (c : ascii) (s : string) : list string := split_go c s EmptyString.

Definition str_of_nat (n : nat) : string := NilEmpty.string_of_uint (Nat.to_uint n).

(** Code that reads and writes a state [S] and may raise: the state
    survives an exception. *)
Definition stateful (S A : Type) : Type := S → S * result A.

Definition sret {S A} (a : A) : stateful S A := fun s => (s, Ok a).
Definition sraise {S A} (e : exn) : stateful S A := fun s => (s, Raise e).
Definition sbind {S A B} (m : stateful S A) (k : A → stateful S B) : stateful S B :=
  fun s => match m s with
           | (s', Ok a) => k a s'
           | (s', Raise e) => (s', Raise e)
           end.
Definition slift {S A} (r : result A) : stateful S A := fun s => (s, r).

Fixpoint smap {S A B} (f : A → stateful S B) (l : list A) : stateful S (list B) :=
  match l with
  | [] => sret []
  | x :: l' => sbind (f x) (fun y => sbind (smap f l') (fun ys => sret (y :: ys)))
  end.

(** *** Numbers *)

(** [+], [-], [*] and [math.sqrt] are resolved on the operands: the
    same expression is exact on numbers with exact arithmetic and rounds
    on floats.  [py_float z] is the number that a literal with an integer
    value denotes ([2], [2.0], [1.0]). *)
Class Number (F : Type) := {
  py_add : F → F → F;
  py_sub : F → F → F;
  py_mul : F → F → F;
  py_sqrt : F → F;
  py_float : Z → F
}.

(** Exact arithmetic. *)
#[export] Instance exact_number : Number R :=
  {| py_add := Rplus; py_sub := Rminus; py_mul := Rmult; py_sqrt := sqrt; py_float := IZR |}.

(** The float with an integer value below [2^63] in size. *)
Definition binary64_of_Z (z : Z) : PrimFloat.float :=
  match z with
  | Z0 => PrimFloat.zero
  | Zpos _ => PrimFloat.of_uint63 (Uint63.of_Z z)
  | Zneg p => PrimFloat.opp (PrimFloat.of_uint63 (Uint63.of_Z (Zpos p)))
  end.

(** [float]: IEEE 754 binary64, rounding to nearest, ties to even. *)
#[export] Instance binary64_number : Number PrimFloat.float :=
  {| py_add := PrimFloat.add; py_sub := PrimFloat.sub; py_mul := PrimFloat.mul;
     py_sqrt := PrimFloat.sqrt; py_float := binary64_of_Z |}.

End Py.

(** ** CPython 2.7: string hashing and the layout of [dict] *)

Module CPython27.
Import Py.

Definition wrap64 (z : Z) : Z := (z mod 2 ^ 64)%Z.

Definition ord (c : ascii) : Z := Z.of_nat (nat_of_ascii c).

(** [string_hash] of Objects/stringobject.c, as an unsigned 64-bit value
    (hash randomisation off, the default). *)
Fixpoint hash_loop (s : string) (x : Z) : Z :=
  match s with
  | EmptyString => x
  | String c s' => hash_loop s' (Z.lxor (wrap64 (1000003 * x)) (ord c))
  end.

Definition string_hash (s : string) : Z :=
  match s with
  | EmptyString => 0%Z
  | String c _ =>
      let x := Z.lxor (hash_loop s (Z.shiftl (ord c) 7)) (Z.of_nat (String.length s)) in
      if (x =? 2 ^ 64 - 1)%Z then (2 ^ 64 - 2)%Z else x
  end.

(** The hash of a small non-negative [int] is the integer itself. *)
Definition int_hash (n : nat) : Z := wrap64 (Z.of_nat n).

Section table.
Context {E : Type} (h : E → Z).

Definition table : Type := list (option E).

Definition slot_free (t : table) (j : nat) : bool :=
  match t !! j with Some None => true | _ => false end.

(** The probe sequence of [lookdict]: [i = (i << 2) + i + perturb + 1],
    [perturb >>= 5]. *)
Fixpoint probe (fuel : nat) (t : table) (mask i perturb : Z) : option nat :=
  let j := Z.to_nat (Z.land i mask) in
  if slot_free t j then Some j
  else match fuel with
       | O => None
       | S fuel' =>
           probe fuel' t mask (wrap64 (Z.shiftl i 2 + i + perturb + 1)) (Z.shiftr perturb 5)
       end.

(** [insertdict_clean]: the entry goes to the first free slot of its probe
    sequence.  A table always has a free slot; the last case is never
    taken and only makes the function total. *)
Definition insert_clean (t : table) (e : E) : table :=
  let mask := (Z.of_nat (length t) - 1)%Z in
  match probe (64 + length t) t mask (Z.land (h e) mask) (h e) with
  | Some j => <[j := Some e]> t
  | None => t ++ [Some e]
  end.

Definition active (t : table) : list E := omap id t.

(** [dictresize]: the smallest power of two above [minused], from 8. *)
Fixpoint new_size (fuel : nat) (n minused : nat) : nat :=
  match fuel with
  | O => n
  | S fuel' => if (n <=? minused)%nat then new_size fuel' (2 * n) minused else n
  end.

Definition resize (t : table) (minused : nat) : table :=
  foldl insert_clean (replicate (new_size 64 8 minused) None) (active t).

(** [PyDict_SetItem] of a new key: insert, then grow when two thirds
    of the slots are taken. *)
Definition set_new (t : table) (e : E) : table :=
  let t' := insert_clean t e in
  let used := length (active t') in
  if (length t' * 2 <=? used * 3)%nat
  then resize t' ((if (50000 <? Z.of_nat used)%Z then 2 else 4) * used)
  else t'.

Definition layout (l : list E) : list E :=
  active (foldl set_new (replicate 8 None) l).
End table.

End CPython27.

#[export] Instance string_key : Py.PyKey string :=
  {| Py.key_eqb := String.eqb; Py.key_hash := CPython27.string_hash |}.

Notation "'let*' x ':=' m 'in' k" := (Py.sbind m (fun x => k))
  (at level 10, x pattern, m at level 100, k at level 200, only parsing).

(** ** auto_lens/prior.py *)

Module Prior.
Import Py.

(** A value passed to or stored by a model class: a float, or a tuple. *)
#[warnings="-register-all"] Inductive pyval : Type :=
  | VFloat (x : R)
  | VTuple (xs : list pyval)
  | VNone.

(** A class, as far as the mapper looks at it: [__module__], [__name__],
    [__bases__], and the argument names and default values of its
    [__init__] as [inspect.getargspec] reports them ([defaults] is [None]
    when no argument has a default). *)
#[warnings="-register-all"] Inductive pyclass : Type :=
  | PyClass (module name : string) (bases : list pyclass)
      (args : list string) (defaults : option (list pyval)).

Definition cls_module (c : pyclass) : string := let 'PyClass m _ _ _ _ := c in m.
Definition cls_name (c : pyclass) : string := let 'PyClass _ n _ _ _ := c in n.
Definition cls_bases (c : pyclass) : list pyclass := let 'PyClass _ _ b _ _ := c in b.
Definition cls_args (c : pyclass) : list string := let 'PyClass _ _ _ a _ := c in a.
Definition cls_defaults (c : pyclass) : option (list pyval) := let 'PyClass _ _ _ _ d := c in d.

(** An object made by calling a class with keyword arguments. *)
Record Instance : Type := { inst_cls : pyclass; inst_kwargs : dict string pyval }.

(** Calling [cls] with keyword arguments: every keyword is an argument of [__init__], and every
    argument without a default is given. *)
Definition required_args (c : pyclass) : list string :=
  let args := tail (cls_args c) in
  take (length args - from_option length 0 (cls_defaults c)) args.

Definition call_class (c : pyclass) (kwargs : dict string pyval) : result Instance :=
  if forallb (fun kv => bool_decide (kv.1 ∈ tail (cls_args c))) kwargs
     && forallb (dict_mem kwargs) (required_args c)
  then Ok {| inst_cls := c; inst_kwargs := kwargs |}
  else Raise TypeError.

(** *** Prior, UniformPrior, GaussianPrior *)

Inductive distribution : Type :=
  | Plain
  | UniformPrior (lower_limit upper_limit : R)
  | GaussianPrior (mean sigma : R).

Record Prior : Type := { id : nat; dist : distribution }.

(** [Prior.__eq__] and [Prior.__hash__] look at the id alone. *)
#[export] Instance prior_key : PyKey Prior :=
  {| key_eqb p q := Nat.eqb (id p) (id q); key_hash p := CPython27.int_hash (id p) |}.

(** [Prior.__eq__], [Prior.__ne__], [Prior.__hash__] and [Prior.__repr__] *)
Definition Prior_eq (self other : Prior) : bool := Nat.eqb (id self) (id other).
Definition Prior_ne (self other : Prior) : bool := negb (Prior_eq self other).
Definition Prior_hash (self : Prior) : Z := CPython27.int_hash (id self).
Definition Prior_repr (self : Prior) : string :=
  "<Prior id=" +:+ str_of_nat (id self) +:+ ">".

(** [UniformPrior.value_for] *)
Definition UniformPrior_value_for `{Number F} (lower_limit upper_limit unit : F) : F :=
  py_add lower_limit (py_mul unit (py_sub upper_limit lower_limit)).

(** [GaussianPrior.value_for], over the [erfinv] it is run with. *)
Definition GaussianPrior_value_for `{Number F} (erfinv : F → F) (mean sigma unit : F) : F :=
  py_add mean
    (py_mul (py_mul sigma (py_sqrt (py_float 2)))
       (erfinv (py_sub (py_mul unit (py_float 2)) (py_float 1)))).

(** *** Config *)

(** [ConfigParser.ConfigParser], of the standard library: the state of a
    parser and the three methods the code calls. *)
Class ConfigParser (parser : Type) := {
  parser_new : parser;
  parser_read : parser → string → parser;
  parser_has_option : parser → string → string → bool;
  parser_get : parser → string → string → result string
}.

Section mapper.
Context `{DictOrder} `{ConfigParser parser}.
(** [scipy.special.erfinv] and the builtin [float] on strings. *)
Variable erfinv : R → R.
Variable float : string → result R.

(** [prior.value_for(unit)], where [unit] may be the [None] that [map]
    pads with: arithmetic on [None] raises [TypeError], and the base
    class has no [value_for]. *)
Definition value_for (p : Prior) (unit : option R) : result R :=
  match dist p, unit with
  | Plain, _ => Raise AttributeError
  | _, None => Raise TypeError
  | UniformPrior lo hi, Some u => Ok (UniformPrior_value_for lo hi u)
  | GaussianPrior mean sigma, Some u => Ok (GaussianPrior_value_for erfinv mean sigma u)
  end.

Record Config : Type := { path : string; cfg_parser : parser }.

Definition Config_init (path : string) : Config :=
  {| path := path; cfg_parser := parser_new |}.

(** [Config.read]: the parser keeps what earlier reads loaded. *)
Definition Config_read (module_name : string) : stateful Config unit :=
  fun self =>
    let file := path self +:+ "/" +:+ List.last (split "." module_name) "" +:+ ".ini" in
    ({| path := path self; cfg_parser := parser_read (cfg_parser self) file |}, Ok ()).

(** A prior specification: the tag and the numbers after it. *)
Definition prior_array : Type := string * list R.

(** [Config.get] *)
Definition Config_get (module_name class_name attribute_name : string)
    : stateful Config prior_array :=
  let* _ := Config_read module_name in
  fun self =>
    (self,
     raw ← parser_get (cfg_parser self) class_name attribute_name;
     let arr := split "," (remove_char " " raw) in
     xs ← mapR float (tail arr);
     Ok (List.hd "" arr, xs)).

(** [Config.has] *)
Definition Config_has (module_name class_name attribute_name : string)
    : stateful Config bool :=
  let* _ := Config_read module_name in
  fun self => (self, Ok (parser_has_option (cfg_parser self) class_name attribute_name)).

(** The generator [family] of [get_for_nearest_ancestor]. *)
Fixpoint family (current_class : pyclass) : list pyclass :=
  match current_class with
  | PyClass _ _ bases _ _ => current_class :: flat_map family bases
  end.

Definition missing_prior_message (cls : pyclass) (attribute_name : string) : string :=
  "The prior config for " +:+ cls_module cls +:+ "." +:+ cls_name cls
    +:+ " and the prior configs of its parents do no contain " +:+ attribute_name.

(** The loop of [get_for_nearest_ancestor] over the classes still to visit. *)
Fixpoint nearest_in (cls : pyclass) (attribute_name : string) (todo : list pyclass)
    : stateful Config prior_array :=
  match todo with
  | [] => sraise (PriorException (missing_prior_message cls attribute_name))
  | family_cls :: todo' =>
      let* found := Config_has (cls_module family_cls) (cls_name family_cls) attribute_name in
      if found : bool
      then Config_get (cls_module family_cls) (cls_name family_cls) attribute_name
      else nearest_in cls attribute_name todo'
  end.

(** [Config.get_for_nearest_ancestor] *)
Definition get_for_nearest_ancestor (cls : pyclass) (attribute_name : string)
    : stateful Config prior_array :=
  nearest_in cls attribute_name (family cls).

(** *** TuplePrior, PriorModel, ClassMap: their attribute dictionaries *)

Inductive tp_value : Type :=
  | TPPrior (p : Prior)
  | TPOther.
Definition TuplePrior : Type := dict string tp_value.

Inductive pm_value : Type :=
  | PMClass (c : pyclass)
  | PMPrior (p : Prior)
  | PMTuple (t : TuplePrior)
  | PMNone.
Definition PriorModel : Type := dict string pm_value.

Inductive cm_value : Type :=
  | CMConfig (c : Config)
  | CMModel (m : PriorModel).
Definition ClassMap : Type := dict string cm_value.

(** [filter(lambda t: isinstance(t[1], Prior), self.__dict__.iteritems())] *)
Definition TuplePrior_priors (self : TuplePrior) : list (string * Prior) :=
  omap (fun t => match t.2 with TPPrior p => Some (t.1, p) | _ => None end) (iteritems self).

(** [TuplePrior.value_for_arguments] *)
Definition TuplePrior_value_for_arguments (self : TuplePrior) (arguments : dict Prior R)
    : result (list R) :=
  mapR (fun prior => dict_index arguments prior.2) (TuplePrior_priors self).

Definition PriorModel_tuple_priors (self : PriorModel) : list (string * TuplePrior) :=
  omap (fun t => match t.2 with PMTuple tp => Some (t.1, tp) | _ => None end) (iteritems self).

Definition PriorModel_direct_priors (self : PriorModel) : list (string * Prior) :=
  omap (fun t => match t.2 with PMPrior p => Some (t.1, p) | _ => None end) (iteritems self).

(** [PriorModel.priors] *)
Definition PriorModel_priors (self : PriorModel) : list (string * Prior) :=
  PriorModel_direct_priors self
    ++ flat_map (fun tuple_prior => TuplePrior_priors tuple_prior.2)
         (PriorModel_tuple_priors self).

(** [PriorModel.instance_for_arguments] *)
Definition PriorModel_instance_for_arguments (self : PriorModel) (arguments : dict Prior R)
    : result Instance :=
  direct ← mapR (fun t => v ← dict_index arguments t.2; Ok (t.1, VFloat v))
              (PriorModel_direct_priors self);
  model_arguments ←
    foldl (fun acc tuple_prior =>
             model_arguments ← acc;
             v ← TuplePrior_value_for_arguments tuple_prior.2 arguments;
             Ok (dict_set model_arguments tuple_prior.1 (VTuple (VFloat <$> v))))
          (Ok (dict_of_list direct)) (PriorModel_tuple_priors self);
  match dict_get self "cls" with
  | Some (PMClass c) => call_class c model_arguments
  | Some _ => Raise TypeError
  | None => Raise AttributeError
  end.

(** [ClassMap.prior_models] *)
Definition prior_models (self : ClassMap) : list (string * PriorModel) :=
  omap (fun t => match t.2 with CMModel m => Some (t.1, m) | _ => None end) (iteritems self).

(** [ClassMap.prior_set]: a dictionary keyed by the Prior, so that an id
    occurs once, and its values. *)
Definition prior_set (self : ClassMap) : list (string * Prior) :=
  values (dict_of_list
    (flat_map (fun t => (fun prior => (prior.2, prior)) <$> PriorModel_priors t.2)
       (prior_models self))).

(** [ClassMap.priors] *)
Definition priors (self : ClassMap) : list (string * Prior) :=
  sorted (fun prior => id prior.2) (prior_set self).

(** A [Reconstruction]: one attribute per prior model. *)
Definition Reconstruction : Type := dict string Instance.

(** The dictionary [arguments] of [reconstruction_for_vector]. *)
Definition arguments_for_vector (self : ClassMap) (vector : list R) : result (dict Prior R) :=
  dict_of_list <$>
    map2_padded
      (fun (prior : option (string * Prior)) (unit : option R) =>
         match prior with
         | None => Raise TypeError
         | Some prior => v ← value_for prior.2 unit; Ok (prior.2, v)
         end)
      (priors self) vector.

(** The loop of [reconstruction_for_vector] over the prior models. *)
Fixpoint reconstruct (arguments : dict Prior R) (todo : list (string * PriorModel))
    : stateful Reconstruction unit :=
  match todo with
  | [] => sret ()
  | prior_model :: todo' =>
      let* instance := slift (PriorModel_instance_for_arguments prior_model.2 arguments) in
      let* _ := (fun r => (dict_set r prior_model.1 instance, Ok ())) in
      reconstruct arguments todo'
  end.

(** [ClassMap.reconstruction_for_vector].  The first component is the
    [Reconstruction] object as the call leaves it: [None] when it was
    never created, otherwise its attributes set so far. *)
Definition reconstruction_for_vector (self : ClassMap) (vector : list R)
    : option Reconstruction * result Reconstruction :=
  match arguments_for_vector self vector with
  | Raise e => (None, Raise e)
  | Ok arguments =>
      match reconstruct arguments (prior_models self) [] with
      | (reconstruction, Ok _) => (Some reconstruction, Ok reconstruction)
      | (reconstruction, Raise e) => (Some reconstruction, Raise e)
      end
  end.

(** *** Building a ClassMap *)

(** The state that building reads and writes: the mapper itself and the
    module's counter [prior_number]. *)
Definition building : Type := ClassMap * nat.

(** [Prior.__init__]: the next id. *)
Definition new_prior (d : distribution) : stateful building Prior :=
  fun '(self, prior_number) =>
    ((self, S prior_number), Ok {| id := prior_number; dist := d |}).

(** [self.config.get_for_nearest_ancestor(cls, attribute_name)] *)
Definition config_lookup (attribute_name : string) (cls : pyclass)
    : stateful building prior_array :=
  fun '(self, prior_number) =>
    match dict_get self "config" with
    | Some (CMConfig config) =>
        let '(config', r) := get_for_nearest_ancestor cls attribute_name config in
        ((dict_set self "config" (CMConfig config'), prior_number), r)
    | _ => ((self, prior_number), Raise AttributeError)
    end.

(** [ClassMap.make_prior]; the result is [None] for a tag that is
    neither ["u"] nor ["g"]. *)
Definition make_prior (attribute_name : string) (cls : pyclass)
    : stateful building (option Prior) :=
  let* config_arr := config_lookup attribute_name cls in
  if String.eqb config_arr.1 "u" then
    match config_arr.2 with
    | a :: b :: _ => let* p := new_prior (UniformPrior a b) in sret (Some p)
    | _ => sraise IndexError
    end
  else if String.eqb config_arr.1 "g" then
    match config_arr.2 with
    | a :: b :: _ => let* p := new_prior (GaussianPrior a b) in sret (Some p)
    | _ => sraise IndexError
    end
  else sret None.

(** The dictionary [defaults] of [add_class]. *)
Definition arg_defaults (cls : pyclass) : dict string pyval :=
  match cls_defaults cls with
  | Some defaults =>
      dict_of_list (zip (drop (length (cls_args cls) - length defaults) (cls_args cls)) defaults)
  | None => []
  end.

(** The inner loop of [add_class], over [range(len(defaults[arg]))]. *)
Fixpoint tuple_prior_for (arg : string) (cls : pyclass) (indices : list nat)
    (tuple_prior : TuplePrior) : stateful building TuplePrior :=
  match indices with
  | [] => sret tuple_prior
  | i :: indices' =>
      let attribute_name := arg +:+ "_" +:+ str_of_nat i in
      let* p := make_prior attribute_name cls in
      tuple_prior_for arg cls indices'
        (dict_set tuple_prior attribute_name (from_option TPPrior TPOther p))
  end.

(** The outer loop of [add_class], over the arguments after [self]. *)
Fixpoint prior_model_for (cls : pyclass) (defaults : dict string pyval) (args : list string)
    (prior_model : PriorModel) : stateful building PriorModel :=
  match args with
  | [] => sret prior_model
  | arg :: args' =>
      let* value :=
        match dict_get defaults arg with
        | Some (VTuple xs) =>
            let* tuple_prior := tuple_prior_for arg cls (seq 0 (length xs)) [] in
            sret (PMTuple tuple_prior)
        | _ =>
            let* p := make_prior arg cls in
            sret (from_option PMPrior PMNone p)
        end in
      prior_model_for cls defaults args' (dict_set prior_model arg value)
  end.

(** [PriorModel.__init__] *)
Definition PriorModel_init (cls : pyclass) : PriorModel := [("cls", PMClass cls)].

(** [ClassMap.add_class] *)
Definition add_class (name : string) (cls : pyclass) : stateful building unit :=
  let* prior_model :=
    prior_model_for cls (arg_defaults cls) (tail (cls_args cls)) (PriorModel_init cls) in
  fun '(self, prior_number) => ((dict_set self name (CMModel prior_model), prior_number), Ok ()).

(** The directory of prior.py, where the default config lives. *)
Variable module_path : string.

(** [ClassMap.__init__] *)
Definition ClassMap_init (config : option Config) (classes : dict string pyclass)
    : stateful building unit :=
  fun '(_, prior_number) =>
    let config := from_option (fun c => c) (Config_init (module_path +:+ "/config")) config in
    let self : ClassMap := [("config", CMConfig config)] in
    sbind (smap (fun t => add_class t.1 t.2) (iteritems classes)) (fun _ => sret ())
      (self, prior_number).

(** Assignment to an attribute of a prior model of the mapper, as in
    [collection.sersic_1.intensity = value]. *)
Definition set_model_attribute (self : ClassMap) (model attribute : string) (value : pm_value)
    : result ClassMap :=
  match dict_get self model with
  | Some (CMModel prior_model) =>
      Ok (dict_set self model (CMModel (dict_set prior_model attribute value)))
  | _ => Raise AttributeError
  end.

(** Reading an attribute of a prior model of the mapper. *)
Definition get_model_attribute (self : ClassMap) (model attribute : string) : result pm_value :=
  match dict_get self model with
  | Some (CMModel prior_model) =>
      match dict_get prior_model attribute with
      | Some value => Ok value
      | None => Raise AttributeError
      end
  | _ => Raise AttributeError
  end.

(** Tying: [collection.a.n = collection.b.m]. *)
Definition tie (self : ClassMap) (a n b m : string) : result ClassMap :=
  value ← get_model_attribute self b m;
  set_model_attribute self a n value.

End mapper.

Arguments Config parser : clear implicits.
Arguments cm_value parser : clear implicits.
Arguments ClassMap parser : clear implicits.
Arguments building parser : clear implicits.

End Prior.

(** ** auto_lens/analysis/pipeline.py *)

Module Pipeline.
Import Py Prior.

(** Objects passed as keyword arguments and kept as attributes of an
    [Analysis], as far as the code looks at them: their truth value, and
    whether they are a list that [append] and [in] work on. *)
#[warnings="-register-all"] Inductive pyobj : Type :=
  | ONone
  | OStr (s : string)
  | OList (items : list pyobj)
  | OClass (c : pyclass)
  | OInstance (address : nat)
  | OMapper (address : nat)
  | OOptimizer (address : nat).

(** The truth value of an object in a condition. *)
Definition truth (o : pyobj) : bool :=
  match o with
  | ONone => false
  | OStr s => negb (String.eqb s "")
  | OList items => negb (bool_decide (items = []))
  | _ => true
  end.

(** [key in items], for a string [key]. *)
Definition str_in (key : string) (items : list pyobj) : bool :=
  existsb (fun o => match o with OStr s => String.eqb s key | _ => false end) items.

Section pipeline.
Context `{DictOrder} `{Prior.ConfigParser parser}.
Variable float : string → result R.
Variable module_path : string.

(** *** The objects that live across constructor calls *)

(** The model mappers by address, the number of optimizer objects
    created, and [prior_number] of prior.py. *)
Record world : Type := {
  mappers : list (ClassMap parser);
  optimizers : nat;
  prior_number : nat
}.

(** Running mapper code on the mapper at an address. *)
Definition at_mapper {A} (address : nat) (m : stateful (building parser) A)
    : stateful world A :=
  fun w =>
    match mappers w !! address with
    | Some mapper =>
        let '((mapper', prior_number'), r) := m (mapper, prior_number w) in
        ({| mappers := <[address := mapper']> (mappers w);
            optimizers := optimizers w;
            prior_number := prior_number' |}, r)
    | None => (w, Raise AttributeError)
    end.

(** Modelled from the spec: the module [auto_lens.analysis.model_mapper]
    is not among the sources; its [ModelMapper] is taken to be the
    [ClassMap] of prior.py, which the spec describes as the same
    component.  [mm.ModelMapper()] makes a new mapper with the default
    config and no classes. *)
Definition ModelMapper_new : stateful world nat :=
  fun w =>
    let '((mapper, prior_number'), r) :=
      ClassMap_init float module_path None [] ([], prior_number w) in
    match r with
    | Ok _ =>
        ({| mappers := mappers w ++ [mapper];
            optimizers := optimizers w;
            prior_number := prior_number' |}, Ok (length (mappers w)))
    | Raise e => (w, Raise e)
    end.

(** [non_linear.MultiNestWrapper()]: a new optimizer object. *)
Definition MultiNestWrapper_new : stateful world nat :=
  fun w =>
    ({| mappers := mappers w; optimizers := S (optimizers w);
        prior_number := prior_number w |}, Ok (optimizers w)).

(** The default arguments of the three constructors.  Python evaluates a
    default once, when the [def] is executed, and every call that omits
    the argument receives that object. *)
Record defaults : Type := {
  ModelAnalysis_model_mapper : nat;
  ModelAnalysis_non_linear_optimizer : nat;
  HyperparameterAnalysis_model_mapper : nat;
  HyperparameterAnalysis_non_linear_optimizer : nat;
  Analysis_model_mapper : nat;
  Analysis_non_linear_optimizer : nat
}.

(** Executing the module: the three class bodies, in order. *)
Definition load_module : stateful world defaults :=
  let* m1 := ModelMapper_new in
  let* o1 := MultiNestWrapper_new in
  let* m2 := ModelMapper_new in
  let* o2 := MultiNestWrapper_new in
  let* m3 := ModelMapper_new in
  let* o3 := MultiNestWrapper_new in
  sret {| ModelAnalysis_model_mapper := m1;
          ModelAnalysis_non_linear_optimizer := o1;
          HyperparameterAnalysis_model_mapper := m2;
          HyperparameterAnalysis_non_linear_optimizer := o2;
          Analysis_model_mapper := m3;
          Analysis_non_linear_optimizer := o3 |}.

(** *** ModelAnalysis and HyperparameterAnalysis *)

(** Galaxy priors come from a module that is not among the sources;
    [attach_to_model_mapper] is whatever it does to the mapper. *)
Context {GalaxyPrior : Type}.
Variable attach_to_model_mapper : GalaxyPrior → stateful (building parser) unit.

Record ModelAnalysis : Type := {
  lens_galaxy_priors : list GalaxyPrior;
  source_galaxy_priors : list GalaxyPrior;
  ModelAnalysis_optimizer : nat;
  ModelAnalysis_mapper : nat
}.

(** [ModelAnalysis.__init__] *)
Definition ModelAnalysis_init (d : defaults)
    (lens_galaxy_priors source_galaxy_priors : list GalaxyPrior)
    (model_mapper non_linear_optimizer : option nat) : stateful world ModelAnalysis :=
  let model_mapper := default (ModelAnalysis_model_mapper d) model_mapper in
  let non_linear_optimizer :=
    default (ModelAnalysis_non_linear_optimizer d) non_linear_optimizer in
  let* _ := smap (fun galaxy_prior => at_mapper model_mapper (attach_to_model_mapper galaxy_prior))
              (lens_galaxy_priors ++ source_galaxy_priors) in
  sret {| lens_galaxy_priors := lens_galaxy_priors;
          source_galaxy_priors := source_galaxy_priors;
          ModelAnalysis_optimizer := non_linear_optimizer;
          ModelAnalysis_mapper := model_mapper |}.

Record HyperparameterAnalysis : Type := {
  HyperparameterAnalysis_mapper : nat;
  pixelization_class : pyclass;
  instrumentation_class : pyclass;
  HyperparameterAnalysis_optimizer : nat
}.

(** [HyperparameterAnalysis.__init__] *)
Definition HyperparameterAnalysis_init (d : defaults)
    (pixelization_class instrumentation_class : pyclass)
    (model_mapper non_linear_optimizer : option nat)
    : stateful world HyperparameterAnalysis :=
  let model_mapper := default (HyperparameterAnalysis_model_mapper d) model_mapper in
  let non_linear_optimizer :=
    default (HyperparameterAnalysis_non_linear_optimizer d) non_linear_optimizer in
  let* _ := at_mapper model_mapper (add_class float "pixelization" pixelization_class) in
  let* _ := at_mapper model_mapper (add_class float "instrumentation" instrumentation_class) in
  sret {| HyperparameterAnalysis_mapper := model_mapper;
          pixelization_class := pixelization_class;
          instrumentation_class := instrumentation_class;
          HyperparameterAnalysis_optimizer := non_linear_optimizer |}.

(** *** Analysis *)

(** An [Analysis] is its attribute dictionary. *)
Definition Analysis : Type := dict string pyobj.

Definition attribute_map : dict string string :=
  [("pixelization_class", "pixelization");
   ("instrumentation_class", "instrumentation");
   ("lens_galaxy_priors", "lens_galaxies");
   ("source_galaxy_priors", "source_galaxies")].

(** [self.included_attributes.append(key)] *)
Definition append_included (self : Analysis) (key : string) : result Analysis :=
  match dict_get self "included_attributes" with
  | Some (OList items) => Ok (dict_set self "included_attributes" (OList (items ++ [OStr key])))
  | _ => Raise AttributeError
  end.

(** [Analysis.__init__] *)
Definition Analysis_init (d : defaults) (model_mapper non_linear_optimizer : option nat)
    (kwargs : dict string pyobj) : result Analysis :=
  let self : Analysis :=
    [("model_mapper", OMapper (default (Analysis_model_mapper d) model_mapper));
     ("non_linear_optimizer",
      OOptimizer (default (Analysis_non_linear_optimizer d) non_linear_optimizer));
     ("included_attributes", OList [])] in
  self ← foldl (fun self kv => self ← self; append_included (dict_set self kv.1 kv.2) kv.1)
           (Ok self) (iteritems kwargs);
  included ← match dict_get self "included_attributes" with
             | Some (OList items) => Ok items
             | _ => Raise TypeError
             end;
  Ok (dict_set self "missing_attributes"
        (OList (OStr <$> omap (fun kv => if str_in kv.1 included then None else Some kv.2)
                           (iteritems attribute_map)))).

(** [one_or_other] of [Analysis.run] *)
Definition one_or_other (self : Analysis) (kwargs : dict string pyobj)
    (model_name instance_name : string) : result unit :=
  let is_model := truth (default ONone (dict_get self model_name)) in
  let is_instance := dict_mem kwargs instance_name in
  if is_model && is_instance
  then Raise (AssertionError (model_name +:+ " already exists in analysis"))
  else if negb (is_model || is_instance)
  then Raise (AssertionError
         (model_name +:+ " is not defined so " +:+ instance_name +:+ " is required"))
  else Ok ().

(** [Analysis.run]; [image] and [mask] are not looked at. *)
Definition Analysis_run (self : Analysis) (kwargs : dict string pyobj) : result unit :=
  _ ← one_or_other self kwargs "pixelization_class" "pixelization";
  _ ← one_or_other self kwargs "instrumentation_class" "instrumentation";
  _ ← one_or_other self kwargs "lens_galaxy_priors" "lens_galaxies";
  one_or_other self kwargs "source_galaxy_priors" "source_galaxies".

(** *** MainPipeline *)

(** The pipeline calls [run] on whatever analyses it was given and reads
    four attributes of the results; the analyses, their results and what
    their [run] does to the rest of the program (the state [W]) are
    parameters. *)
Context {W Image Mask Pixelization Instrumentation Galaxies : Type}.
Context {ModelStage HyperStage ModelResult HyperResult : Type}.
Variable model_run :
  ModelStage → Image → Mask → Pixelization → Instrumentation → stateful W ModelResult.
Variable hyper_run :
  HyperStage → Image → Mask → Galaxies → Galaxies → stateful W HyperResult.
Variables lens_galaxies source_galaxies : ModelResult → Galaxies.
Variable pixelization : HyperResult → Pixelization.
Variable instrumentation : HyperResult → Instrumentation.

Record MainPipeline : Type := {
  model_analyses : list ModelStage;
  hyperparameter_analysis : HyperStage
}.

(** The loop of [MainPipeline.run] over the model analyses still to run. *)
Fixpoint run_from (self : MainPipeline) (image : Image) (mask : Mask)
    (todo : list ModelStage) (pix : Pixelization) (instr : Instrumentation)
    (model_results : list ModelResult) (hyperparameter_results : list HyperResult)
    : stateful W (list ModelResult * list HyperResult) :=
  match todo with
  | [] => sret (model_results, hyperparameter_results)
  | model_analysis :: todo' =>
      let* model_result := model_run model_analysis image mask pix instr in
      let* hyperparameter_result :=
        hyper_run (hyperparameter_analysis self) image mask
          (lens_galaxies model_result) (source_galaxies model_result) in
      run_from self image mask todo'
        (pixelization hyperparameter_result) (instrumentation hyperparameter_result)
        (model_results ++ [model_result])
        (hyperparameter_results ++ [hyperparameter_result])
  end.

(** [MainPipeline.run] *)
Definition MainPipeline_run (self : MainPipeline) (image : Image) (mask : Mask)
    (pix : Pixelization) (instr : Instrumentation)
    : stateful W (list ModelResult * list HyperResult) :=
  run_from self image mask (model_analyses self) pix instr [] [].

(** The chain of stages as the specification words it: each stage runs
    its model analysis on the current pixelization and instrumentation,
    then the hyperparameter analysis on the galaxies just produced, whose
    result gives the pixelization and instrumentation of the next stage. *)
Inductive stages (ha : HyperStage) (image : Image) (mask : Mask)
    : W → Pixelization → Instrumentation → list ModelStage
      → list ModelResult → list HyperResult → W → Prop :=
  | stages_done w pix instr : stages ha image mask w pix instr [] [] [] w
  | stages_next w w1 w2 w3 pix instr ma mas mr hr mrs hrs :
      model_run ma image mask pix instr w = (w1, Ok mr) →
      hyper_run ha image mask (lens_galaxies mr) (source_galaxies mr) w1 = (w2, Ok hr) →
      stages ha image mask w2 (pixelization hr) (instrumentation hr) mas mrs hrs w3 →
      stages ha image mask w pix instr (ma :: mas) (mr :: mrs) (hr :: hrs) w3.

End pipeline.

Arguments world parser : clear implicits.

End Pipeline.

(** ** Interpreters and libraries used by the examples *)

Module Interp.
Import Py.

Section layout_perm.
Context {E : Type} (h : E → Z).
Implicit Types (t : CPython27.table (E:=E)) (e : E).

Lemma active_insert t j e :
  t !! j = Some None → CPython27.active (<[j := Some e]> t) ≡ₚ e :: CPython27.active t.
Proof.
  unfold CPython27.active. revert j. induction t as [|x t IH]; intros [|j] Hj; simplify_eq/=.
  - done.
  - destruct x as [x|]; simpl; rewrite (IH j) by done; [apply Permutation_swap|done].
Qed.

Lemma probe_free fuel t mask i perturb j :
  CPython27.probe fuel t mask i perturb = Some j → t !! j = Some None.
Proof.
  revert i perturb. induction fuel as [|fuel IH]; intros i perturb; simpl;
    destruct (CPython27.slot_free t _) eqn:Hfree; try done.
  - intros [= <-]. unfold CPython27.slot_free in Hfree.
    by destruct (t !! _) as [[?|]|].
  - intros [= <-]. unfold CPython27.slot_free in Hfree.
    by destruct (t !! _) as [[?|]|].
  - apply IH.
Qed.

Lemma active_insert_clean t e :
  CPython27.active (CPython27.insert_clean h t e) ≡ₚ e :: CPython27.active t.
Proof.
  unfold CPython27.insert_clean.
  destruct (CPython27.probe _ _ _ _ _) as [j|] eqn:Hprobe.
  - apply active_insert. by eapply probe_free.
  - unfold CPython27.active. rewrite omap_app. simpl.
    by rewrite <- Permutation_cons_append.
Qed.

Lemma active_foldl_insert_clean l t :
  CPython27.active (foldl (CPython27.insert_clean h) t l) ≡ₚ l ++ CPython27.active t.
Proof.
  revert t. induction l as [|e l IH]; intros t; simpl; [done|].
  rewrite IH, active_insert_clean. by rewrite <- Permutation_middle.
Qed.

Lemma active_replicate n : CPython27.active (replicate n (None : option E)) = [].
Proof. unfold CPython27.active. induction n; simpl; auto. Qed.

Lemma active_set_new t e :
  CPython27.active (CPython27.set_new h t e) ≡ₚ e :: CPython27.active t.
Proof.
  unfold CPython27.set_new. case_match.
  - unfold CPython27.resize.
    rewrite active_foldl_insert_clean, active_replicate, app_nil_r.
    apply active_insert_clean.
  - apply active_insert_clean.
Qed.

Lemma layout_perm l : CPython27.layout h l ≡ₚ l.
Proof.
  unfold CPython27.layout.
  assert (∀ t, CPython27.active (foldl (CPython27.set_new h) t l)
               ≡ₚ l ++ CPython27.active t) as Hgen.
  { induction l as [|e l IH]; intros t; simpl; [done|].
    rewrite IH, active_set_new. by rewrite <- Permutation_middle. }
  by rewrite Hgen, active_replicate, app_nil_r.
Qed.
End layout_perm.

(** CPython 2.7. *)
Definition cpython27 : DictOrder :=
  {| dict_order E h l := CPython27.layout h l;
     dict_order_perm E h l := layout_perm h l |}.

(** An interpreter whose dictionaries keep the order of insertion. *)
Definition insertion_ordered : DictOrder :=
  {| dict_order E h l := l;
     dict_order_perm E h l := reflexivity l |}.

(** Config files as a table from file name to the options of each
    section, and a parser over it that remembers the files it has read. *)
Definition ini : Type := list (string * list (string * string)).

Definition ini_lookup (content : ini) (section name : string) : option string :=
  (list_find (fun s => s.1 = section) content) ≫= fun s =>
  (list_find (fun o => o.1 = name) s.2.2) ≫= fun o => Some o.2.2.

Definition loaded_lookup (files : list (string * ini)) (loaded : list string)
    (section name : string) : option string :=
  (list_find (fun f => bool_decide (f.1 ∈ loaded) && bool_decide (is_Some (ini_lookup f.2 section name)))
     files) ≫= fun f => ini_lookup f.2.2 section name.

Definition table_parser (files : list (string * ini)) : Prior.ConfigParser (list string) :=
  {| Prior.parser_new := [];
     Prior.parser_read loaded file :=
       if bool_decide (file ∈ loaded) || negb (bool_decide (file ∈ files.*1))
       then loaded else file :: loaded;
     Prior.parser_has_option loaded section name :=
       bool_decide (is_Some (loaded_lookup files loaded section name));
     Prior.parser_get loaded section name :=
       from_option Ok (Raise NoOptionError) (loaded_lookup files loaded section name) |}.

(** [float] on plain decimal numerals: an optional sign, digits, and an
    optional fraction. *)
Definition digit (c : ascii) : option Z :=
  let n := Z.of_nat (nat_of_ascii c) in
  if ((48 <=? n) && (n <=? 57))%Z then Some (n - 48)%Z else None.

Fixpoint digits (s : string) (acc : Z) (scale : Z) (frac : bool) : option (Z * Z) :=
  match s with
  | EmptyString => Some (acc, scale)
  | String c s' =>
      if Ascii.eqb c "."%char then (if frac then None else digits s' acc scale true)
      else d ← digit c; digits s' (10 * acc + d)%Z (if frac then 10 * scale else scale)%Z frac
  end.

Definition decimal_float (s : string) : result R :=
  let '(sign, body) :=
    match s with
    | String "-"%char s' => ((-1)%Z, s')
    | _ => (1%Z, s)
    end in
  match body with
  | EmptyString => Raise ValueError
  | _ => match digits body 0 1 false with
         | Some (n, scale) =>
             Ok (if (scale =? 1)%Z then IZR (sign * n) else IZR (sign * n) / IZR scale)%R
         | None => Raise ValueError
         end
  end.

(** A stand-in for [scipy.special.erfinv] where its values do not matter. *)
Definition erfinv_stub (x : R) : R := x.

(** The setting of the examples: CPython 2.7, a config directory with one
    file, and a few classes. *)
Definition config_files : list (string * ini) :=
  [("/lens/config/profiles.ini",
    [("Sersic", [("centre_0", "u,-1,1"); ("centre_1", "u,-1,1");
                 ("intensity", "u, 0, 5")]);
     ("Shifted", [("origin_0", "u,0,1"); ("origin_1", "u,0,1")]);
     ("Profile", [("radius", "g,1,0.5")]);
     ("Ring", [("radius", "u,0,2")])])].

#[export] Instance example_parser : Prior.ConfigParser (list string) :=
  table_parser config_files.

(** [object], the base of every new-style class. *)
Definition object_class : Prior.pyclass :=
  Prior.PyClass "__builtin__" "object" [] [] None.

(** [class Sersic(object): def __init__(self, centre=(0., 0.), intensity=1.)] *)
Definition Sersic : Prior.pyclass :=
  Prior.PyClass "lens.profiles" "Sersic" [object_class] ["self"; "centre"; "intensity"]
    (Some [Prior.VTuple [Prior.VFloat 0; Prior.VFloat 0]; Prior.VFloat 1]).

(** [class Shifted(object): def __init__(self, origin=(0., 0.))] *)
Definition Shifted : Prior.pyclass :=
  Prior.PyClass "lens.profiles" "Shifted" [object_class] ["self"; "origin"]
    (Some [Prior.VTuple [Prior.VFloat 0; Prior.VFloat 0]]).

(** [class Profile(object)], [class Ring(object)], [class Disc(Profile)]
    and [class Halo(Disc, Ring)], whose [__init__] takes [radius]. *)
Definition Profile : Prior.pyclass :=
  Prior.PyClass "lens.profiles" "Profile" [object_class] ["self"; "radius"] None.
Definition Ring : Prior.pyclass :=
  Prior.PyClass "lens.profiles" "Ring" [object_class] ["self"; "radius"] None.
Definition Disc : Prior.pyclass :=
  Prior.PyClass "lens.profiles" "Disc" [Profile] ["self"; "radius"] None.
Definition Halo : Prior.pyclass :=
  Prior.PyClass "lens.profiles" "Halo" [Disc; Ring] ["self"; "radius"] None.

(** The mapper [ClassMap(config, name=cls)] with [prior_number] at 0. *)
Definition mapper_of (name : string) (cls : Prior.pyclass) : Prior.ClassMap (list string) :=
  (Prior.ClassMap_init (H := cpython27) decimal_float "/lens"
     (Some (Prior.Config_init "/lens/config")) [(name, cls)] ([], 0%nat)).1.1.

(** The default arguments after the module was executed in a fresh program. *)
Definition module_defaults : Pipeline.defaults :=
  {| Pipeline.ModelAnalysis_model_mapper := 0;
     Pipeline.ModelAnalysis_non_linear_optimizer := 0;
     Pipeline.HyperparameterAnalysis_model_mapper := 1;
     Pipeline.HyperparameterAnalysis_non_linear_optimizer := 1;
     Pipeline.Analysis_model_mapper := 2;
     Pipeline.Analysis_non_linear_optimizer := 2 |}.

Import Prior Pipeline.
Local Open Scope R_scope.

(** A tuple prior as [add_class] builds it for [origin=(0., 0.)]. *)
Definition origin_0 : Prior := {| id := 0; dist := UniformPrior 0 1 |}.
Definition origin_1 : Prior := {| id := 1; dist := UniformPrior 0 1 |}.
Definition origin_prior : TuplePrior :=
  [("origin_0", TPPrior origin_0); ("origin_1", TPPrior origin_1)].

(** Two profiles with an intensity and a radius each, and the tie of the
    docstring: [collection.sersic_1.intensity = collection.sersic_2.intensity]. *)
Definition two_profiles : ClassMap (list string) :=
  [("config", CMConfig (Config_init "/lens/config"));
   ("sersic_1", CMModel [("cls", PMClass Ring);
                         ("intensity", PMPrior {| id := 0; dist := UniformPrior 0 5 |});
                         ("radius", PMPrior {| id := 1; dist := UniformPrior 0 2 |})]);
   ("sersic_2", CMModel [("cls", PMClass Ring);
                         ("intensity", PMPrior {| id := 2; dist := UniformPrior 0 5 |});
                         ("radius", PMPrior {| id := 3; dist := UniformPrior 0 2 |})])].

(** An analysis with a pixelization class, run with a pixelization. *)
Definition pixelized : Analysis :=
  [("model_mapper", OMapper 2);
   ("non_linear_optimizer", OOptimizer 2);
   ("included_attributes", OList [OStr "pixelization_class"]);
   ("pixelization_class", OClass Sersic);
   ("missing_attributes",
    OList [OStr "instrumentation"; OStr "lens_galaxies"; OStr "source_galaxies"])].

(** A pipeline of two stages.  The state is the log of the pixelization and
    instrumentation each model analysis was run on: the second entry is
    what the first hyperparameter analysis returned. *)
Definition log_model_run (stage : nat) (_ _ : unit) (pix instr : nat)
    : stateful (list (nat * nat)) nat :=
  fun log => (log ++ [(pix, instr)], Ok (stage + pix)%nat).

Definition log_hyper_run (_ _ _ : unit) (lens source : nat)
    : stateful (list (nat * nat)) (nat * nat) :=
  fun log => (log, Ok (lens + 1, source + 2)%nat).

(** [class Shell(Ring): def __init__(self, radius, thickness)]: the config
    has an entry for [radius], that of [Ring], and none for [thickness]. *)
Definition Shell : pyclass :=
  PyClass "lens.profiles" "Shell" [Ring] ["self"; "radius"; "thickness"] None.

(** A mapper with nothing but its config. *)
Definition empty_mapper : ClassMap (list string) :=
  [("config", CMConfig (Config_init "/lens/config"))].

(** The mapper that [ClassMap(config, galaxy=Sersic)] makes on CPython 2.7. *)
Definition sersic_mapper : ClassMap (list string) :=
  [("config", CMConfig {| path := "/lens/config"; cfg_parser := ["/lens/config/profiles.ini"] |});
   ("galaxy",
    CMModel [("cls", PMClass Sersic);
             ("centre",
              PMTuple [("centre_0", TPPrior {| id := 0; dist := UniformPrior (-1) 1 |});
                       ("centre_1", TPPrior {| id := 1; dist := UniformPrior (-1) 1 |})]);
             ("intensity", PMPrior {| id := 2; dist := UniformPrior 0 5 |})])].

(** Two rings whose radius is tied: both hold the same Prior. *)
Definition tied_rings : ClassMap (list string) :=
  [("config", CMConfig (Config_init "/lens/config"));
   ("ring_1", CMModel [("cls", PMClass Ring);
                       ("radius", PMPrior {| id := 0; dist := UniformPrior 0 2 |})]);
   ("ring_2", CMModel [("cls", PMClass Ring);
                       ("radius", PMPrior {| id := 0; dist := UniformPrior 0 2 |})])].

(** A model analysis that raises at stage 20. *)
Definition failing_model_run (stage : nat) (image mask : unit) (pix instr : nat)
    : stateful (list (nat * nat)) nat :=
  if (stage =? 20)%nat then sraise ValueError
  else log_model_run stage image mask pix instr.

(** [class Ring(object): def __init__(self, radius)] of another module,
    [shapes], for which the config directory has no file. *)
Definition shapes_Ring : pyclass :=
  PyClass "shapes" "Ring" [object_class] ["self"; "radius"] None.

(** Galaxy priors of the examples: a name and a class, which
    [attach_to_model_mapper] adds to the mapper under that name. *)
Definition attach_class (galaxy_prior : string * pyclass)
    : stateful (building (list string)) unit :=
  add_class decimal_float galaxy_prior.1 galaxy_prior.2.

(** Limits written [-0.1] and [0.3]: the floats the interpreter reads,
    the binary64 values nearest to them. *)
Import PrimFloat.
#[warnings="-inexact-float"] Definition below_zero : float := (-0.1)%float.
#[warnings="-inexact-float"] Definition three_tenths : float := 0.3%float.

(** Limits written [-1e308] and [1e308]: their difference overflows. *)
#[warnings="-inexact-float"] Definition minus_1e308 : float := (-1e308)%float.
#[warnings="-inexact-float"] Definition plus_1e308 : float := 1e308%float.

(** [0.5], and the offset [2 ** -54]: half the distance from 0.5 to the
    float above it, and the distance from 0.5 to the float below it. *)
Definition one_half : float := 0.5%float.


End Interp.

Example hash_a : CPython27.string_hash "a" = 12416037344%Z.
Proof. reflexivity. Qed.

Example layout_abc :
  CPython27.layout CPython27.string_hash ["a"; "b"; "c"] = ["a"; "c"; "b"].
Proof. vm_compute. reflexivity. Qed.

Example layout_origin :
  CPython27.layout CPython27.string_hash ["origin_0"; "origin_1"] = ["origin_1"; "origin_0"].
Proof. vm_compute. reflexivity. Qed.

(** ** Properties of the runtime: sorting and dictionaries *)

Module PyFacts.
Import Py Prior.

Section sorting.
Context {A : Type} (key : A → nat).

Lemma insert_by_perm x l : insert_by key x l ≡ₚ x :: l.
Proof.
  induction l as [|y l IH]; simpl; [done|].
  case_match; [done|]. rewrite IH. apply Permutation_swap.
Qed.

Lemma sorted_perm l : sorted key l ≡ₚ l.
Proof.
  unfold sorted. induction l as [|x l IH]; simpl; [done|].
  by rewrite insert_by_perm, IH.
Qed.

Definition key_le (a b : A) : Prop := (key a <= key b)%nat.

Lemma insert_by_hd_rel y x l :
  (key y <= key x)%nat → HdRel key_le y l → HdRel key_le y (insert_by key x l).
Proof.
  intros Hyx Hhd. destruct l as [|z l]; simpl; [by constructor|].
  case_match; constructor; [done|]. by inversion Hhd.
Qed.

Lemma insert_by_sorted x l : Sorted key_le l → Sorted key_le (insert_by key x l).
Proof.
  induction 1 as [|y l Hsorted IH Hhd]; simpl.
  - by repeat constructor.
  - case_match eqn:Hcmp.
    + apply Nat.leb_le in Hcmp. by repeat constructor.
    + apply Nat.leb_gt in Hcmp. constructor; [done|].
      apply insert_by_hd_rel; [lia|done].
Qed.

Lemma sorted_sorted l : Sorted key_le (sorted key l).
Proof.
  unfold sorted. induction l as [|x l IH]; simpl; [constructor|].
  by apply insert_by_sorted.
Qed.

Lemma sorted_keys_le l : StronglySorted le (key <$> sorted key l).
Proof.
  assert (StronglySorted key_le (sorted key l)) as Hs.
  { apply Sorted_StronglySorted; [|apply sorted_sorted].
    intros a b c. unfold key_le. lia. }
  induction Hs as [|a l' _ IH Hall]; simpl; constructor; [done|].
  rewrite Forall_fmap. eapply Forall_impl; [exact Hall|]. done.
Qed.
End sorting.

Lemma strictly_sorted (l : list nat) :
  StronglySorted le l → NoDup l → StronglySorted lt l.
Proof.
  induction 1 as [|x l _ IH Hall]; intros Hnd; [constructor|].
  apply NoDup_cons in Hnd as [Hx Hnd]. constructor; [by apply IH|].
  rewrite Forall_forall in Hall |- *. intros y Hy.
  specialize (Hall y Hy). assert (x ≠ y) by (intros ->; done). lia.
Qed.

Lemma strictly_sorted_NoDup (l : list nat) : StronglySorted lt l → NoDup l.
Proof.
  induction 1 as [|x l _ IH Hall]; constructor; [|done].
  intros Hx. rewrite Forall_forall in Hall. specialize (Hall x Hx). lia.
Qed.

(** Two strictly ascending lists with the same elements are the same list. *)
Lemma strictly_sorted_unique (l1 l2 : list nat) :
  StronglySorted lt l1 → StronglySorted lt l2 → (∀ i, i ∈ l1 ↔ i ∈ l2) → l1 = l2.
Proof.
  intros H1 H2 Hmem.
  apply (StronglySorted_unique_strong lt); [intros; lia|done..|].
  apply NoDup_Permutation; auto using strictly_sorted_NoDup.
Qed.

Lemma elem_of_iteritems `{DictOrder} {K V} `{PyKey K} (d : dict K V) (e : K * V) :
  e ∈ iteritems d ↔ e ∈ d.
Proof. unfold iteritems. by rewrite dict_order_perm. Qed.

(** Dictionaries whose keys are equal exactly when a projection [f] of
    them is: [f] is the string itself for attribute names and the id for
    priors. *)
Section dict_keys.
Context {K V A : Type} `{PyKey K} (f : K → A).
Hypothesis key_eqb_spec : ∀ k k' : K, key_eqb k k' = true ↔ f k = f k'.
Implicit Types (d : dict K V) (l : list (K * V)).

Definition keys_of d : list A := (fun e => f e.1) <$> d.

Lemma dict_get_None d k : dict_get d k = None ↔ f k ∉ keys_of d.
Proof.
  unfold keys_of. induction d as [|[k' v'] d IH]; csimpl.
  - split; [intros _; apply not_elem_of_nil|done].
  - rewrite not_elem_of_cons. destruct (key_eqb k' k) eqn:Heq.
    + apply key_eqb_spec in Heq. split; [done|]. intros [Hne _]. congruence.
    + rewrite IH. split; [|tauto]. intros Hnot. split; [|done].
      intros Hfk. assert (key_eqb k' k = true) by (by apply key_eqb_spec). congruence.
Qed.

Lemma dict_get_Some d k v :
  dict_get d k = Some v → ∃ k', (k', v) ∈ d ∧ f k' = f k.
Proof.
  induction d as [|[k' v'] d IH]; csimpl; [done|].
  destruct (key_eqb k' k) eqn:Heq.
  - intros [= ->]. exists k'. split; [left|by apply key_eqb_spec].
  - intros Hget. destruct (IH Hget) as (k'' & Hin & Hk). exists k''. split; [by right|done].
Qed.

Lemma dict_get_elem d k v :
  NoDup (keys_of d) → (k, v) ∈ d → dict_get d k = Some v.
Proof.
  unfold keys_of. induction d as [|[k' v'] d IH]; csimpl; intros Hnd Hin.
  - by apply elem_of_nil in Hin.
  - apply NoDup_cons in Hnd as [Hk' Hnd].
    apply elem_of_cons in Hin as [[= <- <-]|Hin].
    + assert (key_eqb k k = true) as -> by (by apply key_eqb_spec). done.
    + destruct (key_eqb k' k) eqn:Heq; [|by apply IH].
      apply key_eqb_spec in Heq. exfalso. apply Hk'. rewrite Heq.
      apply (list_elem_of_fmap_2 (fun e : K * V => f e.1) _ _ Hin).
Qed.

Lemma keys_of_dict_set d k v :
  keys_of (dict_set d k v)
  = if dict_get d k is Some _ then keys_of d else keys_of d ++ [f k].
Proof.
  unfold keys_of. induction d as [|[k' v'] d IH]; csimpl; [done|].
  destruct (key_eqb k' k) eqn:Heq; csimpl; [done|].
  rewrite IH. by destruct (dict_get d k).
Qed.

Lemma dict_set_NoDup d k v : NoDup (keys_of d) → NoDup (keys_of (dict_set d k v)).
Proof.
  intros Hnd. rewrite keys_of_dict_set. destruct (dict_get d k) eqn:Hget; [done|].
  apply dict_get_None in Hget. apply NoDup_app. split_and!; [done| |apply NoDup_singleton].
  intros a Ha Hin. apply list_elem_of_singleton in Hin as ->. done.
Qed.

Lemma elem_of_keys_dict_set d k v a :
  a ∈ keys_of (dict_set d k v) ↔ a = f k ∨ a ∈ keys_of d.
Proof.
  rewrite keys_of_dict_set. destruct (dict_get d k) eqn:Hget.
  - split; [by right|]. intros [->|Hin]; [|done].
    apply dict_get_Some in Hget as (k' & Hin & <-).
    apply (list_elem_of_fmap_2 (fun e : K * V => f e.1) _ _ Hin).
  - rewrite elem_of_app, list_elem_of_singleton. tauto.
Qed.

(** What an entry holds stays related to its key, when the relation only
    looks at the key through [f]. *)
Lemma dict_set_entries (P : A → V → Prop) d k v :
  (∀ e, e ∈ d → P (f e.1) e.2) → P (f k) v →
  ∀ e, e ∈ dict_set d k v → P (f e.1) e.2.
Proof.
  induction d as [|[k' v'] d IH]; csimpl; intros Hd Hv e He.
  - apply list_elem_of_singleton in He as ->. done.
  - destruct (key_eqb k' k) eqn:Heq.
    + apply elem_of_cons in He as [->|He]; csimpl.
      * apply key_eqb_spec in Heq. by rewrite Heq.
      * apply Hd. by right.
    + apply elem_of_cons in He as [->|He].
      * apply (Hd (k', v')). left.
      * apply IH; [|done..]. intros e' He'. apply Hd. by right.
Qed.

Lemma dict_of_list_from d l :
  NoDup (keys_of d) →
  NoDup (keys_of (foldl (fun d kv => dict_set d kv.1 kv.2) d l))
  ∧ (∀ a, a ∈ keys_of (foldl (fun d kv => dict_set d kv.1 kv.2) d l)
          ↔ a ∈ keys_of d ∨ a ∈ keys_of l)
  ∧ (∀ P : A → V → Prop,
       (∀ e, e ∈ d → P (f e.1) e.2) → (∀ e, e ∈ l → P (f e.1) e.2) →
       ∀ e, e ∈ foldl (fun d kv => dict_set d kv.1 kv.2) d l → P (f e.1) e.2).
Proof.
  revert d. induction l as [|[k v] l IH]; intros d Hnd; csimpl.
  - split_and!; [done| |by auto].
    intros a. change (keys_of []) with (@nil A). rewrite elem_of_nil. tauto.
  - destruct (IH (dict_set d k v) (dict_set_NoDup d k v Hnd)) as (IH1 & IH2 & IH3).
    split_and!; [done| |].
    + intros a. rewrite IH2, elem_of_keys_dict_set.
      change (keys_of ((k, v) :: l)) with (f k :: keys_of l).
      rewrite elem_of_cons. tauto.
    + intros P Hd Hl. apply IH3.
      * apply dict_set_entries; [done|]. apply (Hl (k, v)). left.
      * intros e He. apply Hl. by right.
Qed.

Lemma dict_of_list_keys l :
  NoDup (keys_of (dict_of_list l))
  ∧ (∀ a, a ∈ keys_of (dict_of_list l) ↔ a ∈ keys_of l)
  ∧ (∀ P : A → V → Prop,
       (∀ e, e ∈ l → P (f e.1) e.2) → ∀ e, e ∈ dict_of_list l → P (f e.1) e.2).
Proof.
  destruct (dict_of_list_from [] l) as (H1 & H2 & H3); [constructor|].
  split_and!; [done| |].
  - intros a. unfold dict_of_list. rewrite (H2 a).
    change (keys_of []) with (@nil A). rewrite elem_of_nil. tauto.
  - intros P Hl. apply H3; [|done]. intros e He. by apply elem_of_nil in He.
Qed.
End dict_keys.

Lemma string_key_spec (k k' : string) : key_eqb k k' = true ↔ (fun s => s) k = (fun s => s) k'.
Proof. simpl. apply String.eqb_eq. Qed.

Lemma prior_key_spec (p q : Prior.Prior) : key_eqb p q = true ↔ Prior.id p = Prior.id q.
Proof. simpl. apply Nat.eqb_eq. Qed.

Lemma dict_get_set {V} (d : dict string V) (k k' : string) (v : V) :
  dict_get (dict_set d k v) k' = if String.eqb k k' then Some v else dict_get d k'.
Proof.
  induction d as [|[k0 v0] d IH]; simpl.
  - done.
  - destruct (String.eqb k0 k) eqn:Hk0; simpl.
    + apply String.eqb_eq in Hk0 as ->. by destruct (String.eqb k k').
    + rewrite IH. destruct (String.eqb k0 k') eqn:Hk0'; [|done].
      apply String.eqb_eq in Hk0' as ->.
      rewrite String.eqb_sym in Hk0. by rewrite Hk0.
Qed.

(** Dictionaries keyed by attribute names. *)
Section string_dict.
Context {V : Type}.
Implicit Types (d : dict string V) (k : string).

Lemma dict_get_elem_of d k v : dict_get d k = Some v → (k, v) ∈ d.
Proof.
  intros Hget. apply (dict_get_Some (fun s => s) string_key_spec) in Hget
    as (k' & Hin & ->). done.
Qed.

Lemma dict_set_set d k v v' : dict_set (dict_set d k v) k v' = dict_set d k v'.
Proof.
  induction d as [|[k0 v0] d IH]; simpl.
  - by rewrite String.eqb_refl.
  - destruct (String.eqb k0 k) eqn:Hk; simpl; rewrite Hk; [done|]. by rewrite IH.
Qed.

Lemma dict_set_keys d k v : k ∈ d.*1 → (dict_set d k v).*1 = d.*1.
Proof.
  induction d as [|[k0 v0] d IH]; simpl; intros Hin.
  - by apply elem_of_nil in Hin.
  - destruct (String.eqb k0 k) eqn:Hk; [done|]. simpl. f_equal. apply IH.
    apply elem_of_cons in Hin as [->|Hin]; [|done].
    by rewrite String.eqb_refl in Hk.
Qed.

(** Assigning to a name that is there replaces its one entry. *)
Lemma dict_set_split d k v :
  NoDup d.*1 → (k, v) ∈ d →
  ∃ rest, d ≡ₚ (k, v) :: rest ∧ (k ∉ rest.*1)
          ∧ (∀ v', dict_set d k v' ≡ₚ (k, v') :: rest).
Proof.
  induction d as [|[k0 v0] d IH]; simpl; intros Hnd Hin.
  - by apply elem_of_nil in Hin.
  - apply NoDup_cons in Hnd as [Hk0 Hnd].
    destruct (String.eqb k0 k) eqn:Hk.
    + apply String.eqb_eq in Hk as ->.
      apply elem_of_cons in Hin as [[= <-]|Hin].
      * exists d. split_and!; [done..|]. intros v'. done.
      * exfalso. apply Hk0. by apply (list_elem_of_fmap_2 fst _ _ Hin).
    + apply elem_of_cons in Hin as [[= -> ->]|Hin];
        [by rewrite String.eqb_refl in Hk|].
      destruct (IH Hnd Hin) as (rest & Hperm & Hk' & Hset).
      exists ((k0, v0) :: rest). split_and!.
      * rewrite Hperm. apply Permutation_swap.
      * simpl. rewrite not_elem_of_cons. split; [|done].
        intros ->. by rewrite String.eqb_refl in Hk.
      * intros v'. rewrite Hset. apply Permutation_swap.
Qed.
End string_dict.

End PyFacts.

(** ** Facts about binary64 arithmetic *)

Module Binary64Facts.
Import SpecFloat FloatOps FloatAxioms.

Lemma SFeqb_refl (x : spec_float) : x ≠ S754_nan → SFeqb x x = true.
Proof.
unfold SFeqb. destruct x as [s|s| |s m e]; simpl; try congruence.
- by destruct s.
- intros _. rewrite Z.compare_refl.
  assert (PosDef.Pos.compare_cont Eq m m = Eq) as -> by apply Pos.compare_cont_refl.
  by destruct s.
Qed.

(** A finite float is a zero or a number with a mantissa and an exponent. *)
Lemma is_finite_spec (x : PrimFloat.float) :
  PrimFloat.is_finite x = true →
  (∃ s, Prim2SF x = S754_zero s) ∨ (∃ s m e, Prim2SF x = S754_finite s m e).
Proof.
unfold PrimFloat.is_finite, PrimFloat.is_nan, PrimFloat.is_infinity.
rewrite !eqb_spec, abs_spec.
change (Prim2SF PrimFloat.infinity) with (S754_infinity false).
destruct (Prim2SF x) as [s|s| |s m e]; simpl; try discriminate; eauto.
destruct s; discriminate.
Qed.

(** [lo + 0.0 * (hi - lo) == lo] when [hi - lo] is finite: the product is
    a zero, and adding a zero changes at most the sign of a zero. *)
Lemma binary64_add_zero_mul (lo hi : PrimFloat.float) :
  PrimFloat.is_finite (PrimFloat.sub hi lo) = true →
  PrimFloat.eqb (PrimFloat.add lo (PrimFloat.mul PrimFloat.zero (PrimFloat.sub hi lo))) lo
  = true.
Proof.
intros Hd.
rewrite eqb_spec, add_spec, mul_spec.
apply is_finite_spec in Hd.
change (Prim2SF PrimFloat.zero) with (S754_zero false).
assert (Prim2SF lo ≠ S754_nan ∧ ∀ s, Prim2SF lo ≠ S754_infinity s) as [Hn Hi].
{ rewrite sub_spec in Hd. unfold SF64sub, SFsub in Hd.
  destruct (Prim2SF hi) as [s|s| |s m e], (Prim2SF lo) as [s'|s'| |s' m' e'];
    split; try congruence; try (intros ? ?; discriminate);
    destruct Hd as [[? Hd]|(? & ? & ? & Hd)]; try discriminate;
    try (destruct s, s'; discriminate). }
destruct Hd as [[s ->]|(s & m & e & ->)]; unfold SF64add, SF64mul; simpl;
  destruct (Prim2SF lo) as [s'|s'| |s' m' e'] eqn:E; try congruence;
  try (exfalso; eapply Hi; reflexivity); simpl.
all: try (destruct s', s; reflexivity).
all: try (apply (SFeqb_refl (S754_finite s' m' e')); discriminate).
Qed.


End Binary64Facts.

(** ** Properties of the priors *)

Module PriorFacts.
Import Py Prior Binary64Facts.

Import PyFacts.

Section ownership.
Context `{DictOrder} `{Prior.ConfigParser parser}.
Implicit Types (self : ClassMap parser) (pm : PriorModel) (tp : TuplePrior) (p : Prior).

(** The Prior [p] sits under the name [n] in a prior model: as an
    attribute of the model itself or of one of its tuple priors. *)
Definition holds pm (n : string) p : Prop :=
  (n, PMPrior p) ∈ pm ∨ ∃ a tp, (a, PMTuple tp) ∈ pm ∧ (n, TPPrior p) ∈ tp.

(** The mapper owns [p] under [n]: one of its prior models holds it. *)
Definition owns self (n : string) p : Prop :=
  ∃ name pm, (name, CMModel pm) ∈ self ∧ holds pm n p.

(** The ids of the sequence [priors] returns. *)
Definition prior_ids self : list nat := (fun prior => id prior.2) <$> priors self.

Lemma elem_of_TuplePrior_priors tp n p :
  (n, p) ∈ TuplePrior_priors tp ↔ (n, TPPrior p) ∈ tp.
Proof.
  unfold TuplePrior_priors. rewrite list_elem_of_omap. split.
  - intros ([n' v] & Hin & Hv). rewrite elem_of_iteritems in Hin.
    simpl in Hv. destruct v; by simplify_eq.
  - intros Hin. exists (n, TPPrior p). by rewrite elem_of_iteritems.
Qed.

Lemma elem_of_direct_priors pm n p :
  (n, p) ∈ PriorModel_direct_priors pm ↔ (n, PMPrior p) ∈ pm.
Proof.
  unfold PriorModel_direct_priors. rewrite list_elem_of_omap. split.
  - intros ([n' v] & Hin & Hv). rewrite elem_of_iteritems in Hin.
    simpl in Hv. destruct v; by simplify_eq.
  - intros Hin. exists (n, PMPrior p). by rewrite elem_of_iteritems.
Qed.

Lemma elem_of_tuple_priors pm n tp :
  (n, tp) ∈ PriorModel_tuple_priors pm ↔ (n, PMTuple tp) ∈ pm.
Proof.
  unfold PriorModel_tuple_priors. rewrite list_elem_of_omap. split.
  - intros ([n' v] & Hin & Hv). rewrite elem_of_iteritems in Hin.
    simpl in Hv. destruct v; by simplify_eq.
  - intros Hin. exists (n, PMTuple tp). by rewrite elem_of_iteritems.
Qed.

Lemma elem_of_prior_models self n pm :
  (n, pm) ∈ prior_models self ↔ (n, CMModel pm) ∈ self.
Proof.
  unfold prior_models. rewrite list_elem_of_omap. split.
  - intros ([n' v] & Hin & Hv). rewrite elem_of_iteritems in Hin.
    simpl in Hv. destruct v; by simplify_eq.
  - intros Hin. exists (n, CMModel pm). by rewrite elem_of_iteritems.
Qed.

Lemma elem_of_flat_map {A B} (f : A → list B) (l : list A) (y : B) :
  y ∈ flat_map f l ↔ ∃ x, x ∈ l ∧ y ∈ f x.
Proof.
  rewrite list_elem_of_In, in_flat_map. apply exist_proper. intros x.
  by rewrite !list_elem_of_In.
Qed.

Lemma elem_of_PriorModel_priors pm n p :
  (n, p) ∈ PriorModel_priors pm ↔ holds pm n p.
Proof.
  unfold PriorModel_priors, holds.
  rewrite elem_of_app, elem_of_direct_priors, elem_of_flat_map.
  apply or_iff_compat_l. split.
  - intros ([a tp] & Htp & Hp). exists a, tp.
    by rewrite <- elem_of_tuple_priors, <- elem_of_TuplePrior_priors.
  - intros (a & tp & Htp & Hp). exists (a, tp).
    by rewrite elem_of_tuple_priors, elem_of_TuplePrior_priors.
Qed.

(** Every place where the mapper holds a Prior, shared ones repeated. *)
Definition slots self : list (string * Prior) :=
  flat_map (fun t => PriorModel_priors t.2) (prior_models self).

Lemma elem_of_slots self n p : (n, p) ∈ slots self ↔ owns self n p.
Proof.
  unfold slots, owns. rewrite elem_of_flat_map. split.
  - intros ([name pm] & Hpm & Hp). exists name, pm.
    by rewrite <- elem_of_prior_models, <- elem_of_PriorModel_priors.
  - intros (name & pm & Hpm & Hp). exists (name, pm).
    by rewrite elem_of_prior_models, elem_of_PriorModel_priors.
Qed.

Lemma prior_set_entries self :
  prior_set self
  = values (dict_of_list ((fun prior => (prior.2, prior)) <$> slots self)).
Proof.
  unfold prior_set, slots. do 2 f_equal.
  induction (prior_models self) as [|t l IH]; simpl; [done|].
  by rewrite fmap_app, IH.
Qed.

Lemma prior_set_spec self :
  NoDup ((fun prior => id prior.2) <$> prior_set self)
  ∧ (∀ i, i ∈ (fun prior => id prior.2) <$> prior_set self
          ↔ ∃ n p, owns self n p ∧ id p = i)
  ∧ (∀ n p, (n, p) ∈ prior_set self → owns self n p).
Proof.
  rewrite prior_set_entries.
  set (L := (fun prior : string * Prior => (prior.2, prior)) <$> slots self).
  destruct (dict_of_list_keys (V := string * Prior) id prior_key_spec L)
    as (Hnd & Hmem & Hent).
  assert (∀ e, e ∈ dict_of_list L → id e.2.2 = id e.1 ∧ e.2 ∈ slots self) as HD.
  { apply (Hent (fun a v => id v.2 = a ∧ v ∈ slots self)).
    intros e He. apply list_elem_of_fmap in He as (prior & -> & Hprior). done. }
  assert ((fun prior : string * Prior => id prior.2) <$> values (dict_of_list L)
          ≡ₚ keys_of id (dict_of_list L)) as Hperm.
  { unfold values, iteritems. rewrite dict_order_perm.
    unfold keys_of. rewrite <- list_fmap_compose.
    match goal with
    | |- ?g <$> ?l ≡ₚ ?g' <$> _ => assert (g <$> l = g' <$> l) as ->; [|done]
    end.
    apply Forall_fmap_ext, Forall_forall.
    intros e He. simpl. by destruct (HD e He). }
  split_and!.
  - by rewrite Hperm.
  - intros i. rewrite Hperm, Hmem. unfold keys_of, L.
    rewrite <- list_fmap_compose, list_elem_of_fmap. split.
    + intros ([n p] & -> & Hin). exists n, p. by rewrite <- elem_of_slots.
    + intros (n & p & Hown & <-). exists (n, p). by rewrite elem_of_slots.
  - intros n p Hin. apply elem_of_slots.
    unfold values in Hin. apply list_elem_of_fmap in Hin as (e & -> & He).
    rewrite elem_of_iteritems in He. by destruct (HD e He).
Qed.

Lemma priors_spec self :
  StronglySorted lt (prior_ids self)
  ∧ (∀ i, i ∈ prior_ids self ↔ ∃ n p, owns self n p ∧ id p = i)
  ∧ (∀ n p, (n, p) ∈ priors self → owns self n p).
Proof.
  destruct (prior_set_spec self) as (Hnd & Hmem & Hown).
  unfold prior_ids, priors. split_and!.
  - apply strictly_sorted; [apply sorted_keys_le|]. by rewrite sorted_perm.
  - intros i. by rewrite sorted_perm.
  - intros n p. rewrite sorted_perm. apply Hown.
Qed.
End ownership.

(** C1.  [priors] returns, for every id of a Prior that some prior model
    of the mapper holds, exactly one entry whose Prior is such a Prior; the
    entries come in strictly ascending order of id.  The ids returned are
    the same for every order in which the interpreter enumerates
    dictionaries, so two calls on an unmodified mapper give the same
    sequence of ids. *)
Theorem priors_sorted_unique_stable (O : DictOrder) {parser : Type} (self : ClassMap parser) :
  StronglySorted lt (prior_ids self)
  ∧ (∀ i, i ∈ prior_ids self ↔ ∃ n p, owns self n p ∧ id p = i)
  ∧ (∀ n p, (n, p) ∈ priors self → owns self n p)
  ∧ (∀ O' : DictOrder, prior_ids (H := O') self = prior_ids (H := O) self).
Proof.
  destruct (priors_spec self) as (Hsorted & Hmem & Hown).
  split_and!; [done..|]. intros O'.
  destruct (priors_spec (H := O') self) as (Hsorted' & Hmem' & _).
  apply strictly_sorted_unique; [done..|].
  intros i. by rewrite Hmem, Hmem'.
Qed.

(** *** Tying attributes of one prior model to Priors of another *)

Section tying.
Context `{DictOrder} `{Prior.ConfigParser parser}.
Implicit Types (self : ClassMap parser) (pm : PriorModel) (tp : TuplePrior) (p : Prior).

(** Several ties in a row: [collection.a.n = collection.b.m] for each
    pair [(n, m)]. *)
Definition tie_all self (a b : string) (ties : list (string * string))
    : result (ClassMap parser) :=
  foldl (fun r t => self ← r; tie self a t.1 b t.2) (Ok self) ties.

(** The Priors of a prior model and of a mapper, read off the
    dictionaries as they are kept. *)
Definition entry_priors (e : string * pm_value) : list (string * Prior) :=
  match e.2 with
  | PMPrior p => [(e.1, p)]
  | PMTuple tp => omap (fun t => match t.2 with TPPrior p => Some (t.1, p) | _ => None end) tp
  | _ => []
  end.

Definition kept_priors pm : list (string * Prior) := flat_map entry_priors pm.

Definition kept_slots self : list (string * Prior) :=
  flat_map (fun e => match e.2 with CMModel pm => kept_priors pm | _ => [] end) self.

Definition ids (l : list (string * Prior)) : list nat := (fun e => id e.2) <$> l.

Lemma flat_map_perm_ext {A B} (f g : A → list B) (l : list A) :
  (∀ x, f x ≡ₚ g x) → flat_map f l ≡ₚ flat_map g l.
Proof. intros Hfg. induction l as [|x l IH]; simpl; [done|]. by rewrite Hfg, IH. Qed.

Lemma TuplePrior_priors_perm tp :
  TuplePrior_priors tp
  ≡ₚ omap (fun t => match t.2 with TPPrior p => Some (t.1, p) | _ => None end) tp.
Proof. unfold TuplePrior_priors, iteritems. by rewrite dict_order_perm. Qed.

Lemma PriorModel_priors_perm pm : PriorModel_priors pm ≡ₚ kept_priors pm.
Proof.
  unfold PriorModel_priors, PriorModel_direct_priors, PriorModel_tuple_priors, iteritems.
  rewrite (flat_map_perm_ext _ _ _ (fun t => TuplePrior_priors_perm t.2)).
  rewrite !dict_order_perm. unfold kept_priors.
  induction pm as [|[n v] pm IH]; simpl; [done|].
  destruct v as [c|p|tp|]; simpl; unfold entry_priors at 1; simpl.
  - exact IH.
  - by rewrite IH.
  - rewrite <- IH. rewrite !app_assoc. apply Permutation_app_tail, Permutation_app_comm.
  - exact IH.
Qed.

Lemma slots_perm self : slots self ≡ₚ kept_slots self.
Proof.
  unfold slots, prior_models, iteritems. rewrite dict_order_perm.
  rewrite (flat_map_perm_ext _ _ _ (fun t => PriorModel_priors_perm t.2)).
  unfold kept_slots. induction self as [|[n v] self IH]; simpl; [done|].
  destruct v; simpl; [done|]. by rewrite IH.
Qed.

Lemma kept_slots_cons name pm rest :
  kept_slots ((name, CMModel pm) :: rest) = kept_priors pm ++ kept_slots rest.
Proof. done. Qed.

Lemma kept_priors_app pm1 pm2 : kept_priors (pm1 ++ pm2) = kept_priors pm1 ++ kept_priors pm2.
Proof. unfold kept_priors. apply flat_map_app. Qed.

Lemma elem_of_kept_slots self name pm e :
  (name, CMModel pm) ∈ self → e ∈ kept_priors pm → e ∈ kept_slots self.
Proof.
  intros Hpm He. unfold kept_slots. apply elem_of_flat_map.
  by exists (name, CMModel pm).
Qed.

Lemma elem_of_kept_priors pm n p : (n, PMPrior p) ∈ pm → (n, p) ∈ kept_priors pm.
Proof.
  intros Hin. unfold kept_priors. apply elem_of_flat_map.
  exists (n, PMPrior p). split; [done|]. unfold entry_priors. simpl. left.
Qed.

(** The entries that several assignments put in place of old ones. *)
Definition retarget pm (targets : list (string * pm_value)) : PriorModel :=
  foldl (fun pm t => dict_set pm t.1 t.2) pm targets.

Lemma retarget_keys pm targets :
  (∀ t, t ∈ targets → t.1 ∈ pm.*1) → (retarget pm targets).*1 = pm.*1.
Proof.
  revert pm. induction targets as [|t targets IH]; intros pm Hin; simpl; [done|].
  rewrite IH.
  - apply dict_set_keys, Hin. left.
  - intros t' Ht'. rewrite dict_set_keys; [|apply Hin; left]. apply Hin. by right.
Qed.

Lemma retarget_snoc pm targets t :
  retarget pm (targets ++ [t]) = dict_set (retarget pm targets) t.1 t.2.
Proof. unfold retarget. by rewrite foldl_app. Qed.

Lemma retarget_split pm targets :
  NoDup pm.*1 → NoDup targets.*1 →
  (∀ t, t ∈ targets → ∃ p, (t.1, PMPrior p) ∈ pm) →
  ∃ olds rest,
    pm ≡ₚ olds ++ rest
    ∧ retarget pm targets ≡ₚ targets ++ rest
    ∧ olds.*1 = targets.*1
    ∧ Forall (fun o => ∃ p, o.2 = PMPrior p) olds.
Proof.
  intros Hpm. induction targets as [|t targets IH] using rev_ind; intros Hnd Hold.
  - exists [], pm. split_and!; try done.
  - rewrite fmap_app in Hnd. apply NoDup_app in Hnd as (Hnd & Hfresh & _).
    destruct IH as (olds & rest & Hsplit & Hre & Hkeys & Holds); [done| |].
    { intros t' Ht'. apply Hold. apply elem_of_app. by left. }
    destruct (Hold t) as [p Hp]; [apply elem_of_app; right; left|].
    assert (t.1 ∉ targets.*1) as Ht.
    { intros Hin. apply (Hfresh _ Hin). left. }
    assert ((t.1, PMPrior p) ∈ rest) as Hrest.
    { rewrite Hsplit in Hp. apply elem_of_app in Hp as [Hp|Hp]; [|done].
      exfalso. apply Ht. rewrite <- Hkeys.
      apply (list_elem_of_fmap_2 fst _ _ Hp). }
    apply list_elem_of_split in Hrest as (r1 & r2 & ->).
    assert (NoDup (retarget pm targets).*1) as Hnd'.
    { rewrite retarget_keys; [done|]. intros t' Ht'.
      destruct (Hold t') as [p' Hp']; [apply elem_of_app; by left|].
      apply (list_elem_of_fmap_2 fst _ _ Hp'). }
    destruct (dict_set_split (retarget pm targets) t.1 (PMPrior p) Hnd')
      as (rest' & Hperm' & _ & Hset).
    { rewrite Hre. apply elem_of_app. right. apply elem_of_app. right. left. }
    exists (olds ++ [(t.1, PMPrior p)]), (r1 ++ r2). split_and!.
    + rewrite Hsplit. rewrite <- !app_assoc. apply Permutation_app_head.
      simpl. by rewrite Permutation_middle.
    + rewrite retarget_snoc, (Hset t.2).
      assert (rest' ≡ₚ targets ++ r1 ++ r2) as ->.
      { apply (Permutation_cons_inv (a := (t.1, PMPrior p))).
        rewrite <- Hperm', Hre. rewrite !Permutation_middle. done. }
      rewrite <- !app_assoc. simpl. destruct t. simpl.
      by rewrite <- Permutation_middle.
    + rewrite !fmap_app. simpl. by rewrite Hkeys.
    + apply Forall_app. split; [done|]. repeat constructor. by exists p.
Qed.

(** What the ties assign: the value of [m] in [b], under the name [n]. *)
Definition targets pm (ties : list (string * string)) : list (string * pm_value) :=
  omap (fun t => v ← dict_get pm t.2; Some (t.1, v)) ties.

Lemma tie_all_eq self a b A B ties :
  a ≠ b →
  dict_get self a = Some (CMModel A) → dict_get self b = Some (CMModel B) →
  Forall (fun t => is_Some (dict_get B t.2)) ties →
  tie_all self a b ties = Ok (dict_set self a (CMModel (retarget A (targets B ties)))).
Proof.
  intros Hab Ha Hb Hties. unfold tie_all. revert self A Ha Hb.
  induction Hties as [|t ties [v Hv] _ IH]; intros self A Ha Hb; simpl.
  - f_equal. clear -Ha. induction self as [|[k0 v0] self IH]; simpl in *; [done|].
    destruct (String.eqb k0 a) eqn:Hk; [by simplify_eq|]. f_equal. by apply IH.
  - unfold tie at 2, get_model_attribute, set_model_attribute.
    rewrite Hb, Hv, Ha. simpl.
    rewrite (IH _ (dict_set A t.1 v)).
    + by rewrite dict_set_set.
    + rewrite dict_get_set. by rewrite String.eqb_refl.
    + rewrite dict_get_set. destruct (String.eqb a b) eqn:Heq; [|done].
      apply String.eqb_eq in Heq. congruence.
Qed.

Lemma targets_priors B ties :
  Forall (fun t => ∃ q, dict_get B t.2 = Some (PMPrior q)) ties →
  (targets B ties).*1 = ties.*1
  ∧ length (kept_priors (targets B ties)) = length ties
  ∧ ∀ i, i ∈ ids (kept_priors (targets B ties)) → i ∈ ids (kept_priors B).
Proof.
  induction 1 as [|t ties [q Hq] _ (IH1 & IH2 & IH3)]; simpl.
  - split_and!; try done. intros i Hi. by apply elem_of_nil in Hi.
  - unfold targets. simpl. rewrite Hq. simpl. fold (targets B ties).
    split_and!.
    + by f_equal.
    + by f_equal.
    + intros i Hi. apply elem_of_cons in Hi as [->|Hi]; [|by apply IH3].
      apply dict_get_elem_of, elem_of_kept_priors in Hq.
      apply (list_elem_of_fmap_2 (fun e : string * Prior => id e.2) _ _ Hq).
Qed.

Lemma olds_priors (olds : PriorModel) :
  Forall (fun o => ∃ p, o.2 = PMPrior p) olds → length (kept_priors olds) = length olds.
Proof.
  induction 1 as [|[n v] olds [p Hp] _ IH]; simpl in *; [done|].
  subst v. unfold entry_priors at 1. simpl. by f_equal.
Qed.

Lemma retarget_get pm (ts : list (string * pm_value)) n v :
  NoDup ts.*1 → (n, v) ∈ ts → dict_get (retarget pm ts) n = Some v.
Proof.
  induction ts as [|t ts IH] using rev_ind; intros Hnd Hin.
  - by apply elem_of_nil in Hin.
  - rewrite retarget_snoc, dict_get_set.
    rewrite fmap_app in Hnd. apply NoDup_app in Hnd as (Hnd & Hfresh & _).
    apply elem_of_app in Hin as [Hin|Hin].
    + destruct (String.eqb t.1 n) eqn:Heq; [|by apply IH].
      apply String.eqb_eq in Heq. exfalso. apply (Hfresh n).
      * apply (list_elem_of_fmap_2 fst _ _ Hin).
      * rewrite <- Heq. left.
    + apply list_elem_of_singleton in Hin as <-. simpl. by rewrite String.eqb_refl.
Qed.

Lemma prior_ids_slots self i : i ∈ prior_ids self ↔ i ∈ ids (slots self).
Proof.
  destruct (priors_spec self) as (_ & Hmem & _). rewrite Hmem. unfold ids.
  rewrite list_elem_of_fmap. split.
  - intros (n & p & Hown & <-). exists (n, p). by rewrite elem_of_slots.
  - intros ([n p] & -> & Hin). exists n, p. by rewrite <- elem_of_slots.
Qed.

(** C4.  Take a mapper in which no Prior is shared yet, two of its prior
  models [a] and [b], and ties [a.n = b.m] that reassign distinct
  attributes of [a] holding a Prior to attributes of [b] holding a Prior.
  After the ties the mapper still has as many places holding a Prior (the
  naive total) but [priors] has that number minus the number of ties:
  every tied attribute of [a] now holds the very Prior of [b], and that
  Prior occurs once in [priors]. *)
Theorem tying_removes_one_prior_per_tie self (a b : string) (A B : PriorModel)
  (ties : list (string * string)) :
a ≠ b →
NoDup self.*1 → NoDup A.*1 →
dict_get self a = Some (CMModel A) →
dict_get self b = Some (CMModel B) →
NoDup (ids (slots self)) →
NoDup ties.*1 →
Forall (fun t => (∃ p, dict_get A t.1 = Some (PMPrior p))
                 ∧ (∃ q, dict_get B t.2 = Some (PMPrior q))) ties →
∃ self',
  tie_all self a b ties = Ok self'
  ∧ length (slots self') = length (slots self)
  ∧ length (priors self') = length (slots self) - length ties
  ∧ NoDup (prior_ids self')
  ∧ Forall (fun t => ∃ q, get_model_attribute self' a t.1 = Ok (PMPrior q)
                          ∧ get_model_attribute self' b t.2 = Ok (PMPrior q)
                          ∧ id q ∈ prior_ids self') ties.
Proof.
intros Hab Hself HA Ha Hb Hnaive Hties Hall.
assert (Forall (fun t => ∃ q, dict_get B t.2 = Some (PMPrior q)) ties) as HB.
{ eapply Forall_impl; [exact Hall|]. by intros t [_ ?]. }
destruct (targets_priors B ties HB) as (HTkeys & HTlen & HTids).
set (T := targets B ties) in *.
set (self' := dict_set self a (CMModel (retarget A T))).
assert (tie_all self a b ties = Ok self') as Htie.
{ apply tie_all_eq; try done. eapply Forall_impl; [exact HB|].
  intros t [q ->]. by eexists. }
assert (∀ t, t ∈ T → ∃ p, (t.1, PMPrior p) ∈ A) as Hold.
{ intros t Ht. apply list_elem_of_omap in Ht as (tie & Htie' & Hv).
  rewrite Forall_forall in Hall. destruct (Hall tie Htie') as [[p Hp] [q Hq]].
  rewrite Hq in Hv. simpl in Hv. injection Hv as <-. exists p.
  by apply dict_get_elem_of. }
destruct (retarget_split A T HA) as (olds & rest & HsplitA & HsplitA' & Holdkeys & Holds);
  [by rewrite HTkeys|done|].
destruct (dict_set_split self a (CMModel A) Hself (dict_get_elem_of _ _ _ Ha))
  as (restS & HsplitS & _ & HsplitS').
specialize (HsplitS' (CMModel (retarget A T))). fold self' in HsplitS'.
assert ((b, CMModel B) ∈ restS) as HbS.
{ apply dict_get_elem_of in Hb. rewrite HsplitS in Hb.
  apply elem_of_cons in Hb as [[= ? _]|Hb]; [congruence|done]. }
set (R := kept_priors rest ++ kept_slots restS).
assert (slots self ≡ₚ kept_priors olds ++ R) as Hslots.
{ rewrite slots_perm. unfold kept_slots at 1. rewrite HsplitS. fold (kept_slots restS).
  simpl. unfold kept_priors at 1. rewrite HsplitA. fold (kept_priors (olds ++ rest)).
  rewrite kept_priors_app. unfold R. by rewrite <- app_assoc. }
assert (slots self' ≡ₚ kept_priors T ++ R) as Hslots'.
{ rewrite slots_perm. unfold kept_slots at 1. rewrite HsplitS'. fold (kept_slots restS).
  simpl. unfold kept_priors at 1. rewrite HsplitA'. fold (kept_priors (T ++ rest)).
  rewrite kept_priors_app. unfold R. by rewrite <- app_assoc. }
assert (length (kept_priors olds) = length ties) as Holdlen.
{ rewrite olds_priors by done.
  rewrite <- (length_fmap fst olds), Holdkeys, HTkeys. apply length_fmap. }
assert (NoDup (ids R)) as HndR.
{ unfold ids in Hnaive. rewrite Hslots, fmap_app in Hnaive.
  by apply NoDup_app in Hnaive as (_ & _ & ?). }
assert (∀ i, i ∈ ids (kept_priors T) → i ∈ ids R) as HTR.
{ intros i Hi. apply HTids in Hi. unfold ids in *.
  apply list_elem_of_fmap in Hi as (e & -> & He).
  apply list_elem_of_fmap. exists e. split; [done|].
  unfold R. apply elem_of_app. right. by eapply elem_of_kept_slots. }
assert (∀ i, i ∈ prior_ids self' ↔ i ∈ ids R) as Hmem.
{ intros i. rewrite prior_ids_slots. unfold ids at 1. rewrite Hslots', fmap_app.
  rewrite elem_of_app. split; [intros [?|?]; auto|by right]. }
assert (NoDup (prior_ids self')) as Hnd'.
{ apply strictly_sorted_NoDup. by destruct (priors_spec self'). }
exists self'. split_and!.
- done.
- rewrite Hslots, Hslots', !length_app. lia.
- rewrite <- (length_fmap (fun prior : string * Prior => id prior.2) (priors self')).
  fold (prior_ids self'). rewrite (NoDup_Permutation _ _ Hnd' HndR Hmem).
  unfold ids. rewrite length_fmap, Hslots, length_app. lia.
- done.
- rewrite Forall_forall. intros t Ht.
  rewrite Forall_forall in Hall. destruct (Hall t Ht) as [[p Hp] [q Hq]].
  exists q. unfold get_model_attribute, self'. rewrite !dict_get_set.
  rewrite String.eqb_refl.
  destruct (String.eqb a b) eqn:Heq; [apply String.eqb_eq in Heq; congruence|].
  rewrite Hb, Hq. rewrite (retarget_get A T t.1 (PMPrior q)).
  + split_and!; try done. apply Hmem, HTR.
    assert ((t.1, PMPrior q) ∈ T) as HtT.
    { apply list_elem_of_omap. exists t. split; [done|]. by rewrite Hq. }
    apply elem_of_kept_priors in HtT.
    apply (list_elem_of_fmap_2 (fun e : string * Prior => id e.2) _ _ HtT).
  + by rewrite HTkeys.
  + apply list_elem_of_omap. exists t. split; [done|]. by rewrite Hq.
Qed.

End tying.

(** *** Reconstruction from a vector of the wrong length *)

Lemma map2_padded_mismatch {A B C} (f : option A → option B → result C)
    (P : exn → Prop) (xs : list A) (ys : list B) :
  (∀ y, ∃ e, f None y = Raise e ∧ P e) →
  (∀ x, ∃ e, f (Some x) None = Raise e ∧ P e) →
  (∀ x y e, f (Some x) (Some y) = Raise e → P e) →
  length xs ≠ length ys →
  ∃ e, map2_padded f xs ys = Raise e ∧ P e.
Proof.
  intros Hnone Hpad Hboth. revert ys.
  induction xs as [|x xs IH]; intros [|y ys] Hlen; simpl in *; try done.
  - destruct (Hnone (Some y)) as (e & -> & He). by exists e.
  - destruct (Hpad x) as (e & -> & He). by exists e.
  - destruct (f (Some x) (Some y)) as [c|e] eqn:Hf; simpl.
    + destruct (IH ys) as (e & -> & He); [lia|]. by exists e.
    + exists e. split; [done|]. by eapply Hboth.
Qed.

Section reconstruction.
Context `{DictOrder} `{Prior.ConfigParser parser}.
Variable erfinv : R → R.

(** C2.  When the vector and [priors] differ in length,
  [reconstruction_for_vector] raises, and it does so while building the
  dictionary of arguments: the [Reconstruction] object is never created,
  so none of its attributes is set.  The exception is the [TypeError]
  of an operation on the [None] that [map] pads the shorter list with
  (or the [AttributeError] of a base-class Prior met before it). *)
Theorem reconstruction_for_vector_length_mismatch (self : ClassMap parser)
  (vector : list R) :
length vector ≠ length (priors self) →
∃ e, reconstruction_for_vector erfinv self vector = (None, Raise e)
     ∧ (e = TypeError ∨ e = AttributeError).
Proof.
intros Hlen. unfold reconstruction_for_vector, arguments_for_vector.
destruct (map2_padded_mismatch
  (fun (prior : option (string * Prior)) (unit : option R) =>
     match prior with
     | None => Raise TypeError
     | Some prior => v ← value_for erfinv prior.2 unit; Ok (prior.2, v)
     end)
  (fun e => e = TypeError ∨ e = AttributeError) (priors self) vector)
  as (e & -> & He).
- intros y. exists TypeError. auto.
- intros [n [i d]]. unfold value_for. simpl.
  destruct d; simpl; eauto.
- intros [n [i d]] y e. unfold value_for. simpl.
  destruct d; simpl; intros [= <-]; auto.
- done.
- by exists e.
Qed.

End reconstruction.

(** A mapper with one uniform prior, and the empty vector. *)
Lemma reconstruction_for_vector_length_mismatch_witness :
  let self : ClassMap (list string) :=
    [("profile", CMModel [("intensity", PMPrior {| id := 0; dist := UniformPrior 0 5 |})])] in
  length (@nil R) ≠ length (priors (H := Interp.cpython27) self)
  ∧ ∃ e, reconstruction_for_vector (H := Interp.cpython27) Interp.erfinv_stub self []
         = (None, Raise e)
         ∧ (e = TypeError ∨ e = AttributeError).
Proof.
  assert (length (@nil R)
          ≠ length (priors (H := Interp.cpython27) (parser := list string)
              [("profile", CMModel [("intensity", PMPrior {| id := 0; dist := UniformPrior 0 5 |})])]))
    as Hlen by (vm_compute; discriminate).
  split; [exact Hlen|].
  exact (reconstruction_for_vector_length_mismatch Interp.erfinv_stub _ [] Hlen).
Defined.

(** *** The nearest ancestor with a config entry *)

Section nearest_ancestor.
Context `{DictOrder} `{Prior.ConfigParser parser}.
Variable float : string → result R.

(** A class is an ancestor of [cls] when it is [cls], or an ancestor of a base of [cls]. *)
Inductive ancestor : pyclass → pyclass → Prop :=
  | ancestor_self cls : ancestor cls cls
  | ancestor_base c base cls : base ∈ cls_bases cls → ancestor c base → ancestor c cls.

(** The config after [has] was asked about each class of [visited]. *)
Definition config_after (config : Config parser) (visited : list pyclass)
    : Config parser :=
  foldl (fun config c => (Config_read (cls_module c) config).1) config visited.

(** What [has] answers for [c] once the classes of [visited] were asked about. *)
Definition has_after (config : Config parser) (visited : list pyclass) (c : pyclass)
    (attribute_name : string) : bool :=
  parser_has_option (cfg_parser (config_after config (visited ++ [c])))
    (cls_name c) attribute_name.

Lemma Config_has_eq module_name class_name attribute_name config :
  Config_has module_name class_name attribute_name config
  = ((Config_read module_name config).1,
     Ok (parser_has_option (cfg_parser (Config_read module_name config).1)
           class_name attribute_name)).
Proof. reflexivity. Qed.

Lemma has_after_nil config c attribute_name :
  has_after config [] c attribute_name
  = parser_has_option (cfg_parser (Config_read (cls_module c) config).1)
      (cls_name c) attribute_name.
Proof. reflexivity. Qed.

Lemma has_after_cons config c0 visited c attribute_name :
  has_after config (c0 :: visited) c attribute_name
  = has_after (Config_read (cls_module c0) config).1 visited c attribute_name.
Proof. reflexivity. Qed.

Lemma nearest_in_cons cls attribute_name c0 todo config :
  nearest_in float cls attribute_name (c0 :: todo) config
  = if has_after config [] c0 attribute_name
    then Config_get float (cls_module c0) (cls_name c0) attribute_name
           (Config_read (cls_module c0) config).1
    else nearest_in float cls attribute_name todo (Config_read (cls_module c0) config).1.
Proof.
  rewrite has_after_nil. simpl. unfold sbind at 1. rewrite Config_has_eq.
  by destruct (parser_has_option _ _ _).
Qed.

Lemma nearest_in_found cls attribute_name pre c post config :
  (∀ pre1 c' pre2, pre = pre1 ++ c' :: pre2 →
     has_after config pre1 c' attribute_name = false) →
  has_after config pre c attribute_name = true →
  nearest_in float cls attribute_name (pre ++ c :: post) config
  = Config_get float (cls_module c) (cls_name c) attribute_name
      (config_after config (pre ++ [c])).
Proof.
  revert config. induction pre as [|c0 pre IH]; intros config Hpre Hc.
  - simpl app. rewrite nearest_in_cons, Hc. done.
  - change ((c0 :: pre) ++ c :: post) with (c0 :: (pre ++ c :: post)).
    rewrite nearest_in_cons, (Hpre [] c0 pre eq_refl).
    rewrite has_after_cons in Hc. rewrite (IH _); [done| |done].
    intros pre1 c' pre2 ->. apply (Hpre (c0 :: pre1) c' pre2 eq_refl).
Qed.

Lemma nearest_in_missing cls attribute_name todo config :
  (∀ pre c post, todo = pre ++ c :: post →
     has_after config pre c attribute_name = false) →
  nearest_in float cls attribute_name todo config
  = (config_after config todo,
     Raise (PriorException (missing_prior_message cls attribute_name))).
Proof.
  revert config. induction todo as [|c0 todo IH]; intros config Hall; [done|].
  rewrite nearest_in_cons, (Hall [] c0 todo eq_refl). rewrite IH; [done|].
  intros pre c post ->. apply (Hall (c0 :: pre) c post eq_refl).
Qed.

Lemma pyclass_bases_ind (P : pyclass → Prop) :
  (∀ m n bases args defaults, Forall P bases → P (PyClass m n bases args defaults)) →
  ∀ cls, P cls.
Proof.
  intros Hstep. fix IH 1. intros [m n bases args defaults]. apply Hstep.
  induction bases as [|b bases IHb]; constructor; [apply IH|exact IHb].
Qed.

Lemma elem_of_family c cls : c ∈ family cls ↔ ancestor c cls.
Proof.
  split.
  - revert c. induction cls as [m n bases args defaults IH] using pyclass_bases_ind.
    intros c Hin. simpl in Hin. apply elem_of_cons in Hin as [->|Hin]; [constructor|].
    apply elem_of_flat_map in Hin as (base & Hbase & Hc).
    apply ancestor_base with base; [done|].
    rewrite Forall_forall in IH. by apply IH.
  - induction 1 as [cls|c base cls Hbase _ IH].
    + destruct cls. simpl. left.
    + destruct cls as [m n bases args defaults]. simpl in *. right.
      apply elem_of_flat_map. by exists base.
Qed.

(** X17.  [get_for_nearest_ancestor] goes through [family cls]: the class
  itself, then for each base in turn the base followed by its own
  ancestors (depth first), every ancestor being visited.  Before it asks
  about a class it reads the file of the module of that class into the
  one parser of the config.  The first class for whose name the parser
  then has a section with the attribute stops the search: its module's
  file is read once more and the result is the option found under the
  name of that class, without its blanks, cut at the commas, the pieces
  after the first one converted by [float].  When no class visited has
  one, the call raises a [PriorException] whose message names the module
  and name of [cls] and the attribute. *)
Theorem get_for_nearest_ancestor_depth_first (cls : pyclass) (attribute_name : string)
  (config : Config parser) :
family cls = cls :: flat_map family (cls_bases cls)
∧ (∀ c, c ∈ family cls ↔ ancestor c cls)
∧ (∀ pre c post,
     family cls = pre ++ c :: post →
     (∀ pre1 c' pre2, pre = pre1 ++ c' :: pre2 →
        has_after config pre1 c' attribute_name = false) →
     has_after config pre c attribute_name = true →
     get_for_nearest_ancestor float cls attribute_name config
     = ((Config_read (cls_module c) (config_after config (pre ++ [c]))).1,
        raw ← parser_get
                 (cfg_parser (Config_read (cls_module c) (config_after config (pre ++ [c]))).1)
                 (cls_name c) attribute_name;
        xs ← mapR float (tail (split "," (remove_char " " raw)));
        Ok (List.hd "" (split "," (remove_char " " raw)), xs)))
∧ ((∀ pre c post, family cls = pre ++ c :: post →
      has_after config pre c attribute_name = false) →
   get_for_nearest_ancestor float cls attribute_name config
   = (config_after config (family cls),
      Raise (PriorException
        ("The prior config for " +:+ cls_module cls +:+ "." +:+ cls_name cls
         +:+ " and the prior configs of its parents do no contain " +:+ attribute_name)))).
Proof.
split_and!.
- by destruct cls.
- intros c. apply elem_of_family.
- intros pre c post Hfam Hpre Hc. unfold get_for_nearest_ancestor.
  rewrite Hfam. by rewrite nearest_in_found.
- intros Hall. unfold get_for_nearest_ancestor. by apply nearest_in_missing.
Qed.

End nearest_ancestor.

Section uniform.
Variable erfinv : R → R.

(** X18.  A uniform prior maps [unit] to
  [lower + unit * (upper - lower)].  In exact arithmetic this is what
  [value_for] returns on a [UniformPrior] object, it is the lower limit
  at 0 and the upper limit at 1, and it does not decrease when [unit]
  grows, provided [lower <= upper].  On floats the value at 0 still
  compares equal to the lower limit whenever [upper - lower] is finite. *)
Theorem uniform_value_for_linear (i : nat) (lo hi : R) (flo fhi : PrimFloat.float) :
(∀ unit : R,
    value_for erfinv {| id := i; dist := UniformPrior lo hi |} (Some unit)
    = Ok (lo + unit * (hi - lo))%R)
∧ UniformPrior_value_for lo hi 0%R = lo
∧ UniformPrior_value_for lo hi 1%R = hi
∧ ((lo <= hi)%R →
   ∀ unit unit' : R, (0 <= unit)%R → (unit <= unit')%R → (unit' <= 1)%R →
     (UniformPrior_value_for lo hi unit <= UniformPrior_value_for lo hi unit')%R)
∧ (PrimFloat.is_finite (PrimFloat.sub fhi flo) = true →
   PrimFloat.eqb (UniformPrior_value_for flo fhi PrimFloat.zero) flo = true).
Proof.
unfold UniformPrior_value_for. simpl. repeat split.
- lra.
- lra.
- intros Hle unit unit' _ Hunits _.
  apply Rplus_le_compat_l, Rmult_le_compat_r; lra.
- apply binary64_add_zero_mul.
Qed.

End uniform.

Lemma uniform_value_for_linear_witness :
  (0 <= 5)%R ∧ (0 <= 1 / 5)%R ∧ (1 / 5 <= 1 / 2)%R ∧ (1 / 2 <= 1)%R
  ∧ (UniformPrior_value_for 0 5 (1 / 5) <= UniformPrior_value_for 0 5 (1 / 2))%R
  ∧ PrimFloat.is_finite (PrimFloat.sub Interp.three_tenths Interp.below_zero) = true
  ∧ PrimFloat.eqb
      (UniformPrior_value_for Interp.below_zero Interp.three_tenths PrimFloat.zero)
      Interp.below_zero = true.
Proof.
  assert (0 <= 5)%R as H05 by lra.
  assert (0 <= 1 / 5)%R as H0 by lra.
  assert (1 / 5 <= 1 / 2)%R as H1 by lra.
  assert (1 / 2 <= 1)%R as H2 by lra.
  assert (PrimFloat.is_finite (PrimFloat.sub Interp.three_tenths Interp.below_zero) = true)
    as Hfinite by (vm_compute; reflexivity).
  pose proof (uniform_value_for_linear Interp.erfinv_stub 0 0 5
                Interp.below_zero Interp.three_tenths) as (_ & _ & _ & Hmono & Hzero).
  exact (conj H05 (conj H0 (conj H1 (conj H2
    (conj (Hmono H05 (1 / 5)%R (1 / 2)%R H0 H1 H2) (conj Hfinite (Hzero Hfinite))))))).
Defined.

(** C8.  On floats [value_for] leaves the limits it is documented to
  stay between.  With the limits [-0.1] and [0.3], [value_for(1.0)] is
  [0.30000000000000004]: not [==] to the upper limit, and above it.
  With the limits [-1e308] and [1e308], for which [lower <= upper],
  [upper - lower] overflows to infinity: [value_for(0.0)] is NaN, neither
  the lower limit nor [<=] [value_for(1.0)], and [value_for(0.5)] is
  infinity, above the upper limit. *)
Theorem uniform_value_for_leaves_limits :
  PrimFloat.eqb
    (UniformPrior_value_for Interp.below_zero Interp.three_tenths PrimFloat.one)
    Interp.three_tenths = false
  ∧ PrimFloat.ltb Interp.three_tenths
      (UniformPrior_value_for Interp.below_zero Interp.three_tenths PrimFloat.one) = true
  ∧ PrimFloat.leb Interp.minus_1e308 Interp.plus_1e308 = true
  ∧ PrimFloat.is_nan
      (UniformPrior_value_for Interp.minus_1e308 Interp.plus_1e308 PrimFloat.zero) = true
  ∧ PrimFloat.leb
      (UniformPrior_value_for Interp.minus_1e308 Interp.plus_1e308 PrimFloat.zero)
      (UniformPrior_value_for Interp.minus_1e308 Interp.plus_1e308 PrimFloat.one) = false
  ∧ PrimFloat.ltb Interp.plus_1e308
      (UniformPrior_value_for Interp.minus_1e308 Interp.plus_1e308 Interp.one_half) = true.
Proof. repeat split; vm_compute; reflexivity. Qed.

Section gaussian.
Variable erfinv : R → R.
(** The inverse error function is odd; nothing else about it is used. *)
Hypothesis erfinv_odd : ∀ x : R, erfinv (- x) = (- erfinv x)%R.


End gaussian.




End PriorFacts.

(** ** Properties of the pipeline *)

Module PipelineFacts.
Import Py Prior Pipeline PyFacts.

(** *** Analysis: where the roles are checked *)

Section analysis.
Context `{DictOrder}.

(** A role is in order when exactly one of the two holds: the model
    attribute of the analysis is set to a true value, the instance is
    among the keyword arguments of [run]. *)
Definition is_model (self : Analysis) (role : string * string) : bool :=
  truth (default ONone (dict_get self role.1)).

Definition is_instance (kwargs : dict string pyobj) (role : string * string) : bool :=
  dict_mem kwargs role.2.

Definition exactly_one (self : Analysis) (kwargs : dict string pyobj)
    (role : string * string) : bool :=
  xorb (is_model self role) (is_instance kwargs role).

Definition role_error (self : Analysis) (role : string * string) : exn :=
  if is_model self role
  then AssertionError (role.1 +:+ " already exists in analysis")
  else AssertionError (role.1 +:+ " is not defined so " +:+ role.2 +:+ " is required").

Lemma one_or_other_eq self kwargs role :
  one_or_other self kwargs role.1 role.2
  = if exactly_one self kwargs role then Ok () else Raise (role_error self role).
Proof.
  unfold one_or_other, exactly_one, role_error, is_model, is_instance.
  destruct (truth _), (dict_mem _ _); done.
Qed.

Lemma Analysis_run_eq self kwargs :
  Analysis_run self kwargs
  = foldr (fun role rest => _ ← one_or_other self kwargs role.1 role.2; rest)
      (Ok ()) attribute_map.
Proof.
  unfold Analysis_run, attribute_map. simpl.
  by destruct (one_or_other self kwargs "pixelization_class" "pixelization") as [[]|],
    (one_or_other self kwargs "instrumentation_class" "instrumentation") as [[]|],
    (one_or_other self kwargs "lens_galaxy_priors" "lens_galaxies") as [[]|],
    (one_or_other self kwargs "source_galaxy_priors" "source_galaxies") as [[]|].
Qed.

Lemma check_roles_ok self kwargs roles :
  foldr (fun role rest => _ ← one_or_other self kwargs role.1 role.2; rest) (Ok ()) roles
  = Ok ()
  ↔ Forall (fun role => exactly_one self kwargs role = true) roles.
Proof.
  induction roles as [|role roles IH]; simpl.
  - split; [constructor|done].
  - rewrite Forall_cons, <- IH, one_or_other_eq.
    destruct (exactly_one self kwargs role); simpl; [tauto|].
    split; [done|]. by intros [? _].
Qed.

Lemma check_roles_first self kwargs pre role post :
  Forall (fun role => exactly_one self kwargs role = true) pre →
  exactly_one self kwargs role = false →
  foldr (fun role rest => _ ← one_or_other self kwargs role.1 role.2; rest) (Ok ())
    (pre ++ role :: post)
  = Raise (role_error self role).
Proof.
  intros Hpre Hrole. induction Hpre as [|r pre Hr _ IH]; simpl.
  - by rewrite one_or_other_eq, Hrole.
  - by rewrite one_or_other_eq, Hr.
Qed.

Lemma Analysis_init_loop (self : Analysis) (items : list pyobj)
    (kwargs : list (string * pyobj)) :
  dict_get self "included_attributes" = Some (OList items) →
  (∀ v, ("included_attributes", v) ∈ kwargs → ∃ l, v = OList l) →
  ∃ self' items',
    foldl (fun self kv => self ← self; append_included (dict_set self kv.1 kv.2) kv.1)
      (Ok self) kwargs = Ok self'
    ∧ dict_get self' "included_attributes" = Some (OList items').
Proof.
  revert self items. induction kwargs as [|[k v] kwargs IH]; intros self items Hget Hkw; simpl.
  - by exists self, items.
  - unfold append_included at 2. rewrite dict_get_set.
    destruct (String.eqb k "included_attributes") eqn:Hk.
    + apply String.eqb_eq in Hk as ->.
      destruct (Hkw v) as [l ->]; [left|].
      eapply IH.
      * rewrite dict_get_set. simpl. done.
      * intros v' Hv'. apply Hkw. by right.
    + rewrite Hget. eapply IH.
      * rewrite dict_get_set. simpl. done.
      * intros v' Hv'. apply Hkw. by right.
Qed.

(** C3, as the code has it.  Constructing an [Analysis] checks no role: it
  succeeds whatever models are registered.  The check is made by [run],
  which is the call that receives the concrete instances: it succeeds
  exactly when every one of the four roles has either its model attribute
  set to a true value or its instance among the keyword arguments, and
  not both; otherwise it raises an [AssertionError] for the first role, in
  the order pixelization, instrumentation, lens, source, that is not in
  order, naming the model attribute of that role (and the instance
  argument when neither is there).  [run] touches no optimizer. *)
Theorem Analysis_roles_checked_by_run (d : defaults) (model_mapper optimizer : option nat)
  (init_kwargs : dict string pyobj) (self : Analysis) (kwargs : dict string pyobj) :
((∀ v, ("included_attributes", v) ∈ init_kwargs → ∃ l, v = OList l) →
 ∃ analysis, Analysis_init d model_mapper optimizer init_kwargs = Ok analysis)
∧ (Analysis_run self kwargs = Ok ()
   ↔ Forall (fun role => exactly_one self kwargs role = true) attribute_map)
∧ (∀ pre role post,
     attribute_map = pre ++ role :: post →
     Forall (fun role => exactly_one self kwargs role = true) pre →
     exactly_one self kwargs role = false →
     Analysis_run self kwargs = Raise (role_error self role)).
Proof.
split_and!.
- intros Hkw. unfold Analysis_init.
  edestruct (Analysis_init_loop
    [("model_mapper", OMapper (default (Analysis_model_mapper d) model_mapper));
     ("non_linear_optimizer",
      OOptimizer (default (Analysis_non_linear_optimizer d) optimizer));
     ("included_attributes", OList [])] [] (iteritems init_kwargs))
    as (self' & items' & -> & Hitems); [done| |].
  + intros v Hv. apply Hkw. by rewrite <- elem_of_iteritems.
  + simpl. rewrite Hitems. simpl. eauto.
- rewrite Analysis_run_eq. apply check_roles_ok.
- intros pre role post Hsplit Hpre Hrole. rewrite Analysis_run_eq, Hsplit.
  by apply check_roles_first.
Qed.

End analysis.

(** *** MainPipeline: the chain of stages *)

Section main_pipeline.
Context {W Image Mask Pixelization Instrumentation Galaxies : Type}.
Context {ModelStage HyperStage ModelResult HyperResult : Type}.
Variable model_run :
  ModelStage → Image → Mask → Pixelization → Instrumentation → stateful W ModelResult.
Variable hyper_run :
  HyperStage → Image → Mask → Galaxies → Galaxies → stateful W HyperResult.
Variables lens_galaxies source_galaxies : ModelResult → Galaxies.
Variable pixelization : HyperResult → Pixelization.
Variable instrumentation : HyperResult → Instrumentation.

Abbreviation run_from := (run_from model_run hyper_run lens_galaxies source_galaxies
                            pixelization instrumentation).
Abbreviation stages := (stages model_run hyper_run lens_galaxies source_galaxies
                          pixelization instrumentation).

Lemma run_from_stages self image mask todo pix instr acc_m acc_h w w' mrs hrs :
  run_from self image mask todo pix instr acc_m acc_h w = (w', Ok (mrs, hrs))
  ↔ ∃ mrs' hrs', mrs = acc_m ++ mrs' ∧ hrs = acc_h ++ hrs'
      ∧ stages (hyperparameter_analysis self) image mask w pix instr todo mrs' hrs' w'.
Proof.
  revert pix instr acc_m acc_h w mrs hrs.
  induction todo as [|ma todo IH]; intros pix instr acc_m acc_h w mrs hrs; simpl.
  - unfold sret. split.
    + intros [= <- <- <-]. exists [], []. rewrite !app_nil_r. split_and!; [done..|constructor].
    + intros (mrs' & hrs' & -> & -> & Hst). inversion Hst; subst. by rewrite !app_nil_r.
  - unfold sbind at 1.
    destruct (model_run ma image mask pix instr w) as [w1 [mr|e]] eqn:Hm.
    + unfold sbind at 1.
      destruct (hyper_run _ image mask _ _ w1) as [w2 [hr|e]] eqn:Hh.
      * rewrite IH. split.
        -- intros (mrs' & hrs' & -> & -> & Hst). exists (mr :: mrs'), (hr :: hrs').
           rewrite <- !app_assoc. split_and!; [done..|]. by econstructor.
        -- intros (mrs' & hrs' & -> & -> & Hst).
           inversion Hst as [|? w1' w2' ? ? ? ? ? mr' hr' mrs'' hrs'' Hm' Hh' Hst']; subst.
           rewrite Hm in Hm'. injection Hm' as <- <-.
           rewrite Hh in Hh'. injection Hh' as <- <-.
           exists mrs'', hrs''. by rewrite <- !app_assoc.
      * split; [done|]. intros (mrs' & hrs' & -> & -> & Hst).
        inversion Hst as [|? w1' w2' ? ? ? ? ? mr' hr' mrs'' hrs'' Hm' Hh' Hst']; subst.
        rewrite Hm in Hm'. injection Hm' as <- <-.
        rewrite Hh in Hh'. discriminate.
    + split; [done|]. intros (mrs' & hrs' & -> & -> & Hst).
      inversion Hst as [|? w1' w2' ? ? ? ? ? mr' hr' mrs'' hrs'' Hm' Hh' Hst']; subst.
      rewrite Hm in Hm'. discriminate.
Qed.

Lemma stages_length ha image mask w pix instr mas mrs hrs w' :
  stages ha image mask w pix instr mas mrs hrs w' →
  length mrs = length mas ∧ length hrs = length mas.
Proof. induction 1; simpl; [done|]. destruct_and!. by split; f_equal. Qed.

(** C7.  A run of the pipeline returns the two lists [mrs] and [hrs]
  exactly when they are the results of the chain of stages: stage by
  stage, in the order of the model analyses, the model analysis runs on
  the current pixelization and instrumentation, the hyperparameter
  analysis runs on the lens and source galaxies of that model result, and
  the pixelization and instrumentation of its result are those the next
  model analysis runs on.  Both lists then have one entry per stage. *)
Theorem MainPipeline_run_chains_stages (self : MainPipeline (ModelStage := ModelStage))
  (image : Image) (mask : Mask) (pix : Pixelization) (instr : Instrumentation)
  (w w' : W) (mrs : list ModelResult) (hrs : list HyperResult) :
(MainPipeline_run model_run hyper_run lens_galaxies source_galaxies
   pixelization instrumentation self image mask pix instr w = (w', Ok (mrs, hrs))
 ↔ stages (hyperparameter_analysis self) image mask w pix instr
     (model_analyses self) mrs hrs w')
∧ (MainPipeline_run model_run hyper_run lens_galaxies source_galaxies
     pixelization instrumentation self image mask pix instr w = (w', Ok (mrs, hrs)) →
   length mrs = length (model_analyses self)
   ∧ length hrs = length (model_analyses self)).
Proof.
unfold MainPipeline_run.
assert (run_from self image mask (model_analyses self) pix instr [] [] w
          = (w', Ok (mrs, hrs))
        ↔ stages (hyperparameter_analysis self) image mask w pix instr
            (model_analyses self) mrs hrs w') as Hiff.
{ rewrite run_from_stages. split.
  - by intros (mrs' & hrs' & -> & -> & Hst).
  - intros Hst. by exists mrs, hrs. }
split; [exact Hiff|].
intros Hrun. apply Hiff in Hrun. by eapply stages_length.
Qed.

End main_pipeline.
(** *** The default mapper and optimizer of the constructors *)

Section default_arguments.
Context `{DictOrder} `{Prior.ConfigParser parser}.
Variable float : string → result R.
Variable module_path : string.
Context {GalaxyPrior : Type}.
Variable attach_to_model_mapper : GalaxyPrior → stateful (building parser) unit.

(** Code that leaves every attribute of the mapper but [config] as it was. *)
Definition keeps_models {A} (m : stateful (building parser) A) : Prop :=
  ∀ st k, k ≠ "config" → dict_get (m st).1.1 k = dict_get st.1 k.

Lemma keeps_models_sret {A} (a : A) : keeps_models (sret a).
Proof. by intros st k _. Qed.

Lemma keeps_models_sraise {A} e : keeps_models (sraise (A := A) e).
Proof. by intros st k _. Qed.

Lemma keeps_models_sbind {A B} (m : stateful (building parser) A) (k : A → stateful (building parser) B) :
  keeps_models m → (∀ a, keeps_models (k a)) → keeps_models (sbind m k).
Proof.
  intros Hm Hk st x Hx. unfold sbind. specialize (Hm st x Hx).
  destruct (m st) as [st' [a|e]]; simpl in *; [|done].
  by rewrite (Hk a st' x Hx).
Qed.

Lemma keeps_models_new_prior dist : keeps_models (new_prior dist).
Proof. by intros [self n] k _. Qed.

Lemma keeps_models_config_lookup attribute_name cls :
  keeps_models (config_lookup float attribute_name cls).
Proof.
  intros [self n] k Hk. unfold config_lookup.
  destruct (dict_get self "config") as [[config|]|]; try done.
  destruct (get_for_nearest_ancestor _ _ _ _) as [config' r]. simpl.
  rewrite dict_get_set. destruct (String.eqb "config" k) eqn:Heq; [|done].
  apply String.eqb_eq in Heq. congruence.
Qed.

Lemma keeps_models_make_prior attribute_name cls :
  keeps_models (make_prior float attribute_name cls).
Proof.
  unfold make_prior. apply keeps_models_sbind; [apply keeps_models_config_lookup|].
  intros [tag [|a [|b xs]]]; simpl; repeat case_match;
    repeat first [ apply keeps_models_sraise | apply keeps_models_sret
                 | apply keeps_models_sbind; [apply keeps_models_new_prior|intros ?] ].
Qed.

Lemma keeps_models_tuple_prior_for arg cls indices tuple_prior :
  keeps_models (tuple_prior_for float arg cls indices tuple_prior).
Proof.
  revert tuple_prior. induction indices as [|i indices IH]; intros tuple_prior; simpl.
  - apply keeps_models_sret.
  - apply keeps_models_sbind; [apply keeps_models_make_prior|]. intros p. apply IH.
Qed.

Lemma keeps_models_prior_model_for cls defaults args prior_model :
  keeps_models (prior_model_for float cls defaults args prior_model).
Proof.
  revert prior_model. induction args as [|arg args IH]; intros prior_model; simpl.
  - apply keeps_models_sret.
  - apply keeps_models_sbind; [|intros v; apply IH].
    destruct (dict_get defaults arg) as [[x|xs|]|];
      (apply keeps_models_sbind;
       [first [apply keeps_models_make_prior | apply keeps_models_tuple_prior_for]
       |intros ?; apply keeps_models_sret]).
Qed.

(** The prior model is one that [add_class] builds for the class. *)
Definition built_for (cls : pyclass) (prior_model : PriorModel) : Prop :=
  ∃ st st', prior_model_for float cls (arg_defaults cls) (tail (cls_args cls))
              (PriorModel_init cls) st = (st', Ok prior_model).

Lemma add_class_ok name cls st st' :
  add_class float name cls st = (st', Ok ()) →
  ∃ prior_model, built_for cls prior_model
    ∧ dict_get st'.1 name = Some (CMModel prior_model)
    ∧ ∀ k, k ≠ name → k ≠ "config" → dict_get st'.1 k = dict_get st.1 k.
Proof.
  unfold add_class, sbind.
  pose proof (keeps_models_prior_model_for cls (arg_defaults cls) (tail (cls_args cls))
                (PriorModel_init cls) st) as Hkeep.
  destruct (prior_model_for _ _ _ _ _ st) as [[self n] [pm|e]] eqn:Hpm; [|done].
  intros [= <-]. exists pm. split_and!.
  - by exists st, (self, n).
  - simpl. rewrite dict_get_set. by rewrite String.eqb_refl.
  - intros k Hname Hconfig. simpl. rewrite dict_get_set.
    destruct (String.eqb name k) eqn:Heq.
    + apply String.eqb_eq in Heq. congruence.
    + by apply Hkeep.
Qed.

Lemma at_mapper_ok {A} address (m : stateful (building parser) A) w w' a :
  at_mapper address m w = (w', Ok a) →
  ∃ mapper mapper' n',
    mappers w !! address = Some mapper
    ∧ m (mapper, prior_number w) = ((mapper', n'), Ok a)
    ∧ w' = {| mappers := <[address := mapper']> (mappers w);
              optimizers := optimizers w;
              prior_number := n' |}.
Proof.
  unfold at_mapper. destruct (mappers w !! address) as [mapper|] eqn:Hm; [|done].
  destruct (m (mapper, prior_number w)) as [[mapper' n'] r] eqn:Hrun.
  intros [= <- ->]. by exists mapper, mapper', n'.
Qed.

Lemma iteritems_nil {K V} `{PyKey K} : iteritems ([] : dict K V) = [].
Proof. apply Permutation_nil. symmetry. apply dict_order_perm. Qed.

Lemma ModelMapper_new_eq w :
  ModelMapper_new float module_path w
  = ({| mappers := mappers w ++ [[("config", CMConfig (Config_init (module_path +:+ "/config")))]];
        optimizers := optimizers w;
        prior_number := prior_number w |}, Ok (length (mappers w))).
Proof.
  unfold ModelMapper_new, ClassMap_init. rewrite iteritems_nil. reflexivity.
Qed.

Lemma load_module_eq w :
  ∃ w', load_module float module_path w
        = (w', Ok {| ModelAnalysis_model_mapper := length (mappers w);
                     ModelAnalysis_non_linear_optimizer := optimizers w;
                     HyperparameterAnalysis_model_mapper := S (length (mappers w));
                     HyperparameterAnalysis_non_linear_optimizer := S (optimizers w);
                     Analysis_model_mapper := S (S (length (mappers w)));
                     Analysis_non_linear_optimizer := S (S (optimizers w)) |})
        ∧ length (mappers w') = 3 + length (mappers w).
Proof.
  unfold load_module, sbind. repeat (rewrite ModelMapper_new_eq; simpl).
  eexists. split.
  - unfold sret. rewrite !length_app. simpl.
    repeat f_equal; lia.
  - simpl. rewrite !length_app. simpl. lia.
Qed.

Lemma Analysis_init_mapper d kwargs self :
  "model_mapper" ∉ kwargs.*1 → "non_linear_optimizer" ∉ kwargs.*1 →
  Analysis_init d None None kwargs = Ok self →
  dict_get self "model_mapper" = Some (OMapper (Analysis_model_mapper d))
  ∧ dict_get self "non_linear_optimizer" = Some (OOptimizer (Analysis_non_linear_optimizer d)).
Proof.
  intros Hm Ho. unfold Analysis_init.
  assert (∀ (l : list (string * pyobj)) (s0 s1 : Analysis),
    "model_mapper" ∉ l.*1 → "non_linear_optimizer" ∉ l.*1 →
    foldl (fun self kv => self ← self; append_included (dict_set self kv.1 kv.2) kv.1)
      (Ok s0) l = Ok s1 →
    dict_get s1 "model_mapper" = dict_get s0 "model_mapper"
    ∧ dict_get s1 "non_linear_optimizer" = dict_get s0 "non_linear_optimizer") as Hloop.
  { induction l as [|[k v] l IH]; intros s0 s1 Hkm Hko; simpl.
    - by intros [= ->].
    - rewrite fmap_cons, not_elem_of_cons in Hkm, Hko. simpl in Hkm, Hko.
      destruct Hkm as [Hkm Hlm], Hko as [Hko Hlo].
      destruct (append_included (dict_set s0 k v) k) as [s0'|e] eqn:Happ.
      + intros Hfold. destruct (IH s0' s1 Hlm Hlo Hfold) as [-> ->].
        unfold append_included in Happ.
        destruct (dict_get (dict_set s0 k v) "included_attributes") as [[]|]; try done.
        injection Happ as <-. rewrite !dict_get_set. simpl.
        destruct (String.eqb k "model_mapper") eqn:E1;
          [apply String.eqb_eq in E1; congruence|].
        destruct (String.eqb k "non_linear_optimizer") eqn:E2;
          [apply String.eqb_eq in E2; congruence|]. done.
      + intros Hfold. exfalso. clear -Hfold.
        induction l as [|kv l IHl]; simpl in Hfold; [done|]. by apply IHl. }
  destruct (foldl _ _ _) as [s1|e] eqn:Hfold; [|done]. simpl.
  destruct (dict_get s1 "included_attributes") as [[]|]; try done. simpl.
  intros [= <-]. rewrite !dict_get_set. simpl.
  apply Hloop in Hfold as [-> ->].
  - done.
  - intros Hin. apply Hm. apply list_elem_of_fmap in Hin as (e & -> & He).
    apply list_elem_of_fmap. exists e. by rewrite <- elem_of_iteritems.
  - intros Hin. apply Ho. apply list_elem_of_fmap in Hin as (e & -> & He).
    apply list_elem_of_fmap. exists e. by rewrite <- elem_of_iteritems.
Qed.

(** Running mapper code at an address is running it on the mapper found
    there and putting the result back. *)
Lemma at_mapper_eq {A} address (m : stateful (building parser) A) (w : world parser) mapper :
  mappers w !! address = Some mapper →
  at_mapper address m w
  = ({| mappers := <[address := (m (mapper, prior_number w)).1.1]> (mappers w);
        optimizers := optimizers w;
        prior_number := (m (mapper, prior_number w)).1.2 |},
     (m (mapper, prior_number w)).2).
Proof.
  intros Hm. unfold at_mapper. rewrite Hm.
  by destruct (m (mapper, prior_number w)) as [[mapper' n'] r].
Qed.

Lemma smap_at_mapper {A B} address (f : A → stateful (building parser) B) (l : list A)
    (w : world parser) mapper st' r :
  mappers w !! address = Some mapper →
  smap f l (mapper, prior_number w) = (st', r) →
  smap (fun x => at_mapper address (f x)) l w
  = ({| mappers := <[address := st'.1]> (mappers w);
        optimizers := optimizers w;
        prior_number := st'.2 |}, r).
Proof.
  revert w mapper st' r. induction l as [|x l IH]; intros w mapper st' r Hm; simpl.
  - unfold sret. intros [= <- <-]. simpl. rewrite list_insert_id by done.
    clear Hm. destruct w; reflexivity.
  - unfold sbind. rewrite (at_mapper_eq _ _ _ _ Hm).
    destruct (f x (mapper, prior_number w)) as [[mapper1 n1] [b|e]]; simpl.
    + destruct (smap f l (mapper1, n1)) as [st2 r2] eqn:Hrest.
      rewrite (IH _ mapper1 st2 r2); simpl.
      * rewrite list_insert_insert_eq. destruct r2; unfold sret; by intros [= <- <-].
      * rewrite list_lookup_insert_eq; [done|]. by eapply lookup_lt_Some.
      * exact Hrest.
    + by intros [= <- <-].
Qed.
Lemma load_module_world (w0 : world parser) :
  load_module float module_path w0
  = ({| mappers := mappers w0
                   ++ replicate 3 [("config", CMConfig (Config_init (module_path +:+ "/config")))];
        optimizers := 3 + optimizers w0;
        prior_number := prior_number w0 |},
     Ok {| ModelAnalysis_model_mapper := length (mappers w0);
           ModelAnalysis_non_linear_optimizer := optimizers w0;
           HyperparameterAnalysis_model_mapper := S (length (mappers w0));
           HyperparameterAnalysis_non_linear_optimizer := S (optimizers w0);
           Analysis_model_mapper := S (S (length (mappers w0)));
           Analysis_non_linear_optimizer := S (S (optimizers w0)) |}).
Proof.
  unfold load_module, sbind. repeat (rewrite ModelMapper_new_eq; simpl).
  unfold sret. rewrite !length_app, <- !app_assoc. simpl.
  repeat f_equal; lia.
Qed.

Lemma insert_other {A} (l : list A) (i j : nat) (x : A) : j ≠ i → <[i := x]> l !! j = l !! j.
Proof. intros Hne. by apply list_lookup_insert_ne. Qed.

(** [ModelAnalysis.__init__] without a mapper: the galaxy priors are
    attached, in order, to the mapper found at the default address. *)
Lemma ModelAnalysis_init_default d lens source (w : world parser) mapper st' done :
  mappers w !! ModelAnalysis_model_mapper d = Some mapper →
  smap attach_to_model_mapper (lens ++ source) (mapper, prior_number w) = (st', Ok done) →
  ∃ w' a,
    ModelAnalysis_init attach_to_model_mapper d lens source None None w = (w', Ok a)
    ∧ ModelAnalysis_mapper a = ModelAnalysis_model_mapper d
    ∧ ModelAnalysis_optimizer a = ModelAnalysis_non_linear_optimizer d
    ∧ mappers w' !! ModelAnalysis_model_mapper d = Some st'.1
    ∧ prior_number w' = st'.2
    ∧ ∀ address, address ≠ ModelAnalysis_model_mapper d →
        mappers w' !! address = mappers w !! address.
Proof.
  intros Hm Hsmap. unfold ModelAnalysis_init, sbind. simpl.
  rewrite (smap_at_mapper _ _ _ _ _ _ _ Hm Hsmap). unfold sret.
  eexists _, _. split; [done|]. simpl. split_and!; try done.
  - rewrite list_lookup_insert_eq; [done|]. by eapply lookup_lt_Some.
  - intros address Hne. by apply insert_other.
Qed.

(** [HyperparameterAnalysis.__init__] without a mapper: the two classes are
    added to the mapper found at the default address. *)
Lemma HyperparameterAnalysis_init_default d pc ic (w : world parser) mapper st1 st2 :
  mappers w !! HyperparameterAnalysis_model_mapper d = Some mapper →
  add_class float "pixelization" pc (mapper, prior_number w) = (st1, Ok ()) →
  add_class float "instrumentation" ic st1 = (st2, Ok ()) →
  ∃ w' h,
    HyperparameterAnalysis_init float d pc ic None None w = (w', Ok h)
    ∧ HyperparameterAnalysis_mapper h = HyperparameterAnalysis_model_mapper d
    ∧ HyperparameterAnalysis_optimizer h = HyperparameterAnalysis_non_linear_optimizer d
    ∧ mappers w' !! HyperparameterAnalysis_model_mapper d = Some st2.1
    ∧ prior_number w' = st2.2
    ∧ (∀ address, address ≠ HyperparameterAnalysis_model_mapper d →
         mappers w' !! address = mappers w !! address)
    ∧ ∃ pm_pix pm_ins,
        dict_get st2.1 "pixelization" = Some (CMModel pm_pix)
        ∧ built_for pc pm_pix
        ∧ dict_get st2.1 "instrumentation" = Some (CMModel pm_ins)
        ∧ built_for ic pm_ins.
Proof.
  destruct st1 as [m1 n1], st2 as [m2 n2]. intros Hm Hpix Hins.
  unfold HyperparameterAnalysis_init, sbind. simpl.
  rewrite (at_mapper_eq _ _ _ _ Hm), Hpix. simpl.
  erewrite at_mapper_eq;
    [|simpl; rewrite list_lookup_insert_eq; [done|]; by eapply lookup_lt_Some].
  simpl. rewrite Hins. simpl. unfold sret.
  eexists _, _. split; [done|]. simpl. split_and!; try done.
  - rewrite list_lookup_insert_eq; [done|]. rewrite length_insert. by eapply lookup_lt_Some.
  - intros address Hne. by rewrite !insert_other.
  - apply add_class_ok in Hpix as (pm_pix & Hbuilt1 & Hget1 & _).
    apply add_class_ok in Hins as (pm_ins & Hbuilt2 & Hget2 & Hframe2). simpl in *.
    exists pm_pix, pm_ins. split_and!; try done. by rewrite Hframe2.
Qed.

(** [Analysis.__init__] without a mapper succeeds for keyword arguments
    that do not rebind its own attributes. *)
Lemma Analysis_init_default d kwargs :
  "model_mapper" ∉ kwargs.*1 → "non_linear_optimizer" ∉ kwargs.*1 →
  (∀ v, ("included_attributes", v) ∈ kwargs → ∃ l, v = OList l) →
  ∃ a,
    Analysis_init d None None kwargs = Ok a
    ∧ dict_get a "model_mapper" = Some (OMapper (Analysis_model_mapper d))
    ∧ dict_get a "non_linear_optimizer" = Some (OOptimizer (Analysis_non_linear_optimizer d)).
Proof.
  intros Hm Ho Hkw.
  assert (∃ a, Analysis_init d None None kwargs = Ok a) as [a Ha].
  { unfold Analysis_init.
    edestruct (Analysis_init_loop
      [("model_mapper", OMapper (Analysis_model_mapper d));
       ("non_linear_optimizer", OOptimizer (Analysis_non_linear_optimizer d));
       ("included_attributes", OList [])] [] (iteritems kwargs))
      as (self' & items' & Hloop & Hitems); [done| |].
    - intros v Hv. apply Hkw. by rewrite <- elem_of_iteritems.
    - simpl. simpl in Hloop. rewrite Hloop. simpl. rewrite Hitems. simpl. eauto. }
  exists a. split; [done|]. by apply (Analysis_init_mapper _ _ _ Hm Ho Ha).
Qed.

(** C10.  The module creates one default mapper and one default optimizer
  for each of the three constructors, when the class is defined: three
  fresh mappers that hold their configuration only.  A construction
  without these arguments takes the defaults and works on the default
  mapper in place: [ModelAnalysis] attaches its galaxy priors to the
  mapper found at the default address, [HyperparameterAnalysis] adds its
  two classes to it, and the result is what every holder of that address
  sees.  So of two analyses built in a row without arguments both hold the
  same mapper and optimizer, and after the second construction the mapper
  of the first is the one the second has worked on.  An [Analysis] built
  without arguments holds the default mapper and optimizer of its class. *)
Theorem default_mapper_shared_and_mutated (w0 : world parser) :
∃ w1 d,
  load_module float module_path w0 = (w1, Ok d)
  ∧ ModelAnalysis_model_mapper d = length (mappers w0)
  ∧ HyperparameterAnalysis_model_mapper d = S (length (mappers w0))
  ∧ Analysis_model_mapper d = S (S (length (mappers w0)))
  ∧ length (mappers w1) = 3 + length (mappers w0)
  ∧ (∀ address,
       address ∈ [ModelAnalysis_model_mapper d; HyperparameterAnalysis_model_mapper d;
                  Analysis_model_mapper d] →
       mappers w1 !! address
       = Some [("config", CMConfig (Config_init (module_path +:+ "/config")))])
  ∧ (∀ lens source w mapper st' done,
       mappers w !! ModelAnalysis_model_mapper d = Some mapper →
       smap attach_to_model_mapper (lens ++ source) (mapper, prior_number w)
       = (st', Ok done) →
       ∃ w' a,
         ModelAnalysis_init attach_to_model_mapper d lens source None None w = (w', Ok a)
         ∧ ModelAnalysis_mapper a = ModelAnalysis_model_mapper d
         ∧ ModelAnalysis_optimizer a = ModelAnalysis_non_linear_optimizer d
         ∧ mappers w' !! ModelAnalysis_model_mapper d = Some st'.1
         ∧ prior_number w' = st'.2
         ∧ ∀ address, address ≠ ModelAnalysis_model_mapper d →
             mappers w' !! address = mappers w !! address)
  ∧ (∀ lens source lens' source' w mapper st1 done1 st2 done2,
       mappers w !! ModelAnalysis_model_mapper d = Some mapper →
       smap attach_to_model_mapper (lens ++ source) (mapper, prior_number w)
       = (st1, Ok done1) →
       smap attach_to_model_mapper (lens' ++ source') st1 = (st2, Ok done2) →
       ∃ wa wb a1 a2,
         ModelAnalysis_init attach_to_model_mapper d lens source None None w = (wa, Ok a1)
         ∧ ModelAnalysis_init attach_to_model_mapper d lens' source' None None wa
           = (wb, Ok a2)
         ∧ ModelAnalysis_mapper a1 = ModelAnalysis_mapper a2
         ∧ ModelAnalysis_optimizer a1 = ModelAnalysis_optimizer a2
         ∧ mappers wa !! ModelAnalysis_mapper a1 = Some st1.1
         ∧ mappers wb !! ModelAnalysis_mapper a1 = Some st2.1)
  ∧ (∀ pc ic w mapper st1 st2,
       mappers w !! HyperparameterAnalysis_model_mapper d = Some mapper →
       add_class float "pixelization" pc (mapper, prior_number w) = (st1, Ok ()) →
       add_class float "instrumentation" ic st1 = (st2, Ok ()) →
       ∃ w' h,
         HyperparameterAnalysis_init float d pc ic None None w = (w', Ok h)
         ∧ HyperparameterAnalysis_mapper h = HyperparameterAnalysis_model_mapper d
         ∧ HyperparameterAnalysis_optimizer h = HyperparameterAnalysis_non_linear_optimizer d
         ∧ mappers w' !! HyperparameterAnalysis_model_mapper d = Some st2.1
         ∧ prior_number w' = st2.2
         ∧ (∀ address, address ≠ HyperparameterAnalysis_model_mapper d →
              mappers w' !! address = mappers w !! address)
         ∧ ∃ pm_pix pm_ins,
             dict_get st2.1 "pixelization" = Some (CMModel pm_pix)
             ∧ built_for pc pm_pix
             ∧ dict_get st2.1 "instrumentation" = Some (CMModel pm_ins)
             ∧ built_for ic pm_ins)
  ∧ (∀ pc ic pc' ic' w mapper st1 st2 st3 st4,
       mappers w !! HyperparameterAnalysis_model_mapper d = Some mapper →
       add_class float "pixelization" pc (mapper, prior_number w) = (st1, Ok ()) →
       add_class float "instrumentation" ic st1 = (st2, Ok ()) →
       add_class float "pixelization" pc' st2 = (st3, Ok ()) →
       add_class float "instrumentation" ic' st3 = (st4, Ok ()) →
       ∃ wa wb h1 h2 pm_pix pm_ins,
         HyperparameterAnalysis_init float d pc ic None None w = (wa, Ok h1)
         ∧ HyperparameterAnalysis_init float d pc' ic' None None wa = (wb, Ok h2)
         ∧ HyperparameterAnalysis_mapper h1 = HyperparameterAnalysis_mapper h2
         ∧ HyperparameterAnalysis_optimizer h1 = HyperparameterAnalysis_optimizer h2
         ∧ mappers wa !! HyperparameterAnalysis_mapper h1 = Some st2.1
         ∧ mappers wb !! HyperparameterAnalysis_mapper h1 = Some st4.1
         ∧ dict_get st4.1 "pixelization" = Some (CMModel pm_pix)
         ∧ built_for pc' pm_pix
         ∧ dict_get st4.1 "instrumentation" = Some (CMModel pm_ins)
         ∧ built_for ic' pm_ins)
  ∧ (∀ kwargs,
       "model_mapper" ∉ kwargs.*1 → "non_linear_optimizer" ∉ kwargs.*1 →
       (∀ v, ("included_attributes", v) ∈ kwargs → ∃ l, v = OList l) →
       ∃ a,
         Analysis_init d None None kwargs = Ok a
         ∧ dict_get a "model_mapper" = Some (OMapper (Analysis_model_mapper d))
         ∧ dict_get a "non_linear_optimizer"
           = Some (OOptimizer (Analysis_non_linear_optimizer d))).
Proof.
eexists _, _. split; [apply load_module_world|].
set (d := {| ModelAnalysis_model_mapper := length (mappers w0) |}).
split_and!; try done.
- simpl. rewrite length_app. simpl. lia.
- simpl. intros address Hin.
  assert (∃ i, address = length (mappers w0) + i ∧ i < 3) as (i & -> & Hi).
  { repeat (apply elem_of_cons in Hin as [->|Hin]);
      [exists 0|exists 1|exists 2|by apply elem_of_nil in Hin]; lia. }
  rewrite lookup_app_r by apply Nat.le_add_r.
  rewrite Nat.add_comm, Nat.add_sub.
  by destruct i as [|[|[|i]]]; [| | |lia].
- intros. by eapply ModelAnalysis_init_default.
- intros lens source lens' source' w mapper st1 done1 st2 done2 Hm H1 H2.
  destruct (ModelAnalysis_init_default d _ _ _ _ _ _ Hm H1)
    as (wa & a1 & Ha1 & Hmap1 & Hopt1 & Hwa & Hn & _).
  destruct st1 as [m1 n1]. simpl in Hwa, Hn. rewrite <- Hn in H2.
  destruct (ModelAnalysis_init_default d _ _ _ _ _ _ Hwa H2)
    as (wb & a2 & Ha2 & Hmap2 & Hopt2 & Hwb & _).
  exists wa, wb, a1, a2. rewrite Hmap1, Hmap2, Hopt1, Hopt2. by split_and!.
- intros. by eapply HyperparameterAnalysis_init_default.
- intros pc ic pc' ic' w mapper st1 st2 st3 st4 Hm H1 H2 H3 H4.
  destruct (HyperparameterAnalysis_init_default d _ _ _ _ _ _ Hm H1 H2)
    as (wa & h1 & Hh1 & Hmap1 & Hopt1 & Hwa & Hn & _).
  destruct st2 as [m2 n2]. simpl in Hwa, Hn. rewrite <- Hn in H3.
  destruct (HyperparameterAnalysis_init_default d _ _ _ _ _ _ Hwa H3 H4)
    as (wb & h2 & Hh2 & Hmap2 & Hopt2 & Hwb & _ & _ & pm_pix & pm_ins & Hp1 & Hp2 & Hp3 & Hp4).
  exists wa, wb, h1, h2, pm_pix, pm_ins. rewrite Hmap1, Hmap2, Hopt1, Hopt2.
  by split_and!.
- intros. by apply Analysis_init_default.
Qed.

End default_arguments.
End PipelineFacts.

(** ** Properties of a reconstruction *)

Module ReconstructionFacts.
Import Py Prior PyFacts PriorFacts.

Lemma mapR_Ok {A B} (f : A → result B) (l : list A) (ys : list B) :
  mapR f l = Ok ys ↔ Forall2 (fun x y => f x = Ok y) l ys.
Proof.
  split.
  - revert ys. induction l as [|x l IH]; intros ys; simpl.
    + intros [= <-]. constructor.
    + destruct (f x) as [y|e] eqn:Hx; simpl; [|done].
      destruct (mapR f l) as [ys'|e] eqn:Hl; simpl; [|done].
      intros [= <-]. constructor; [exact Hx|]. by apply IH.
  - induction 1 as [|x y l ys' Hx _ IH]; simpl; [done|].
    by rewrite Hx, IH.
Qed.

(** When every failure is the same exception, one failing element makes
    the loop raise it. *)
Lemma mapR_Raise {A B} (f : A → result B) (l : list A) (e : exn) (x : A) :
  (∀ x e', f x = Raise e' → e' = e) → x ∈ l → f x = Raise e → mapR f l = Raise e.
Proof.
  intros Honly Hin Hx. induction l as [|y l IH]; [by apply elem_of_nil in Hin|].
  simpl. destruct (f y) as [b|e'] eqn:Hy; simpl.
  - apply elem_of_cons in Hin as [->|Hin]; [congruence|]. by rewrite IH.
  - by rewrite (Honly _ _ Hy).
Qed.

Lemma map2_padded_zip {A B C} (f : option A → option B → result C) xs ys :
  length xs = length ys →
  map2_padded f xs ys = mapR (fun xy => f (Some xy.1) (Some xy.2)) (zip xs ys).
Proof.
  revert ys. induction xs as [|x xs IH]; intros [|y ys] Hlen; simplify_eq/=; [done|].
  by rewrite IH.
Qed.

Section dict_of_list.
Context {K V A : Type} `{PyKey K} (f : K → A).
Hypothesis key_eqb_spec : ∀ k k' : K, key_eqb k k' = true ↔ f k = f k'.

Lemma dict_set_fresh (d : dict K V) k v :
  f k ∉ keys_of f d → dict_set d k v = d ++ [(k, v)].
Proof.
  unfold keys_of. induction d as [|[k' v'] d IH]; csimpl; intros Hk; [done|].
  apply not_elem_of_cons in Hk as [Hne Hk].
  destruct (key_eqb k' k) eqn:Heq.
  - apply key_eqb_spec in Heq. congruence.
  - by rewrite IH.
Qed.

(** A list of pairs with distinct keys is the dictionary made from it. *)
Lemma dict_of_list_NoDup (l : list (K * V)) : NoDup (keys_of f l) → dict_of_list l = l.
Proof.
  unfold dict_of_list.
  assert (∀ d, NoDup (keys_of f (d ++ l)) →
               foldl (fun d kv => dict_set d kv.1 kv.2) d l = d ++ l) as Hgen.
  { induction l as [|[k v] l IH]; intros d Hnd; simpl; [by rewrite app_nil_r|].
    rewrite dict_set_fresh.
    - rewrite IH; rewrite <- app_assoc; done.
    - unfold keys_of in *. rewrite fmap_app in Hnd. apply NoDup_app in Hnd as (_ & Hd & _).
      intros Hin. apply (Hd _ Hin). csimpl. left. }
  intros Hnd. by apply (Hgen []).
Qed.
End dict_of_list.

Section arguments.
Context `{DictOrder} `{Prior.ConfigParser parser}.
Variable erfinv : R → R.
Implicit Types (self : ClassMap parser) (vector : list R).

Lemma prior_ids_NoDup self : NoDup (prior_ids self).
Proof. apply strictly_sorted_NoDup. by destruct (priors_spec self). Qed.

Lemma value_for_Ok p unit :
  dist p ≠ Plain → ∃ v, value_for erfinv p (Some unit) = Ok v.
Proof. unfold value_for. destruct (dist p); [done|eauto..]. Qed.

(** The dictionary of arguments, when the vector has one unit per prior
    and every prior has a [value_for]: the pairs of the priors, in order
    of id, with the values for the units at the same positions. *)
Lemma arguments_for_vector_eq self vector :
  length vector = length (priors self) →
  (∀ n p, owns self n p → dist p ≠ Plain) →
  ∃ vs, arguments_for_vector erfinv self vector = Ok (zip (priors self).*2 vs)
        ∧ Forall2 (fun pu v => value_for erfinv pu.1.2 (Some pu.2) = Ok v)
            (zip (priors self) vector) vs.
Proof.
  intros Hlen Hplain. unfold arguments_for_vector.
  destruct (priors_spec self) as (_ & _ & Hown).
  pose proof (prior_ids_NoDup self) as Hnd. unfold prior_ids in Hnd.
  revert Hown Hnd Hlen. generalize (priors self). intros L Hown Hnd Hlen.
  rewrite map2_padded_zip by done.
  assert (∃ vs, Forall2 (fun pu v => value_for erfinv pu.1.2 (Some pu.2) = Ok v)
                  (zip L vector) vs) as [vs Hvs].
  { clear Hnd. revert vector Hlen. induction L as [|[n p] L IH]; intros [|u vector] Hlen;
      simplify_eq/=; [by exists []|].
    destruct (IH (λ n p Hin, Hown n p (proj2 (elem_of_cons _ _ _) (or_intror Hin))) vector) as [vs Hvs];
      [done|].
    destruct (value_for_Ok p u) as [v Hv]; [eapply Hplain, Hown; left|].
    exists (v :: vs). by constructor. }
  exists vs. split; [|done].
  assert (mapR (fun xy : (string * Prior) * R =>
                  v ← value_for erfinv xy.1.2 (Some xy.2); Ok (xy.1.2, v)) (zip L vector)
          = Ok (zip L.*2 vs)) as ->.
  { apply mapR_Ok. clear Hnd Hown. revert vector vs Hlen Hvs.
    induction L as [|[n p] L IH]; intros [|u vector] vs Hlen Hvs; simplify_eq/=.
    - inversion Hvs. constructor.
    - inversion Hvs as [|? v ? vs' Hv Hvs']; subst. simpl in *.
      constructor; [simpl; by rewrite Hv|]. by apply IH. }
  csimpl. f_equal. apply (dict_of_list_NoDup id prior_key_spec).
  assert (length vs = length L) as Hlenvs.
  { apply Forall2_length in Hvs. rewrite length_zip_with in Hvs. lia. }
  unfold keys_of. clear -Hnd Hlenvs. revert vs Hlenvs.
  induction L as [|[n p] L IH]; intros [|v vs] Hlenvs; simplify_eq/=; [constructor|].
  apply NoDup_cons in Hnd as [Hp Hnd]. constructor; [|by apply IH].
  intros Hin. apply Hp. apply list_elem_of_fmap in Hin as ([q w] & -> & Hin).
  apply elem_of_zip_l in Hin. simpl.
  apply list_elem_of_fmap in Hin as ([n' q'] & -> & Hin).
  apply (list_elem_of_fmap_2 (fun prior : string * Prior => id prior.2) _ _ Hin).
Qed.

Lemma dict_get_same_id {V} (d : dict Prior V) p q :
  id q = id p → dict_get d q = dict_get d p.
Proof.
  intros Hid. induction d as [|[k v] d IH]; simpl; [done|]. by rewrite Hid, IH.
Qed.

(** X5.  When the vector has as many units as [priors] has entries and
  no Prior of the mapper is of the base class, the dictionary of arguments
  is built: the unit at position [k] of the vector goes to the Prior at
  position [k] of [priors], that is the one with the k-th smallest id,
  and the dictionary answers with its value for every Prior of that id.
  It has an entry for exactly the ids of [priors]. *)
Theorem arguments_for_vector_by_position self vector :
  length vector = length (priors self) →
  (∀ n p, owns self n p → dist p ≠ Plain) →
  ∃ arguments,
    arguments_for_vector erfinv self vector = Ok arguments
    ∧ (∀ k n p unit, priors self !! k = Some (n, p) → vector !! k = Some unit →
         ∃ v, value_for erfinv p (Some unit) = Ok v
              ∧ ∀ q, id q = id p → dict_get arguments q = Some v)
    ∧ (∀ q, is_Some (dict_get arguments q) ↔ id q ∈ prior_ids self).
Proof.
  intros Hlen Hplain.
  destruct (arguments_for_vector_eq self vector Hlen Hplain) as (vs & Hargs & Hvs).
  exists (zip (priors self).*2 vs). split; [done|].
  pose proof (prior_ids_NoDup self) as Hnd. unfold prior_ids in *.
  assert (length vs = length (priors self)) as Hlenvs.
  { apply Forall2_length in Hvs. rewrite length_zip_with in Hvs. lia. }
  assert (keys_of id (zip (priors self).*2 vs)
          = (fun prior : string * Prior => id prior.2) <$> priors self) as Hkeys.
  { unfold keys_of. clear -Hlenvs. revert vs Hlenvs.
    induction (priors self) as [|[n p] L IH]; intros [|v vs] Hlenvs; simplify_eq/=; [done|].
    f_equal. by apply IH. }
  split.
  - intros k n p unit Hk Hu.
    assert (zip (priors self) vector !! k = Some ((n, p), unit)) as Hzip.
    { rewrite lookup_zip_with, Hk. simpl. by rewrite Hu. }
    destruct (Forall2_lookup_l _ _ _ _ _ Hvs Hzip) as (v & Hv & Hval).
    exists v. split; [exact Hval|]. intros q Hq.
    rewrite (dict_get_same_id _ p q Hq).
    apply (dict_get_elem id prior_key_spec); [by rewrite Hkeys|].
    apply (list_elem_of_lookup_2 _ k).
    rewrite lookup_zip_with, list_lookup_fmap, Hk. simpl. by rewrite Hv.
  - intros q. rewrite <- Hkeys, <- not_eq_None_Some.
    rewrite (dict_get_None id prior_key_spec).
    split; [|tauto]. intros Hnn. by destruct (decide (id q ∈ keys_of id (zip (priors self).*2 vs))).
Qed.

End arguments.

(** Assignments in a row to a dictionary keyed by names. *)
Section assignments.
Context {V : Type}.
Implicit Types (d : dict string V) (ts : list (string * V)).

Definition assign d ts : dict string V := foldl (fun d t => dict_set d t.1 t.2) d ts.

Lemma assign_get d ts n v :
  NoDup ts.*1 → (n, v) ∈ ts → dict_get (assign d ts) n = Some v.
Proof.
  unfold assign. induction ts as [|t ts IH] using rev_ind; intros Hnd Hin.
  - by apply elem_of_nil in Hin.
  - rewrite foldl_app. simpl. rewrite dict_get_set.
    rewrite fmap_app in Hnd. apply NoDup_app in Hnd as (Hnd & Hfresh & _).
    apply elem_of_app in Hin as [Hin|Hin].
    + destruct (String.eqb t.1 n) eqn:Heq; [|by apply IH].
      apply String.eqb_eq in Heq. exfalso. apply (Hfresh n).
      * apply (list_elem_of_fmap_2 fst _ _ Hin).
      * rewrite <- Heq. left.
    + apply list_elem_of_singleton in Hin as <-. simpl. by rewrite String.eqb_refl.
Qed.

Lemma assign_get_other d ts n : n ∉ ts.*1 → dict_get (assign d ts) n = dict_get d n.
Proof.
  unfold assign. induction ts as [|t ts IH] using rev_ind; intros Hn; [done|].
  rewrite foldl_app. simpl. rewrite dict_get_set.
  rewrite fmap_app, not_elem_of_app in Hn. destruct Hn as [Hn Ht].
  destruct (String.eqb t.1 n) eqn:Heq; [|by apply IH].
  apply String.eqb_eq in Heq. exfalso. apply Ht. rewrite <- Heq. left.
Qed.
End assignments.

Section instances.
Context `{DictOrder}.
Implicit Types (pm : PriorModel) (tp : TuplePrior) (arguments : dict Prior R).

(** X6.  [value_for_arguments] looks up every Prior that the tuple prior
  holds.  When all of them are keys of [arguments] it returns their
  values, one per Prior and in the order of [priors]; when one of them is
  not, it raises [KeyError]. *)
Theorem value_for_arguments_lookup tp arguments :
  ((∀ n p, (n, TPPrior p) ∈ tp → is_Some (dict_get arguments p)) →
   ∃ vs, TuplePrior_value_for_arguments tp arguments = Ok vs
         ∧ Forall2 (fun prior v => dict_get arguments prior.2 = Some v)
             (TuplePrior_priors tp) vs)
  ∧ (∀ n p, (n, TPPrior p) ∈ tp → dict_get arguments p = None →
       TuplePrior_value_for_arguments tp arguments = Raise KeyError).
Proof.
  unfold TuplePrior_value_for_arguments. split.
  - intros Hall.
    assert (∀ prior, prior ∈ TuplePrior_priors tp → is_Some (dict_get arguments prior.2))
      as Hall'.
    { intros [n p] Hin. apply (Hall n). by apply elem_of_TuplePrior_priors. }
    clear Hall. induction (TuplePrior_priors tp) as [|[n p] l IH]; simpl.
    + exists []. split; [done|constructor].
    + destruct (Hall' (n, p)) as [v Hv]; [left|].
      destruct IH as (vs & -> & Hvs). { intros prior Hin. apply Hall'. by right. }
      exists (v :: vs). unfold dict_index at 1. simpl in *. rewrite Hv. simpl.
      split; [done|]. by constructor.
  - intros n p Hin Hnone.
    apply (mapR_Raise _ _ _ (n, p)).
    + intros [n' p'] e. unfold dict_index. simpl.
      destruct (dict_get arguments p'); [done|]. by intros [= <-].
    + by apply elem_of_TuplePrior_priors.
    + unfold dict_index. simpl. by rewrite Hnone.
Qed.

(** The keyword arguments that [instance_for_arguments] computes: one per
    attribute holding a Prior, then one per attribute holding a tuple prior. *)
Definition direct_keywords pm arguments : result (list (string * pyval)) :=
  mapR (fun t => v ← dict_index arguments t.2; Ok (t.1, VFloat v))
    (PriorModel_direct_priors pm).

Definition tuple_keywords pm arguments : result (list (string * pyval)) :=
  mapR (fun t => v ← TuplePrior_value_for_arguments t.2 arguments;
                 Ok (t.1, VTuple (VFloat <$> v)))
    (PriorModel_tuple_priors pm).

Lemma tuple_loop arguments (d : dict string pyval) (l : list (string * TuplePrior)) :
  foldl (fun acc tuple_prior =>
           model_arguments ← acc;
           v ← TuplePrior_value_for_arguments tuple_prior.2 arguments;
           Ok (dict_set model_arguments tuple_prior.1 (VTuple (VFloat <$> v))))
        (Ok d) l
  = ts ← mapR (fun t => v ← TuplePrior_value_for_arguments t.2 arguments;
                        Ok (t.1, VTuple (VFloat <$> v))) l;
    Ok (assign d ts).
Proof.
  revert d. induction l as [|t l IH]; intros d; simpl; [done|].
  destruct (TuplePrior_value_for_arguments t.2 arguments) as [v|e]; simpl.
  - rewrite IH. by destruct (mapR _ l).
  - clear. induction l as [|t' l IH]; simpl; [done|]. exact IH.
Qed.

Lemma instance_for_arguments_eq pm arguments :
  PriorModel_instance_for_arguments pm arguments
  = direct ← direct_keywords pm arguments;
    tuples ← tuple_keywords pm arguments;
    match dict_get pm "cls" with
    | Some (PMClass c) => call_class c (assign [] (direct ++ tuples))
    | Some _ => Raise TypeError
    | None => Raise AttributeError
    end.
Proof.
  unfold PriorModel_instance_for_arguments, direct_keywords, tuple_keywords.
  destruct (mapR _ (PriorModel_direct_priors pm)) as [direct|e]; simpl; [|done].
  rewrite tuple_loop. destruct (mapR _ (PriorModel_tuple_priors pm)) as [tuples|e]; simpl; [|done].
  unfold dict_of_list, assign. by rewrite foldl_app.
Qed.

Lemma omap_names_NoDup {A B C} (l : list (string * A))
    (f : string * A → option (string * B)) (g : string * A → option (string * C)) :
  NoDup l.*1 →
  (∀ e b, f e = Some b → b.1 = e.1) → (∀ e c, g e = Some c → c.1 = e.1) →
  (∀ e, is_Some (f e) → g e = None) →
  NoDup ((omap f l).*1 ++ (omap g l).*1).
Proof.
  intros Hnd Hf Hg Hfg.
  assert (∀ n, n ∈ (omap f l).*1 ++ (omap g l).*1 → n ∈ l.*1) as Hsub.
  { intros n Hn. apply elem_of_app in Hn as [Hn|Hn];
      apply list_elem_of_fmap in Hn as (b & -> & Hb);
      apply list_elem_of_omap in Hb as (e & He & Hb);
      [rewrite (Hf _ _ Hb)|rewrite (Hg _ _ Hb)];
      apply (list_elem_of_fmap_2 fst _ _ He). }
  induction l as [|e l IH]; simpl; [constructor|].
  apply NoDup_cons in Hnd as [He Hnd]. specialize (IH Hnd).
  assert (∀ n, n ∈ (omap f l).*1 ++ (omap g l).*1 → n ∈ l.*1) as Hsub'.
  { intros n Hn. apply elem_of_app in Hn as [Hn|Hn];
      apply list_elem_of_fmap in Hn as (b & -> & Hb);
      apply list_elem_of_omap in Hb as (e' & He' & Hb);
      [rewrite (Hf _ _ Hb)|rewrite (Hg _ _ Hb)];
      apply (list_elem_of_fmap_2 fst _ _ He'). }
  specialize (IH Hsub').
  destruct (f e) as [b|] eqn:Hb.
  - rewrite (Hfg e) by (by rewrite Hb). csimpl. constructor; [|done].
    rewrite (Hf _ _ Hb). intros Hin. by apply He, Hsub'.
  - destruct (g e) as [c|] eqn:Hc; [|done]. csimpl.
    apply NoDup_app in IH as (IH1 & IH2 & IH3).
    apply NoDup_app. split_and!; [done| |].
    + intros n Hn Hin. apply elem_of_cons in Hin as [->|Hin]; [|by eapply IH2].
      rewrite (Hg _ _ Hc) in Hn. apply He, Hsub'. apply elem_of_app. by left.
    + constructor; [|done]. rewrite (Hg _ _ Hc). intros Hin.
      apply He, Hsub'. apply elem_of_app. by right.
Qed.

Lemma keyword_names_NoDup pm :
  NoDup pm.*1 →
  NoDup ((PriorModel_direct_priors pm).*1 ++ (PriorModel_tuple_priors pm).*1).
Proof.
  intros Hnd. unfold PriorModel_direct_priors, PriorModel_tuple_priors.
  apply omap_names_NoDup.
  - unfold iteritems. by rewrite dict_order_perm.
  - intros [n v] b. simpl. destruct v; by intros [= <-].
  - intros [n v] b. simpl. destruct v; by intros [= <-].
  - intros [n v]. simpl. destruct v; try done; by intros [? [=]].
Qed.

Lemma direct_keywords_ok pm arguments :
  (∀ n p, (n, PMPrior p) ∈ pm → is_Some (dict_get arguments p)) →
  ∃ direct, direct_keywords pm arguments = Ok direct
    ∧ direct.*1 = (PriorModel_direct_priors pm).*1
    ∧ ∀ n p, (n, PMPrior p) ∈ pm →
        ∃ v, dict_get arguments p = Some v ∧ (n, VFloat v) ∈ direct.
Proof.
  intros Hall. unfold direct_keywords.
  assert (∀ n p, (n, p) ∈ PriorModel_direct_priors pm → is_Some (dict_get arguments p))
    as Hall'.
  { intros n p Hin. apply (Hall n). by apply elem_of_direct_priors. }
  assert (∃ direct,
    mapR (fun t : string * Prior => v ← dict_index arguments t.2; Ok (t.1, VFloat v))
      (PriorModel_direct_priors pm) = Ok direct
    ∧ direct.*1 = (PriorModel_direct_priors pm).*1
    ∧ ∀ n p, (n, p) ∈ PriorModel_direct_priors pm →
        ∃ v, dict_get arguments p = Some v ∧ (n, VFloat v) ∈ direct)
    as (direct & Hd & Hnames & Hval).
  { clear Hall. induction (PriorModel_direct_priors pm) as [|[n p] l IH]; simpl.
    - exists []. split_and!; [done..|]. intros n p Hin. by apply elem_of_nil in Hin.
    - destruct (Hall' n p) as [v Hv]; [left|].
      destruct IH as (direct & -> & Hnames & Hval).
      { intros n' p' Hin. apply (Hall' n'). by right. }
      unfold dict_index at 1. simpl. rewrite Hv. simpl.
      exists ((n, VFloat v) :: direct). split_and!; [done|by csimpl; f_equal|].
      intros n' p' Hin. apply elem_of_cons in Hin as [[= -> ->]|Hin].
      + exists v. split; [done|left].
      + destruct (Hval n' p' Hin) as (v' & ? & ?). exists v'. split; [done|by right]. }
  exists direct. split_and!; [done..|].
  intros n p Hin. apply Hval. by apply elem_of_direct_priors.
Qed.

Lemma tuple_keywords_ok pm arguments :
  (∀ a tp n p, (a, PMTuple tp) ∈ pm → (n, TPPrior p) ∈ tp → is_Some (dict_get arguments p)) →
  ∃ tuples, tuple_keywords pm arguments = Ok tuples
    ∧ tuples.*1 = (PriorModel_tuple_priors pm).*1
    ∧ ∀ a tp, (a, PMTuple tp) ∈ pm →
        ∃ vs, TuplePrior_value_for_arguments tp arguments = Ok vs
              ∧ Forall2 (fun prior v => dict_get arguments prior.2 = Some v)
                  (TuplePrior_priors tp) vs
              ∧ (a, VTuple (VFloat <$> vs)) ∈ tuples.
Proof.
  intros Hall. unfold tuple_keywords.
  assert (∀ a tp, (a, tp) ∈ PriorModel_tuple_priors pm →
            ∃ vs, TuplePrior_value_for_arguments tp arguments = Ok vs
                  ∧ Forall2 (fun prior v => dict_get arguments prior.2 = Some v)
                      (TuplePrior_priors tp) vs) as Hall'.
  { intros a tp Hin. apply elem_of_tuple_priors in Hin.
    unfold TuplePrior_value_for_arguments.
    assert (∀ prior, prior ∈ TuplePrior_priors tp → is_Some (dict_get arguments prior.2))
      as Hin'.
    { intros [n p] Hp. apply (Hall a tp n); [done|]. by apply elem_of_TuplePrior_priors. }
    clear Hin. induction (TuplePrior_priors tp) as [|[n p] l IH]; simpl.
    - exists []. split; [done|constructor].
    - destruct (Hin' (n, p)) as [v Hv]; [left|].
      destruct IH as (vs & -> & Hvs). { intros prior Hp. apply Hin'. by right. }
      exists (v :: vs). unfold dict_index at 1. simpl in *. rewrite Hv. simpl.
      split; [done|]. by constructor. }
  assert (∃ tuples,
    mapR (fun t : string * TuplePrior =>
            v ← TuplePrior_value_for_arguments t.2 arguments; Ok (t.1, VTuple (VFloat <$> v)))
      (PriorModel_tuple_priors pm) = Ok tuples
    ∧ tuples.*1 = (PriorModel_tuple_priors pm).*1
    ∧ ∀ a tp, (a, tp) ∈ PriorModel_tuple_priors pm →
        ∃ vs, TuplePrior_value_for_arguments tp arguments = Ok vs
              ∧ Forall2 (fun prior v => dict_get arguments prior.2 = Some v)
                  (TuplePrior_priors tp) vs
              ∧ (a, VTuple (VFloat <$> vs)) ∈ tuples)
    as (tuples & Ht & Hnames & Hval).
  { clear Hall. induction (PriorModel_tuple_priors pm) as [|[a tp] l IH]; simpl.
    - exists []. split_and!; [done..|]. intros a tp Hin. by apply elem_of_nil in Hin.
    - destruct (Hall' a tp) as (vs & Hvs & Hlook); [left|].
      destruct IH as (tuples & -> & Hnames & Hval).
      { intros a' tp' Hin. apply (Hall' a'). by right. }
      rewrite Hvs. simpl.
      exists ((a, VTuple (VFloat <$> vs)) :: tuples). split_and!; [done|by csimpl; f_equal|].
      intros a' tp' Hin. apply elem_of_cons in Hin as [[= -> ->]|Hin].
      + exists vs. split_and!; [done..|left].
      + destruct (Hval a' tp' Hin) as (vs' & ? & ? & ?). exists vs'.
        split_and!; [done..|by right]. }
  exists tuples. split_and!; [done..|].
  intros a tp Hin. apply Hval. by apply elem_of_tuple_priors.
Qed.

(** X7.  [instance_for_arguments] calls the class of the prior model with
  one keyword per attribute that holds a Prior, bound to the value of
  that Prior in [arguments], and one per attribute that holds a tuple
  prior, bound to the tuple of its values; no other keyword is passed,
  so that an attribute holding [None] leaves its argument out.  Without
  an attribute [cls] the call is an [AttributeError]. *)
Theorem instance_for_arguments_keywords pm arguments :
  NoDup pm.*1 →
  (∀ n p, holds pm n p → is_Some (dict_get arguments p)) →
  ∃ kwargs,
    PriorModel_instance_for_arguments pm arguments
    = match dict_get pm "cls" with
      | Some (PMClass c) => call_class c kwargs
      | Some _ => Raise TypeError
      | None => Raise AttributeError
      end
    ∧ (∀ n p, (n, PMPrior p) ∈ pm →
         ∃ v, dict_get arguments p = Some v ∧ dict_get kwargs n = Some (VFloat v))
    ∧ (∀ n tp, (n, PMTuple tp) ∈ pm →
         ∃ vs, TuplePrior_value_for_arguments tp arguments = Ok vs
               ∧ dict_get kwargs n = Some (VTuple (VFloat <$> vs)))
    ∧ (∀ n, is_Some (dict_get kwargs n) →
         (∃ p, (n, PMPrior p) ∈ pm) ∨ (∃ tp, (n, PMTuple tp) ∈ pm)).
Proof.
  intros Hnd Hall.
  destruct (direct_keywords_ok pm arguments) as (direct & Hd & Hdn & Hdv).
  { intros n p Hin. apply (Hall n). by left. }
  destruct (tuple_keywords_ok pm arguments) as (tuples & Ht & Htn & Htv).
  { intros a tp n p Ha Hn. apply (Hall n). right. by exists a, tp. }
  pose proof (keyword_names_NoDup pm Hnd) as Hnames.
  rewrite <- Hdn, <- Htn, <- fmap_app in Hnames.
  exists (assign [] (direct ++ tuples)). split_and!.
  - rewrite instance_for_arguments_eq, Hd, Ht. done.
  - intros n p Hin. destruct (Hdv n p Hin) as (v & Hv & Hin'). exists v. split; [done|].
    apply assign_get; [done|]. apply elem_of_app. by left.
  - intros n tp Hin. destruct (Htv n tp Hin) as (vs & Hvs & _ & Hin'). exists vs.
    split; [done|]. apply assign_get; [done|]. apply elem_of_app. by right.
  - intros n Hn. destruct (decide (n ∈ (direct ++ tuples).*1)) as [Hin|Hout].
    + rewrite fmap_app, Hdn, Htn in Hin. apply elem_of_app in Hin as [Hin|Hin];
        apply list_elem_of_fmap in Hin as ([n' x] & -> & Hin); simpl.
      * left. exists x. by apply elem_of_direct_priors.
      * right. exists x. by apply elem_of_tuple_priors.
    + rewrite assign_get_other in Hn by done. by destruct Hn.
Qed.

End instances.

Section reconstruction.
Context `{DictOrder} `{Prior.ConfigParser parser}.
Variable erfinv : R → R.
Implicit Types (self : ClassMap parser) (pm : PriorModel) (arguments : dict Prior R).

Lemma instance_kwargs_of_Ok pm arguments inst :
  NoDup pm.*1 →
  PriorModel_instance_for_arguments pm arguments = Ok inst →
  ∀ n p, (n, PMPrior p) ∈ pm →
    ∃ v, dict_get arguments p = Some v ∧ dict_get (inst_kwargs inst) n = Some (VFloat v).
Proof.
  intros Hnd Hinst n p Hin. rewrite instance_for_arguments_eq in Hinst.
  destruct (direct_keywords pm arguments) as [direct|] eqn:Hd; [|done].
  destruct (tuple_keywords pm arguments) as [tuples|] eqn:Ht; [|done]. simpl in Hinst.
  destruct (dict_get pm "cls") as [[c| | |]|]; try done.
  unfold call_class in Hinst. case_match; [|done]. injection Hinst as <-. simpl.
  pose proof (keyword_names_NoDup pm Hnd) as Hnames.
  apply mapR_Ok in Hd. apply mapR_Ok in Ht.
  assert (direct.*1 = (PriorModel_direct_priors pm).*1) as Hdn.
  { clear -Hd. induction Hd as [|[] ? ? ? Hx _ IH]; csimpl; [done|].
    destruct (dict_index _ _); simplify_eq/=. by f_equal. }
  assert (tuples.*1 = (PriorModel_tuple_priors pm).*1) as Htn.
  { clear -Ht. induction Ht as [|[] ? ? ? Hx _ IH]; csimpl; [done|].
    destruct (TuplePrior_value_for_arguments _ _); simplify_eq/=. by f_equal. }
  rewrite <- Hdn, <- Htn, <- fmap_app in Hnames.
  apply elem_of_direct_priors in Hin.
  apply list_elem_of_lookup in Hin as [i Hi].
  destruct (Forall2_lookup_l _ _ _ _ _ Hd Hi) as (kw & Hkw & Hx). simpl in Hx.
  unfold dict_index in Hx. destruct (dict_get arguments p) as [v|] eqn:Hv; [|done].
  simpl in Hx. injection Hx as <-. exists v. split; [done|].
  apply assign_get; [done|]. apply elem_of_app. left. by eapply list_elem_of_lookup_2.
Qed.

Lemma reconstruct_ok arguments (todo : list (string * PriorModel)) insts (r : Reconstruction) :
  Forall2 (fun t inst => PriorModel_instance_for_arguments t.2 arguments = Ok inst) todo insts →
  reconstruct arguments todo r = (assign r (zip todo.*1 insts), Ok ()).
Proof.
  intros Hall. revert r. induction Hall as [|t inst todo insts Ht _ IH]; intros r; [done|].
  simpl. unfold sbind at 1, slift. rewrite Ht. unfold sbind at 1. by rewrite IH.
Qed.

Lemma reconstruct_fails arguments pre t post insts e (r : Reconstruction) :
  Forall2 (fun t inst => PriorModel_instance_for_arguments t.2 arguments = Ok inst) pre insts →
  PriorModel_instance_for_arguments t.2 arguments = Raise e →
  reconstruct arguments (pre ++ t :: post) r = (assign r (zip pre.*1 insts), Raise e).
Proof.
  intros Hall Ht. revert r. induction Hall as [|t' inst pre insts Ht' _ IH]; intros r.
  - simpl. unfold sbind at 1, slift. by rewrite Ht.
  - simpl. unfold sbind at 1, slift. rewrite Ht'. unfold sbind at 1. by rewrite IH.
Qed.

(** Either every element has a result, or there is a first one that fails. *)
Lemma results_or_first_failure {A B} (f : A → result B) (l : list A) :
  (∃ ys, Forall2 (fun x y => f x = Ok y) l ys)
  ∨ ∃ pre x post ys e, l = pre ++ x :: post
      ∧ Forall2 (fun x y => f x = Ok y) pre ys ∧ f x = Raise e.
Proof.
  induction l as [|x l IH].
  - left. exists []. constructor.
  - destruct (f x) as [y|e] eqn:Hx.
    + destruct IH as [[ys Hys]|(pre & x' & post & ys & e & -> & Hpre & Hx')].
      * left. exists (y :: ys). by constructor.
      * right. exists (x :: pre), x', post, (y :: ys), e. split_and!; [done| |done].
        by constructor.
    + right. exists [], x, l, [], e. split_and!; [done|constructor|done].
Qed.

Lemma omap_names_sub {A B} (l : list (string * A)) (f : string * A → option (string * B)) :
  NoDup l.*1 → (∀ e b, f e = Some b → b.1 = e.1) → NoDup (omap f l).*1.
Proof.
  intros Hnd Hf. induction l as [|e l IH]; simpl; [constructor|].
  apply NoDup_cons in Hnd as [He Hnd]. specialize (IH Hnd).
  destruct (f e) as [b|] eqn:Hb; [|done]. csimpl. constructor; [|done].
  rewrite (Hf _ _ Hb). intros Hin. apply He.
  apply list_elem_of_fmap in Hin as (b' & -> & Hb').
  apply list_elem_of_omap in Hb' as (e' & He' & Hb'). rewrite (Hf _ _ Hb').
  apply (list_elem_of_fmap_2 fst _ _ He').
Qed.

Lemma prior_models_names self : NoDup self.*1 → NoDup (prior_models self).*1.
Proof.
  intros Hnd. unfold prior_models. apply omap_names_sub.
  - unfold iteritems. by rewrite dict_order_perm.
  - intros [n v] b. simpl. destruct v; by intros [= <-].
Qed.

(** X8.  Once the dictionary of arguments is built, a reconstruction
  succeeds when every prior model gives an instance: the
  [Reconstruction] returned has, under the name of each prior model, the
  instance made from it, and no other attribute.  When a prior model
  fails, the call raises; the [Reconstruction] object was created by
  then, holds only instances of other prior models, and is not returned. *)
Theorem reconstruction_for_vector_instances self vector arguments :
  NoDup self.*1 →
  arguments_for_vector erfinv self vector = Ok arguments →
  ((∀ name pm, (name, CMModel pm) ∈ self →
      ∃ inst, PriorModel_instance_for_arguments pm arguments = Ok inst) →
   ∃ recon,
     reconstruction_for_vector erfinv self vector = (Some recon, Ok recon)
     ∧ (∀ name pm, (name, CMModel pm) ∈ self →
          ∃ inst, PriorModel_instance_for_arguments pm arguments = Ok inst
                  ∧ dict_get recon name = Some inst)
     ∧ (∀ name, is_Some (dict_get recon name) → ∃ pm, (name, CMModel pm) ∈ self))
  ∧ (∀ name pm e, (name, CMModel pm) ∈ self →
       PriorModel_instance_for_arguments pm arguments = Raise e →
       ∃ partial e',
         reconstruction_for_vector erfinv self vector = (Some partial, Raise e')
         ∧ dict_get partial name = None
         ∧ ∀ n inst, dict_get partial n = Some inst →
             ∃ pm', (n, CMModel pm') ∈ self
                    ∧ PriorModel_instance_for_arguments pm' arguments = Ok inst).
Proof.
  intros Hnd Hargs. unfold reconstruction_for_vector. rewrite Hargs.
  pose proof (prior_models_names self Hnd) as Hnames.
  destruct (results_or_first_failure
              (fun t : string * PriorModel => PriorModel_instance_for_arguments t.2 arguments)
              (prior_models self))
    as [[insts Hall]|(pre & t & post & insts & e & Hsplit & Hpre & Ht)].
  - assert (length insts = length (prior_models self)) as Hlen
      by (symmetry; by eapply Forall2_length).
    assert (NoDup (zip (prior_models self).*1 insts).*1) as Hnz.
    { rewrite fst_zip; [done|]. rewrite length_fmap. lia. }
    split.
    + intros _. rewrite (reconstruct_ok _ _ insts) by done.
      eexists. split; [done|]. split.
      * intros name pm Hin. apply elem_of_prior_models in Hin.
        apply list_elem_of_lookup in Hin as [i Hi].
        destruct (Forall2_lookup_l _ _ _ _ _ Hall Hi) as (inst & Hinst & Hok).
        exists inst. split; [done|]. apply assign_get; [done|].
        apply (list_elem_of_lookup_2 _ i).
        rewrite lookup_zip_with, list_lookup_fmap, Hi. simpl. by rewrite Hinst.
      * intros name Hsome.
        destruct (decide (name ∈ (zip (prior_models self).*1 insts).*1)) as [Hin|Hout].
        -- rewrite fst_zip in Hin by (rewrite length_fmap; lia).
           apply list_elem_of_fmap in Hin as ([n pm] & -> & Hin).
           exists pm. by apply elem_of_prior_models.
        -- rewrite assign_get_other in Hsome by done. by destruct Hsome.
    + intros name pm e Hin Hfail. exfalso.
      apply elem_of_prior_models in Hin. apply list_elem_of_lookup in Hin as [i Hi].
      destruct (Forall2_lookup_l _ _ _ _ _ Hall Hi) as (inst & _ & Hok).
      simpl in Hok. congruence.
  - assert (length insts = length pre) as Hlen by (symmetry; by eapply Forall2_length).
    rewrite Hsplit in Hnames. rewrite fmap_app in Hnames.
    apply NoDup_app in Hnames as (Hnpre & Hdisj & Hnpost).
    assert ((zip pre.*1 insts).*1 = pre.*1) as Hzn.
    { rewrite fst_zip; [done|]. rewrite length_fmap. lia. }
    split.
    + intros Hall. exfalso. destruct (Hall t.1 t.2) as [inst Hinst]; [|congruence].
      apply elem_of_prior_models. rewrite Hsplit. destruct t. apply elem_of_app. right. left.
    + intros name pm e0 Hin Hfail. rewrite Hsplit, (reconstruct_fails _ _ _ _ insts e) by done.
      eexists _, e. split; [done|]. split.
      * rewrite assign_get_other; [done|]. rewrite Hzn. intros Hpre'.
        apply list_elem_of_fmap in Hpre' as ([n' pm'] & -> & Hpre').
        apply list_elem_of_lookup in Hpre' as [i Hi].
        destruct (Forall2_lookup_l _ _ _ _ _ Hpre Hi) as (inst & _ & Hok). simpl in *.
        assert (pm' = pm) as ->; [|congruence].
        apply elem_of_prior_models in Hin. rewrite Hsplit in Hin.
        assert ((n', pm') ∈ prior_models self) as Hin'.
        { rewrite Hsplit. apply elem_of_app. left. by eapply list_elem_of_lookup_2. }
        rewrite <- Hsplit in Hin.
        apply elem_of_prior_models in Hin, Hin'.
        pose proof (dict_get_elem (fun s => s) string_key_spec self n' (CMModel pm)) as G1.
        pose proof (dict_get_elem (fun s => s) string_key_spec self n' (CMModel pm')) as G2.
        unfold keys_of in G1, G2. rewrite G1 in G2 by done. specialize (G2 Hnd Hin').
        by injection G2.
      * intros n inst Hget.
        destruct (decide (n ∈ (zip pre.*1 insts).*1)) as [Hin'|Hout].
        -- rewrite Hzn in Hin'. apply list_elem_of_fmap in Hin' as ([n' pm'] & -> & Hin').
           apply list_elem_of_lookup in Hin' as [i Hi].
           destruct (Forall2_lookup_l _ _ _ _ _ Hpre Hi) as (inst' & Hinst' & Hok).
           simpl in *. exists pm'. split.
           ++ apply elem_of_prior_models. rewrite Hsplit. apply elem_of_app. left.
              by eapply list_elem_of_lookup_2.
           ++ rewrite assign_get with (v := inst') in Hget.
              ** by injection Hget as <-.
              ** by rewrite Hzn.
              ** apply (list_elem_of_lookup_2 _ i).
                 rewrite lookup_zip_with, list_lookup_fmap, Hi. simpl. by rewrite Hinst'.
        -- rewrite assign_get_other in Hget by done. done.
Qed.

(** X9.  When two attributes of prior models hold the same Prior (the
  same id), as after tying one to the other, the instances of a
  reconstruction receive one and the same value for them. *)
Theorem tied_attributes_receive_one_value self vector recon
    (a b : string) (A B : PriorModel) (n m : string) (p q : Prior) :
  NoDup self.*1 → NoDup A.*1 → NoDup B.*1 →
  (reconstruction_for_vector erfinv self vector).2 = Ok recon →
  (a, CMModel A) ∈ self → (b, CMModel B) ∈ self →
  (n, PMPrior p) ∈ A → (m, PMPrior q) ∈ B → id p = id q →
  ∃ ia ib v,
    dict_get recon a = Some ia ∧ dict_get recon b = Some ib
    ∧ dict_get (inst_kwargs ia) n = Some (VFloat v)
    ∧ dict_get (inst_kwargs ib) m = Some (VFloat v).
Proof.
  intros Hnd HA HB Hrec Ha Hb Hn Hm Hid.
  unfold reconstruction_for_vector in Hrec.
  destruct (arguments_for_vector erfinv self vector) as [arguments|] eqn:Hargs; [|done].
  pose proof (prior_models_names self Hnd) as Hnames.
  destruct (results_or_first_failure
              (fun t : string * PriorModel => PriorModel_instance_for_arguments t.2 arguments)
              (prior_models self))
    as [[insts Hall]|(pre & t & post & insts & e & Hsplit & Hpre & Ht)].
  - rewrite (reconstruct_ok _ _ insts) in Hrec by done. simpl in Hrec. injection Hrec as <-.
    assert (length insts = length (prior_models self)) as Hlen
      by (symmetry; by eapply Forall2_length).
    assert (NoDup (zip (prior_models self).*1 insts).*1) as Hnz.
    { rewrite fst_zip; [done|]. rewrite length_fmap. lia. }
    assert (∀ name pm, (name, CMModel pm) ∈ self →
              ∃ inst, PriorModel_instance_for_arguments pm arguments = Ok inst
                      ∧ dict_get (assign [] (zip (prior_models self).*1 insts)) name
                        = Some inst) as Hget.
    { intros name pm Hin. apply elem_of_prior_models in Hin.
      apply list_elem_of_lookup in Hin as [i Hi].
      destruct (Forall2_lookup_l _ _ _ _ _ Hall Hi) as (inst & Hinst & Hok).
      exists inst. split; [done|]. apply assign_get; [done|].
      apply (list_elem_of_lookup_2 _ i).
      rewrite lookup_zip_with, list_lookup_fmap, Hi. simpl. by rewrite Hinst. }
    destruct (Hget a A Ha) as (ia & Hia & Hra), (Hget b B Hb) as (ib & Hib & Hrb).
    destruct (instance_kwargs_of_Ok A arguments ia HA Hia n p Hn) as (v & Hv & Hkn).
    destruct (instance_kwargs_of_Ok B arguments ib HB Hib m q Hm) as (v' & Hv' & Hkm).
    rewrite (dict_get_same_id arguments p q) in Hv' by done.
    assert (v' = v) as -> by congruence.
    by exists ia, ib, v.
  - rewrite Hsplit, (reconstruct_fails _ _ _ _ insts e) in Hrec by done. done.
Qed.

End reconstruction.

End ReconstructionFacts.

(** ** Properties of building a mapper *)

Module BuildFacts.
Import Py Prior PyFacts PriorFacts ReconstructionFacts.

Lemma str_of_nat_inj n m : str_of_nat n = str_of_nat m → n = m.
Proof.
  unfold str_of_nat. intros Heq.
  assert (Nat.to_uint n = Nat.to_uint m) as Hu.
  { apply (f_equal NilEmpty.uint_of_string) in Heq.
    rewrite !NilEmpty.usu in Heq. by injection Heq. }
  by apply DecimalNat.Unsigned.to_uint_inj.
Qed.

Lemma append_inj_r (s t u : string) : s +:+ t = s +:+ u → t = u.
Proof. induction s as [|a s IH]; simpl; [done|]. intros [= Heq]. by apply IH. Qed.

(** The attribute names of a tuple prior: [arg_0], [arg_1], ... *)
Definition element_name (arg : string) (i : nat) : string := arg +:+ "_" +:+ str_of_nat i.

Lemma element_name_inj arg i j : element_name arg i = element_name arg j → i = j.
Proof.
  unfold element_name. intros Heq. apply append_inj_r in Heq.
  apply append_inj_r in Heq. by apply str_of_nat_inj.
Qed.

Lemma element_names_NoDup arg (indices : list nat) :
  NoDup indices → NoDup (element_name arg <$> indices).
Proof. intros Hnd. apply NoDup_fmap_2; [|done]. intros i j. apply element_name_inj. Qed.

Section building.
Context `{DictOrder} `{Prior.ConfigParser parser}.
Variable float : string → result R.
Implicit Types (self : ClassMap parser) (st : building parser) (pm : PriorModel)
  (tp : TuplePrior).

(** Two states of a mapper that differ at most in the config. *)
Definition same_models self self' : Prop :=
  self'.*1 = self.*1
  ∧ kept_slots self' = kept_slots self
  ∧ ∀ k, k ≠ "config" → dict_get self' k = dict_get self k.

Lemma same_models_refl self : same_models self self.
Proof. by repeat split. Qed.

Lemma same_models_trans self1 self2 self3 :
  same_models self1 self2 → same_models self2 self3 → same_models self1 self3.
Proof.
  intros (Hk & Hs & Hg) (Hk' & Hs' & Hg'). split_and!; [congruence..|].
  intros k Hne. by rewrite Hg', Hg.
Qed.

Lemma same_models_config self c c' :
  dict_get self "config" = Some (CMConfig c) →
  same_models self (dict_set self "config" (CMConfig c')).
Proof.
  intros Hget. split_and!.
  - apply dict_set_keys. apply dict_get_elem_of in Hget.
    apply (list_elem_of_fmap_2 fst _ _ Hget).
  - induction self as [|[k v] self IH]; simpl in *; [done|].
    destruct (String.eqb k "config") eqn:Hk.
    + injection Hget as ->. done.
    + unfold kept_slots in *. simpl. by rewrite IH.
  - intros k Hne. rewrite dict_get_set. destruct (String.eqb "config" k) eqn:Hk; [|done].
    apply String.eqb_eq in Hk. congruence.
Qed.

(** What code that builds priors does to the mapper and to the counter. *)
Definition frames {A} (m : stateful (building parser) A) : Prop :=
  ∀ st, same_models st.1 (m st).1.1 ∧ st.2 <= (m st).1.2.

Lemma frames_sret {A} (a : A) : frames (sret a).
Proof. intros st. split; [apply same_models_refl|done]. Qed.

Lemma frames_sraise {A} e : frames (sraise (A := A) e).
Proof. intros st. split; [apply same_models_refl|done]. Qed.

Lemma frames_sbind {A B} (m : stateful (building parser) A)
    (k : A → stateful (building parser) B) :
  frames m → (∀ a, frames (k a)) → frames (sbind m k).
Proof.
  intros Hm Hk st. unfold sbind. destruct (Hm st) as [Hs Hn].
  destruct (m st) as [st' [a|e]]; simpl in *; [|done].
  destruct (Hk a st') as [Hs' Hn']. split; [by eapply same_models_trans|lia].
Qed.

Lemma frames_new_prior d : frames (new_prior d).
Proof. intros [self n]. simpl. split; [apply same_models_refl|lia]. Qed.

Lemma frames_config_lookup attribute_name cls :
  frames (config_lookup float attribute_name cls).
Proof.
  intros [self n]. unfold config_lookup.
  destruct (dict_get self "config") as [[config|]|] eqn:Hget;
    try (split; [apply same_models_refl|done]).
  destruct (get_for_nearest_ancestor _ _ _ _) as [config' r]. simpl.
  split; [by eapply same_models_config|done].
Qed.

Lemma frames_make_prior attribute_name cls : frames (make_prior float attribute_name cls).
Proof.
  unfold make_prior. apply frames_sbind; [apply frames_config_lookup|].
  intros [tag [|a [|b xs]]]; simpl; repeat case_match;
    repeat first [ apply frames_sraise | apply frames_sret
                 | apply frames_sbind; [apply frames_new_prior|intros ?] ].
Qed.

Lemma frames_tuple_prior_for arg cls indices tp :
  frames (tuple_prior_for float arg cls indices tp).
Proof.
  revert tp. induction indices as [|i indices IH]; intros tp; simpl.
  - apply frames_sret.
  - apply frames_sbind; [apply frames_make_prior|]. intros p. apply IH.
Qed.

Lemma frames_prior_model_for cls defaults args pm :
  frames (prior_model_for float cls defaults args pm).
Proof.
  revert pm. induction args as [|arg args IH]; intros pm; simpl.
  - apply frames_sret.
  - apply frames_sbind; [|intros v; apply IH].
    destruct (dict_get defaults arg) as [[x|xs|]|];
      (apply frames_sbind;
       [first [apply frames_make_prior | apply frames_tuple_prior_for]
       |intros ?; apply frames_sret]).
Qed.

(** [make_prior] makes at most one Prior, with the id the counter shows. *)
Lemma make_prior_id attribute_name cls st st' p :
  make_prior float attribute_name cls st = (st', Ok p) →
  match p with
  | Some p => id p = st.2 ∧ st'.2 = S st.2 ∧ dist p ≠ Plain
  | None => st'.2 = st.2
  end.
Proof.
  unfold make_prior, sbind.
  pose proof (frames_config_lookup attribute_name cls st) as [_ Hle].
  assert ((config_lookup float attribute_name cls st).1.2 = st.2) as Hn.
  { destruct st as [self n]. unfold config_lookup.
    destruct (dict_get self "config") as [[config|]|]; try done.
    by destruct (get_for_nearest_ancestor _ _ _ _). }
  destruct (config_lookup float attribute_name cls st) as [[self1 n1] [[tag xs]|e]];
    [|done]. simpl in *. subst n1.
  destruct (String.eqb tag "u").
  - destruct xs as [|a [|b xs]]; try done. unfold new_prior, sret. simpl.
    intros [= <- <-]. done.
  - destruct (String.eqb tag "g").
    + destruct xs as [|a [|b xs]]; try done. unfold new_prior, sret. simpl.
      intros [= <- <-]. done.
    + unfold sret. by intros [= <- <-].
Qed.

Definition tuple_kept tp : list (string * Prior) :=
  omap (fun t => match t.2 with TPPrior p => Some (t.1, p) | _ => None end) tp.

Lemma string_dict_set_fresh {V} (d : dict string V) k v :
  k ∉ d.*1 → dict_set d k v = d ++ [(k, v)].
Proof. apply (dict_set_fresh (fun s => s) string_key_spec). Qed.

Lemma seq_from_counter (n n' : nat) : S n <= n' → seq n (n' - n) = n :: seq (S n) (n' - S n).
Proof. intros Hle. replace (n' - n) with (S (n' - S n)) by lia. done. Qed.

Lemma tuple_prior_for_ok arg cls indices tp st st' tp' :
  NoDup indices →
  (∀ i, i ∈ indices → element_name arg i ∉ tp.*1) →
  tuple_prior_for float arg cls indices tp st = (st', Ok tp') →
  ∃ new, tp' = tp ++ new
    ∧ new.*1 = element_name arg <$> indices
    ∧ ids (tuple_kept new) = seq st.2 (st'.2 - st.2)
    ∧ Forall (fun e => dist e.2 ≠ Plain) (tuple_kept new).
Proof.
  revert tp st. induction indices as [|i indices IH]; intros tp st Hnd Hfresh; simpl.
  - unfold sret. intros [= <- <-]. exists []. rewrite app_nil_r, Nat.sub_diag.
    split_and!; first [done|constructor].
  - apply NoDup_cons in Hnd as [Hi Hnd].
    unfold sbind at 1. fold (element_name arg i).
    destruct (make_prior float (element_name arg i) cls st) as [st1 [p|e]] eqn:Hmake; [|done].
    intros Hrest.
    pose proof (frames_tuple_prior_for arg cls indices
                  (dict_set tp (element_name arg i) (from_option TPPrior TPOther p)) st1)
      as [_ Hle].
    rewrite Hrest in Hle. simpl in Hle.
    rewrite string_dict_set_fresh in Hrest by (apply Hfresh; left).
    apply IH in Hrest as (new & -> & Hnames & Hids & Hdist); [|done|].
    + exists ((element_name arg i, from_option TPPrior TPOther p) :: new).
      rewrite <- app_assoc. split_and!; [done|by csimpl; f_equal|..].
      * apply make_prior_id in Hmake. destruct p as [p|]; simpl in *.
        -- destruct Hmake as (Hid & Hn & _). rewrite Hn in Hids, Hle.
           rewrite seq_from_counter by done. unfold ids in *. csimpl. by rewrite Hid, Hids.
        -- by rewrite <- Hmake.
      * apply make_prior_id in Hmake. destruct p as [p|]; simpl; [|done].
        constructor; [|done]. by destruct Hmake as (_ & _ & ?).
    + intros j Hj. rewrite fmap_app, not_elem_of_app. split; [apply Hfresh; by right|].
      simpl. rewrite list_elem_of_singleton. intros Heq.
      apply element_name_inj in Heq. by subst.
Qed.

(** The value [add_class] stores for an argument. *)
Definition argument_value arg (defaults : dict string pyval) (v : pm_value) : Prop :=
  match dict_get defaults arg with
  | Some (VTuple xs) =>
      ∃ tp, v = PMTuple tp ∧ tp.*1 = element_name arg <$> seq 0 (length xs)
  | _ => v = PMNone ∨ ∃ p, v = PMPrior p
  end.

Lemma prior_model_for_ok cls defaults args pm st st' pm' :
  NoDup args →
  (∀ a, a ∈ args → a ∉ pm.*1) →
  prior_model_for float cls defaults args pm st = (st', Ok pm') →
  ∃ new, pm' = pm ++ new
    ∧ new.*1 = args
    ∧ Forall (fun e => argument_value e.1 defaults e.2) new
    ∧ ids (kept_priors new) = seq st.2 (st'.2 - st.2)
    ∧ Forall (fun e => dist e.2 ≠ Plain) (kept_priors new).
Proof.
  revert pm st. induction args as [|arg args IH]; intros pm st Hnd Hfresh; simpl.
  - unfold sret. intros [= <- <-]. exists []. rewrite app_nil_r, Nat.sub_diag.
    split_and!; first [done|constructor].
  - apply NoDup_cons in Hnd as [Harg Hnd].
    unfold sbind at 1.
    set (step := match dict_get defaults arg with
                 | Some (VTuple xs) => _ | _ => _ end).
    destruct (step st) as [st1 [v|e]] eqn:Hstep; [|done].
    intros Hrest.
    pose proof (frames_prior_model_for cls defaults args (dict_set pm arg v) st1) as [_ Hle].
    rewrite Hrest in Hle. simpl in Hle.
    rewrite string_dict_set_fresh in Hrest by (apply Hfresh; left).
    apply IH in Hrest as (new & -> & Hnames & Hvals & Hids & Hdist); [|done|].
    2:{ intros a Ha. rewrite fmap_app, not_elem_of_app. split; [apply Hfresh; by right|].
        simpl. rewrite list_elem_of_singleton. intros ->. done. }
    assert (argument_value arg defaults v
            ∧ ids (entry_priors (arg, v)) = seq st.2 (st1.2 - st.2)
            ∧ st.2 <= st1.2
            ∧ Forall (fun e => dist e.2 ≠ Plain) (entry_priors (arg, v)))
      as (Hv & Hidv & Hle1 & Hdv).
    { unfold argument_value. subst step.
      destruct (dict_get defaults arg) as [[x|xs|]|] eqn:Hdef.
      2:{ unfold sbind in Hstep.
          destruct (tuple_prior_for float arg cls (seq 0 (length xs)) [] st)
            as [st2 [tp|e]] eqn:Htp; [|done].
          unfold sret in Hstep. injection Hstep as <- <-.
          pose proof (frames_tuple_prior_for arg cls (seq 0 (length xs)) [] st) as [_ Hm].
          rewrite Htp in Hm. simpl in Hm.
          apply tuple_prior_for_ok in Htp as (new' & -> & Hn' & Hi' & Hd');
            [|apply NoDup_seq|intros; apply not_elem_of_nil].
          split_and!; [by exists new'|done..]. }
      all: unfold sbind in Hstep;
        destruct (make_prior float arg cls st) as [st2 [p|e]] eqn:Hmake; [|done];
        unfold sret in Hstep; injection Hstep as <- <-;
        apply make_prior_id in Hmake; destruct p as [p|]; simpl in *.
      all: try (destruct Hmake as (Hid & -> & Hp);
                replace (S st.2 - st.2) with 1 by lia;
                split_and!; [right; by exists p|by rewrite <- Hid|lia|by repeat constructor]).
      all: rewrite Hmake, Nat.sub_diag; split_and!; [by left|done|done|constructor]. }
    exists ((arg, v) :: new). rewrite <- app_assoc. split_and!; [done|by csimpl; f_equal|..].
    + by constructor.
    + change (kept_priors ((arg, v) :: new)) with (entry_priors (arg, v) ++ kept_priors new).
      unfold ids in *. rewrite fmap_app, Hidv, Hids.
      replace (st'.2 - st.2) with ((st1.2 - st.2) + (st'.2 - st1.2)) by lia.
      rewrite seq_app. do 2 f_equal. lia.
    + change (kept_priors ((arg, v) :: new)) with (entry_priors (arg, v) ++ kept_priors new).
      by apply Forall_app.
Qed.

Lemma seq_strictly_sorted (n k : nat) : StronglySorted lt (seq n k).
Proof.
  revert n. induction k as [|k IH]; intros n; simpl; constructor; [apply IH|].
  apply Forall_forall. intros i Hi. apply elem_of_seq in Hi. lia.
Qed.

(** The ids that [priors] returns are those of the places holding a Prior. *)
Lemma prior_ids_of_kept self (l : list nat) :
  StronglySorted lt l → (∀ i, i ∈ l ↔ i ∈ ids (kept_slots self)) → prior_ids self = l.
Proof.
  intros Hl Hmem. apply strictly_sorted_unique; [by destruct (priors_spec self)|done|].
  intros i. rewrite prior_ids_slots, Hmem. unfold ids. by rewrite (slots_perm self).
Qed.

Lemma same_models_prior_ids self self' : same_models self self' → prior_ids self' = prior_ids self.
Proof.
  intros (_ & Hkept & _). apply prior_ids_of_kept; [by destruct (priors_spec self)|].
  intros i. rewrite prior_ids_slots, Hkept. unfold ids. by rewrite (slots_perm self).
Qed.

Lemma kept_slots_app self1 self2 : kept_slots (self1 ++ self2) = kept_slots self1 ++ kept_slots self2.
Proof. unfold kept_slots. apply flat_map_app. Qed.

(** What a successful [add_class] leaves: the mapper, up to its config,
    with the new prior model under [name]. *)
Lemma add_class_ok_model name cls st st' :
  NoDup (tail (cls_args cls)) → "cls" ∉ tail (cls_args cls) →
  add_class float name cls st = (st', Ok ()) →
  ∃ self1 new,
    same_models st.1 self1
    ∧ st'.1 = dict_set self1 name (CMModel (PriorModel_init cls ++ new))
    ∧ new.*1 = tail (cls_args cls)
    ∧ Forall (fun e => argument_value e.1 (arg_defaults cls) e.2) new
    ∧ ids (kept_priors new) = seq st.2 (st'.2 - st.2)
    ∧ Forall (fun e => dist e.2 ≠ Plain) (kept_priors new)
    ∧ st.2 <= st'.2.
Proof.
  intros Hargs Hcls. unfold add_class, sbind.
  pose proof (frames_prior_model_for cls (arg_defaults cls) (tail (cls_args cls))
                (PriorModel_init cls) st) as [Hsame Hle].
  destruct (prior_model_for _ _ _ _ _ st) as [[self1 n1] [pm|e]] eqn:Hpm; [|done].
  intros [= <-]. simpl in *.
  apply prior_model_for_ok in Hpm as (new & -> & Hnames & Hvals & Hids & Hdist); [|done|].
  - by exists self1, new.
  - intros a Ha. simpl. rewrite list_elem_of_singleton. intros ->. done.
Qed.

Lemma add_class_kept_slots name cls st st' :
  name ∉ st.1.*1 →
  NoDup (tail (cls_args cls)) → "cls" ∉ tail (cls_args cls) →
  add_class float name cls st = (st', Ok ()) →
  st.2 <= st'.2
  ∧ st'.1.*1 = st.1.*1 ++ [name]
  ∧ (∃ added, kept_slots st'.1 = kept_slots st.1 ++ added
       ∧ ids added = seq st.2 (st'.2 - st.2)
       ∧ Forall (fun e => dist e.2 ≠ Plain) added).
Proof.
  intros Hname Hargs Hcls Hadd.
  apply add_class_ok_model in Hadd
    as (self1 & new & (Hkeys & Hkept & _) & Hst & _ & _ & Hids & Hdist & Hle); [|done..].
  rewrite string_dict_set_fresh in Hst by (by rewrite Hkeys).
  split_and!; [done|..].
  - rewrite Hst, fmap_app, Hkeys. done.
  - exists (kept_priors new). rewrite Hst, kept_slots_app, Hkept.
    unfold kept_slots at 2. simpl. rewrite app_nil_r.
    change (kept_priors (PriorModel_init cls ++ new)) with (kept_priors new). done.
Qed.

(** X4.  An [add_class] that raises registers nothing: the attributes
  of the mapper other than its config are what they were, and [priors]
  returns the same ids.  The counter of ids does not go back: the ids
  given to Priors made before the failure are spent. *)
Theorem add_class_failure_keeps_models name cls st st' e :
  add_class float name cls st = (st', Raise e) →
  st'.1.*1 = st.1.*1
  ∧ (∀ k, k ≠ "config" → dict_get st'.1 k = dict_get st.1 k)
  ∧ prior_ids st'.1 = prior_ids st.1
  ∧ st.2 <= st'.2.
Proof.
  unfold add_class, sbind.
  pose proof (frames_prior_model_for cls (arg_defaults cls) (tail (cls_args cls))
                (PriorModel_init cls) st) as [Hsame Hle].
  destruct (prior_model_for _ _ _ _ _ st) as [[self1 n1] [pm|e']] eqn:Hpm; [done|].
  intros [= <- <-]. simpl in *. split_and!; [by destruct Hsame| |by apply same_models_prior_ids|done].
  by destruct Hsame as (_ & _ & ?).
Qed.

(** The prior model that [add_class] registers, and the frame. *)
Lemma add_class_model_at name cls st st' :
  NoDup (tail (cls_args cls)) → "cls" ∉ tail (cls_args cls) →
  add_class float name cls st = (st', Ok ()) →
  ∃ pm,
    dict_get st'.1 name = Some (CMModel pm)
    ∧ dict_get pm "cls" = Some (PMClass cls)
    ∧ (∀ k, k ≠ name → k ≠ "config" → dict_get st'.1 k = dict_get st.1 k).
Proof.
  intros Hargs Hcls Hadd.
  apply add_class_ok_model in Hadd
    as (self1 & new & (Hkeys & Hkept & Hget) & Hst & Hnames & Hvals & _); [|done..].
  exists (PriorModel_init cls ++ new). split_and!.
  - rewrite Hst, dict_get_set. by rewrite String.eqb_refl.
  - done.
  - intros k Hk Hconfig. rewrite Hst, dict_get_set.
    destruct (String.eqb name k) eqn:Heq; [apply String.eqb_eq in Heq; congruence|].
    by apply Hget.
Qed.


(** X3.  An [add_class] under a new name adds to the places holding a
  Prior exactly Priors with the ids from the counter before the call up
  to the counter after it.  So if every id of the mapper was below the
  counter, it still is, and if no Prior was shared, none is. *)
Theorem add_class_makes_fresh_priors name cls st st' :
  name ∉ st.1.*1 →
  NoDup (tail (cls_args cls)) → "cls" ∉ tail (cls_args cls) →
  add_class float name cls st = (st', Ok ()) →
  st.2 <= st'.2
  ∧ ids (slots st'.1) ≡ₚ ids (slots st.1) ++ seq st.2 (st'.2 - st.2)
  ∧ ((∀ i, i ∈ ids (slots st.1) → i < st.2) →
     (∀ i, i ∈ ids (slots st'.1) → i < st'.2)
     ∧ (NoDup (ids (slots st.1)) → NoDup (ids (slots st'.1)))).
Proof.
  intros Hname Hargs Hcls Hadd.
  apply add_class_kept_slots in Hadd as (Hle & _ & added & Hkept & Hids & _); [|done..].
  assert (ids (slots st'.1) ≡ₚ ids (slots st.1) ++ seq st.2 (st'.2 - st.2)) as Hperm.
  { unfold ids. rewrite !slots_perm, Hkept, fmap_app. by rewrite <- Hids. }
  split_and!; [done..|]. intros Hold. split.
  - intros i. rewrite Hperm, elem_of_app, elem_of_seq. intros [Hi|Hi]; [|lia].
    specialize (Hold i Hi). lia.
  - intros Hnd. rewrite Hperm. apply NoDup_app. split_and!; [done| |apply NoDup_seq].
    intros i Hi. rewrite elem_of_seq. specialize (Hold i Hi). lia.
Qed.

Lemma smap_add_class (l : list (string * pyclass)) st st' us :
  NoDup l.*1 → "config" ∉ l.*1 →
  (∀ n, n ∈ l.*1 → n ∉ st.1.*1) →
  (∀ name cls, (name, cls) ∈ l →
     NoDup (tail (cls_args cls)) ∧ "cls" ∉ tail (cls_args cls)) →
  smap (fun t => add_class float t.1 t.2) l st = (st', Ok us) →
  st.2 <= st'.2
  ∧ st'.1.*1 = st.1.*1 ++ l.*1
  ∧ (∃ added, kept_slots st'.1 = kept_slots st.1 ++ added
       ∧ ids added = seq st.2 (st'.2 - st.2)
       ∧ Forall (fun e => dist e.2 ≠ Plain) added)
  ∧ (∀ name cls, (name, cls) ∈ l →
       ∃ pm, dict_get st'.1 name = Some (CMModel pm)
             ∧ dict_get pm "cls" = Some (PMClass cls))
  ∧ (∀ k, k ∉ l.*1 → k ≠ "config" → dict_get st'.1 k = dict_get st.1 k).
Proof.
  revert st us. induction l as [|[name cls] l IH]; intros st us Hnd Hconfig Hfresh Hargs; simpl.
  - unfold sret. intros [= <- <-]. rewrite app_nil_r, Nat.sub_diag.
    split_and!; [done..| | |done].
    + exists []. by rewrite app_nil_r.
    + intros name cls Hin. by apply elem_of_nil in Hin.
  - apply NoDup_cons in Hnd as [Hname Hnd].
    rewrite fmap_cons, not_elem_of_cons in Hconfig. destruct Hconfig as [Hnc Hconfig].
    unfold sbind at 1.
    destruct (add_class float name cls st) as [st1 [[]|e]] eqn:Hadd; [|done].
    unfold sbind at 1.
    destruct (smap _ l st1) as [st2 [us'|e]] eqn:Hrest; [|done].
    unfold sret. intros [= <- <-].
    destruct (Hargs name cls) as [Ha Hc]; [left|].
    pose proof (add_class_model_at name cls st st1 Ha Hc Hadd)
      as (pm & Hpm & Hcls & Hframe).
    apply add_class_kept_slots in Hadd as (Hle & Hkeys & added & Hkept & Hids & Hdist);
      [|apply Hfresh; left|done..].
    apply IH in Hrest as (Hle' & Hkeys' & (added' & Hkept' & Hids' & Hdist') & Hget' & Hframe');
      [|done|done| |].
    + split_and!; [lia|..].
      * rewrite Hkeys', Hkeys, <- app_assoc. done.
      * exists (added ++ added'). rewrite Hkept', Hkept, <- app_assoc.
        split_and!; [done| |by apply Forall_app].
        unfold ids in *. rewrite fmap_app, Hids, Hids'.
        replace (st2.2 - st.2) with ((st1.2 - st.2) + (st2.2 - st1.2)) by lia.
        rewrite seq_app. do 2 f_equal. lia.
      * intros name' cls' Hin. apply elem_of_cons in Hin as [[= -> ->]|Hin]; [|by apply Hget'].
        exists pm. split; [|done]. rewrite Hframe'; [done..|]. simpl in Hnc. congruence.
      * intros k Hk Hkc. apply not_elem_of_cons in Hk as [Hk1 Hk2].
        rewrite Hframe', Hframe; done.
    + intros n Hn. rewrite Hkeys, not_elem_of_app. split; [apply Hfresh; by right|].
      rewrite list_elem_of_singleton. intros ->. done.
    + intros name' cls' Hin. apply (Hargs name'). by right.
Qed.

(** X1.  A mapper made by [ClassMap(config, **classes)] holds a prior
  model for every class, under its name; [priors] returns exactly the ids
  from the counter before the call up to the counter after it, in order;
  no Prior is shared between two places, and none is of the base class. *)
Theorem ClassMap_init_prior_ids (module_path : string) (config : option (Config parser))
    (classes : dict string pyclass) st0 self (n1 : nat) :
  NoDup classes.*1 → "config" ∉ classes.*1 →
  (∀ name cls, (name, cls) ∈ classes →
     NoDup (tail (cls_args cls)) ∧ "cls" ∉ tail (cls_args cls)) →
  ClassMap_init float module_path config classes st0 = ((self, n1), Ok ()) →
  st0.2 <= n1
  ∧ prior_ids self = seq st0.2 (n1 - st0.2)
  ∧ NoDup (ids (slots self))
  ∧ (∀ n p, owns self n p → dist p ≠ Plain)
  ∧ (∀ name cls, (name, cls) ∈ classes →
       ∃ pm, dict_get self name = Some (CMModel pm)
             ∧ dict_get pm "cls" = Some (PMClass cls)).
Proof.
  intros Hnd Hconfig Hargs. destruct st0 as [self0 n0]. unfold ClassMap_init, sbind.
  match goal with
  | |- context [smap ?f ?l ?s] => destruct (smap f l s) as [st1 [us|e]] eqn:Hsmap
  end; [|done].
  unfold sret. intros [= ->].
  assert (iteritems classes ≡ₚ classes) as Hperm by apply dict_order_perm.
  apply smap_add_class in Hsmap
    as (Hle & Hkeys & (added & Hkept & Hids & Hdist) & Hget & _).
  - simpl in *. split_and!; [done|..].
    + apply prior_ids_of_kept; [apply seq_strictly_sorted|]. intros i.
      by rewrite Hkept, <- Hids.
    + unfold ids. rewrite slots_perm, Hkept. fold (ids added). rewrite Hids. apply NoDup_seq.
    + intros n p Hown. apply elem_of_slots in Hown. rewrite slots_perm, Hkept in Hown.
      rewrite Forall_forall in Hdist. apply (Hdist (n, p) Hown).
    + intros name cls Hin. apply Hget. by rewrite Hperm.
  - by rewrite Hperm.
  - by rewrite Hperm.
  - intros n Hn. rewrite Hperm in Hn. simpl. rewrite list_elem_of_singleton. intros ->. done.
  - intros name cls Hin. apply (Hargs name). by rewrite <- Hperm.
Qed.

End building.
End BuildFacts.


(** ** Properties of the pipeline when a step fails *)

Module RunFacts.
Import Py Prior Pipeline PyFacts PipelineFacts.

Section failing_stage.
Context {W Image Mask Pixelization Instrumentation Galaxies : Type}.
Context {ModelStage HyperStage ModelResult HyperResult : Type}.
Variable model_run :
  ModelStage → Image → Mask → Pixelization → Instrumentation → stateful W ModelResult.
Variable hyper_run :
  HyperStage → Image → Mask → Galaxies → Galaxies → stateful W HyperResult.
Variables lens_galaxies source_galaxies : ModelResult → Galaxies.
Variable pixelization : HyperResult → Pixelization.
Variable instrumentation : HyperResult → Instrumentation.

Abbreviation run_from := (run_from model_run hyper_run lens_galaxies source_galaxies
                            pixelization instrumentation).
Abbreviation stages := (stages model_run hyper_run lens_galaxies source_galaxies
                          pixelization instrumentation).

(** The pixelization and instrumentation in use after some stages: those
    of the last hyperparameter result, or the initial ones. *)
Definition current (pix : Pixelization) (instr : Instrumentation) (hrs : list HyperResult)
    : Pixelization * Instrumentation :=
  match last hrs with
  | Some hr => (pixelization hr, instrumentation hr)
  | None => (pix, instr)
  end.

Lemma current_cons pix instr hr hrs :
  current pix instr (hr :: hrs) = current (pixelization hr) (instrumentation hr) hrs.
Proof. unfold current. rewrite last_cons. by destruct (last hrs). Qed.

Lemma run_from_after self image mask pre rest pix instr acc_m acc_h w mrs hrs w1 :
  stages (hyperparameter_analysis self) image mask w pix instr pre mrs hrs w1 →
  run_from self image mask (pre ++ rest) pix instr acc_m acc_h w
  = run_from self image mask rest (current pix instr hrs).1 (current pix instr hrs).2
      (acc_m ++ mrs) (acc_h ++ hrs) w1.
Proof.
  intros Hst. revert acc_m acc_h.
  induction Hst as [w pix instr|w w1 w2 w3 pix instr ma mas mr hr mrs hrs Hm Hh _ IH];
    intros acc_m acc_h.
  - by rewrite !app_nil_r.
  - simpl. unfold sbind at 1. rewrite Hm. unfold sbind at 1. rewrite Hh.
    rewrite IH, current_cons, <- !app_assoc. done.
Qed.

(** X13.  The pipeline stops at the first run that raises.  After the
  stages before it have run, an exception of the model analysis of a
  stage, or of the hyperparameter analysis that follows it, is the
  outcome of [MainPipeline.run]: the results of the earlier stages are
  not returned, no later analysis is run, and the state is the one the
  failing run left. *)
Theorem MainPipeline_run_stops_at_first_failure
    (self : MainPipeline (ModelStage := ModelStage)) (image : Image) (mask : Mask)
    (pix : Pixelization) (instr : Instrumentation) (w w1 : W)
    (pre : list ModelStage) (ma : ModelStage) (post : list ModelStage)
    (mrs : list ModelResult) (hrs : list HyperResult) :
  model_analyses self = pre ++ ma :: post →
  stages (hyperparameter_analysis self) image mask w pix instr pre mrs hrs w1 →
  (∀ w2 e,
     model_run ma image mask (current pix instr hrs).1 (current pix instr hrs).2 w1
     = (w2, Raise e) →
     MainPipeline_run model_run hyper_run lens_galaxies source_galaxies
       pixelization instrumentation self image mask pix instr w = (w2, Raise e))
  ∧ (∀ w2 mr w3 e,
       model_run ma image mask (current pix instr hrs).1 (current pix instr hrs).2 w1
       = (w2, Ok mr) →
       hyper_run (hyperparameter_analysis self) image mask
         (lens_galaxies mr) (source_galaxies mr) w2 = (w3, Raise e) →
       MainPipeline_run model_run hyper_run lens_galaxies source_galaxies
         pixelization instrumentation self image mask pix instr w = (w3, Raise e)).
Proof.
  intros Hsplit Hst. unfold MainPipeline_run. rewrite Hsplit.
  rewrite (run_from_after _ _ _ _ _ _ _ _ _ _ _ _ _ Hst). simpl. split.
  - intros w2 e Hm. unfold sbind at 1. by rewrite Hm.
  - intros w2 mr w3 e Hm Hh. unfold sbind at 1. rewrite Hm. unfold sbind at 1. by rewrite Hh.
Qed.

End failing_stage.
Section partial.
Context `{DictOrder} `{Prior.ConfigParser parser}.
Variable float : string → result R.

(** X16.  When the pixelization class can be added to the mapper and the
  instrumentation class cannot, constructing a [HyperparameterAnalysis]
  raises the exception of the second [add_class], and the mapper, which
  is the shared default when none was passed, keeps the prior model
  built for the pixelization class; what it had under [instrumentation]
  is unchanged. *)
Theorem HyperparameterAnalysis_init_leaves_pixelization (d : defaults)
    (pixelization_class instrumentation_class : pyclass)
    (model_mapper non_linear_optimizer : option nat) (w : world parser)
    (mapper : ClassMap parser) (st1 st2 : building parser) (e : exn) :
  mappers w !! default (HyperparameterAnalysis_model_mapper d) model_mapper = Some mapper →
  add_class float "pixelization" pixelization_class (mapper, prior_number w) = (st1, Ok ()) →
  add_class float "instrumentation" instrumentation_class st1 = (st2, Raise e) →
  ∃ w',
    HyperparameterAnalysis_init float d pixelization_class instrumentation_class
      model_mapper non_linear_optimizer w = (w', Raise e)
    ∧ mappers w' !! default (HyperparameterAnalysis_model_mapper d) model_mapper = Some st2.1
    ∧ prior_number w' = st2.2
    ∧ (∃ pm, dict_get st2.1 "pixelization" = Some (CMModel pm)
             ∧ built_for float pixelization_class pm)
    ∧ dict_get st2.1 "instrumentation" = dict_get mapper "instrumentation".
Proof.
  intros Hmapper Hpix Hins. unfold HyperparameterAnalysis_init.
  set (address := default (HyperparameterAnalysis_model_mapper d) model_mapper) in *.
  unfold sbind at 1. unfold at_mapper at 1. rewrite Hmapper, Hpix.
  destruct st1 as [mapper1 n1]. unfold sbind at 1. unfold at_mapper at 1. simpl.
  rewrite list_lookup_insert_eq by (by eapply lookup_lt_Some).
  rewrite Hins. destruct st2 as [mapper2 n2]. simpl.
  eexists. split; [done|]. simpl. split_and!.
  - rewrite list_lookup_insert_eq; [done|]. rewrite length_insert. by eapply lookup_lt_Some.
  - done.
  - apply add_class_ok in Hpix as (pm & Hbuilt & Hget & _). simpl in Hget.
    exists pm. split; [|done].
    pose proof (keeps_models_prior_model_for float instrumentation_class
                  (arg_defaults instrumentation_class) (tail (cls_args instrumentation_class))
                  (PriorModel_init instrumentation_class) (mapper1, n1) "pixelization")
      as Hkeep.
    unfold add_class, sbind in Hins.
    destruct (prior_model_for _ _ _ _ _ (mapper1, n1)) as [[m' n'] [pm'|e']]; [done|].
    injection Hins as -> -> ->. simpl in Hkeep. by rewrite Hkeep.
  - pose proof (keeps_models_prior_model_for float instrumentation_class
                  (arg_defaults instrumentation_class) (tail (cls_args instrumentation_class))
                  (PriorModel_init instrumentation_class) (mapper1, n1) "instrumentation")
      as Hkeep.
    unfold add_class, sbind in Hins.
    destruct (prior_model_for _ _ _ _ _ (mapper1, n1)) as [[m' n'] [pm'|e']]; [done|].
    injection Hins as -> -> ->. simpl in Hkeep. rewrite Hkeep by done.
    apply add_class_ok in Hpix as (_ & _ & _ & Hframe). simpl in Hframe.
    by apply Hframe.
Qed.

End partial.
End RunFacts.

(** ** Properties of the attributes of an Analysis *)

Module AnalysisFacts.
Import Py Prior Pipeline PyFacts PipelineFacts.

Section attributes.
Context `{DictOrder}.
Implicit Types (self : Analysis) (kwargs : dict string pyobj).

Lemma dict_get_cons {V} (k0 : string) (v0 : V) (d : dict string V) (k : string) :
  dict_get ((k0, v0) :: d) k = if String.eqb k0 k then Some v0 else dict_get d k.
Proof. reflexivity. Qed.

Lemma str_in_names (k : string) (names : list string) :
  str_in k (OStr <$> names) = true ↔ k ∈ names.
Proof.
  unfold str_in. induction names as [|n names IH]; csimpl.
  - split; [done|]. intros Hin. by apply elem_of_nil in Hin.
  - rewrite orb_true_iff, IH, elem_of_cons, String.eqb_eq. split; intros [->|?]; auto.
Qed.

Lemma init_loop (l : list (string * pyobj)) self (items : list pyobj) :
  NoDup l.*1 → "included_attributes" ∉ l.*1 →
  dict_get self "included_attributes" = Some (OList items) →
  ∃ self',
    foldl (fun acc kv => self ← acc; append_included (dict_set self kv.1 kv.2) kv.1)
      (Ok self) l = Ok self'
    ∧ dict_get self' "included_attributes" = Some (OList (items ++ (OStr <$> l.*1)))
    ∧ (∀ k v, (k, v) ∈ l → dict_get self' k = Some v)
    ∧ (∀ k, k ∉ l.*1 → k ≠ "included_attributes" → dict_get self' k = dict_get self k).
Proof.
  revert self items. induction l as [|[k v] l IH]; intros self items Hnd Hinc Hget; simpl.
  - exists self. rewrite app_nil_r. split_and!; try done.
    intros k v Hin. by apply elem_of_nil in Hin.
  - apply NoDup_cons in Hnd as [Hk Hnd]. apply not_elem_of_cons in Hinc as [Hne Hinc].
    simpl in Hne.
    unfold append_included at 2. rewrite dict_get_set.
    destruct (String.eqb k "included_attributes") eqn:Heq;
      [apply String.eqb_eq in Heq; congruence|].
    rewrite Hget.
    destruct (IH (dict_set (dict_set self k v) "included_attributes"
                    (OList (items ++ [OStr k]))) (items ++ [OStr k]) Hnd Hinc)
      as (self' & Hfold & Hitems & Hvals & Hframe).
    { rewrite dict_get_set. by rewrite String.eqb_refl. }
    exists self'. split_and!; [exact Hfold|..].
    + rewrite Hitems. csimpl. by rewrite <- app_assoc.
    + intros k' v' Hin. apply elem_of_cons in Hin as [[= -> ->]|Hin]; [|by apply Hvals].
      rewrite Hframe; [|done|congruence]. rewrite !dict_get_set.
      destruct (String.eqb "included_attributes" k) eqn:Heq';
        [apply String.eqb_eq in Heq'; congruence|]. by rewrite String.eqb_refl.
    + intros k' Hk' Hne'. apply not_elem_of_cons in Hk' as [Hk1 Hk2]. simpl in Hk1.
      rewrite Hframe by done. rewrite !dict_get_set.
      destruct (String.eqb "included_attributes" k') eqn:Heq';
        [apply String.eqb_eq in Heq'; congruence|].
      destruct (String.eqb k k') eqn:Heq''; [apply String.eqb_eq in Heq''; congruence|]. done.
Qed.

(** The instance names of the roles whose model is not among [names]. *)
Definition missing_for (names : list string) : list string :=
  omap (fun kv : string * string => if str_in kv.1 (OStr <$> names) then None else Some kv.2)
    (iteritems attribute_map).

Lemma elem_of_missing_for names role :
  role ∈ attribute_map → role.2 ∈ missing_for names ↔ role.1 ∉ names.
Proof.
  intros Hrole. unfold missing_for. rewrite list_elem_of_omap. split.
  - intros ([m i] & Hin & Hsome). rewrite elem_of_iteritems in Hin. simpl in Hsome.
    destruct (str_in m (OStr <$> names)) eqn:Hstr; [done|]. injection Hsome as ->.
    assert (m = role.1) as ->.
    { unfold attribute_map in *. destruct role as [m' i']. simpl in *.
      repeat (apply elem_of_cons in Hin as [Hin|Hin]; [injection Hin as -> ->|]);
        try (by apply elem_of_nil in Hin);
        repeat (apply elem_of_cons in Hrole as [Hrole|Hrole]; [by injection Hrole|]);
        by apply elem_of_nil in Hrole. }
    intros Hn. apply str_in_names in Hn. congruence.
  - intros Hn. exists role. rewrite elem_of_iteritems. split; [done|].
    destruct (str_in role.1 (OStr <$> names)) eqn:Hstr; [|done].
    by apply str_in_names in Hstr.
Qed.

Lemma Analysis_init_eq d model_mapper non_linear_optimizer kwargs :
  NoDup kwargs.*1 → "included_attributes" ∉ kwargs.*1 → "missing_attributes" ∉ kwargs.*1 →
  ∃ self,
    Analysis_init d model_mapper non_linear_optimizer kwargs = Ok self
    ∧ (∀ k v, (k, v) ∈ kwargs → dict_get self k = Some v)
    ∧ (∀ k, k ∉ kwargs.*1 →
         k ∉ ["model_mapper"; "non_linear_optimizer"; "included_attributes";
              "missing_attributes"] →
         dict_get self k = None)
    ∧ dict_get self "included_attributes" = Some (OList (OStr <$> (iteritems kwargs).*1))
    ∧ dict_get self "missing_attributes"
      = Some (OList (OStr <$> missing_for (iteritems kwargs).*1)).
Proof.
  intros Hnd Hinc Hmiss. unfold Analysis_init.
  assert (iteritems kwargs ≡ₚ kwargs) as Hperm by apply dict_order_perm.
  edestruct (init_loop (iteritems kwargs)
    [("model_mapper", OMapper (default (Analysis_model_mapper d) model_mapper));
     ("non_linear_optimizer",
      OOptimizer (default (Analysis_non_linear_optimizer d) non_linear_optimizer));
     ("included_attributes", OList [])] [])
    as (self' & -> & Hitems & Hvals & Hframe); [by rewrite Hperm|by rewrite Hperm|done|].
  simpl. rewrite Hitems. simpl. eexists. split; [done|]. split_and!.
  - intros k v Hin. rewrite dict_get_set.
    destruct (String.eqb "missing_attributes" k) eqn:Heq.
    + apply String.eqb_eq in Heq. subst k. exfalso. apply Hmiss.
      apply (list_elem_of_fmap_2 fst _ _ Hin).
    + apply Hvals. by rewrite Hperm.
  - intros k Hk Hfixed. rewrite dict_get_set.
    rewrite !not_elem_of_cons in Hfixed. destruct Hfixed as (H1 & H2 & H3 & H4 & _).
    destruct (String.eqb "missing_attributes" k) eqn:Heq;
      [apply String.eqb_eq in Heq; congruence|].
    rewrite Hframe; [|by rewrite Hperm|done]. rewrite !dict_get_cons.
    destruct (String.eqb "model_mapper" k) eqn:E1; [apply String.eqb_eq in E1; congruence|].
    destruct (String.eqb "non_linear_optimizer" k) eqn:E2;
      [apply String.eqb_eq in E2; congruence|].
    destruct (String.eqb "included_attributes" k) eqn:E3;
      [apply String.eqb_eq in E3; congruence|]. done.
  - rewrite dict_get_set. simpl. exact Hitems.
  - rewrite dict_get_set. by rewrite String.eqb_refl.
Qed.

(** X14.  Constructing an [Analysis] sets every keyword argument as an
  attribute, lists their names in [included_attributes] in the order of
  iteration, and lists in [missing_attributes] the instance name of
  exactly those roles whose model name is not among the keywords. *)
Theorem Analysis_init_attributes (d : defaults) (model_mapper non_linear_optimizer : option nat)
    kwargs :
  NoDup kwargs.*1 → "included_attributes" ∉ kwargs.*1 → "missing_attributes" ∉ kwargs.*1 →
  ∃ self missing,
    Analysis_init d model_mapper non_linear_optimizer kwargs = Ok self
    ∧ (∀ k v, (k, v) ∈ kwargs → dict_get self k = Some v)
    ∧ dict_get self "included_attributes" = Some (OList (OStr <$> (iteritems kwargs).*1))
    ∧ dict_get self "missing_attributes" = Some (OList (OStr <$> missing))
    ∧ (∀ role, role ∈ attribute_map → role.2 ∈ missing ↔ role.1 ∉ kwargs.*1).
Proof.
  intros Hnd Hinc Hmiss.
  destruct (Analysis_init_eq d model_mapper non_linear_optimizer kwargs Hnd Hinc Hmiss)
    as (self & Hinit & Hvals & _ & Hincl & Hmissing).
  exists self, (missing_for (iteritems kwargs).*1). split_and!; [done..|].
  intros role Hrole. rewrite (elem_of_missing_for _ _ Hrole).
  unfold iteritems. by rewrite dict_order_perm.
Qed.

Lemma role_model_name role :
  role ∈ attribute_map →
  role.1 ∉ ["model_mapper"; "non_linear_optimizer"; "included_attributes";
            "missing_attributes"].
Proof.
  unfold attribute_map. intros Hrole.
  repeat (apply elem_of_cons in Hrole as [->|Hrole];
          [simpl; rewrite !not_elem_of_cons; split_and!; [done..|apply not_elem_of_nil]|]).
  by apply elem_of_nil in Hrole.
Qed.

(** X15.  When every model passed to the constructor is a true value,
  [run] succeeds exactly when its keyword arguments contain the names of
  [missing_attributes] and no other instance name.  A model that is
  passed but false, such as an empty list of galaxy priors, is not
  listed as missing, and yet [run] succeeds only if its instance is
  given. *)
Theorem Analysis_run_needs_missing_attributes (d : defaults)
    (model_mapper non_linear_optimizer : option nat) kwargs (run_kwargs : dict string pyobj) :
  NoDup kwargs.*1 → "included_attributes" ∉ kwargs.*1 → "missing_attributes" ∉ kwargs.*1 →
  ∃ self missing,
    Analysis_init d model_mapper non_linear_optimizer kwargs = Ok self
    ∧ dict_get self "missing_attributes" = Some (OList (OStr <$> missing))
    ∧ ((∀ k v, (k, v) ∈ kwargs → truth v = true) →
       (Analysis_run self run_kwargs = Ok ()
        ↔ ∀ role, role ∈ attribute_map →
            (dict_mem run_kwargs role.2 = true ↔ role.2 ∈ missing)))
    ∧ (∀ role v, role ∈ attribute_map → (role.1, v) ∈ kwargs → truth v = false →
         (role.2 ∉ missing)
         ∧ (Analysis_run self run_kwargs = Ok () → dict_mem run_kwargs role.2 = true)).
Proof.
  intros Hnd Hinc Hmiss.
  destruct (Analysis_init_eq d model_mapper non_linear_optimizer kwargs Hnd Hinc Hmiss)
    as (self & Hinit & Hvals & Hnone & _ & Hmissing).
  exists self, (missing_for (iteritems kwargs).*1). split_and!; [done..| |].
  - intros Htrue. rewrite Analysis_run_eq, check_roles_ok, Forall_forall.
    apply forall_proper. intros role. apply forall_proper. intros Hrole.
    rewrite (elem_of_missing_for _ _ Hrole).
    assert ((iteritems kwargs).*1 ≡ₚ kwargs.*1) as ->
      by (unfold iteritems; by rewrite dict_order_perm).
    unfold exactly_one, is_model, is_instance.
    destruct (decide (role.1 ∈ kwargs.*1)) as [Hin|Hout].
    + apply list_elem_of_fmap in Hin as ([k v] & Hk & Hin). simpl in Hk. subst k.
      rewrite (Hvals _ _ Hin). simpl. rewrite (Htrue _ _ Hin).
      assert (role.1 ∈ kwargs.*1) by apply (list_elem_of_fmap_2 fst _ _ Hin).
      destruct (dict_mem run_kwargs role.2); simpl; split; try done; tauto.
    + rewrite (Hnone _ Hout (role_model_name _ Hrole)). simpl.
      destruct (dict_mem run_kwargs role.2); simpl; split; try done; tauto.
  - intros role v Hrole Hin Hfalse.
    assert (role.1 ∈ kwargs.*1) as Hkey by apply (list_elem_of_fmap_2 fst _ _ Hin).
    split.
    + rewrite (elem_of_missing_for _ _ Hrole).
      assert ((iteritems kwargs).*1 ≡ₚ kwargs.*1) as ->
        by (unfold iteritems; by rewrite dict_order_perm).
      tauto.
    + rewrite Analysis_run_eq, check_roles_ok, Forall_forall. intros Hall.
      specialize (Hall role Hrole). unfold exactly_one, is_model, is_instance in Hall.
      rewrite (Hvals _ _ Hin) in Hall. simpl in Hall. rewrite Hfalse in Hall. done.
Qed.

End attributes.
End AnalysisFacts.


(** ** Properties of the priors as numbers and as keys *)

Module NumberFacts.
Import Py Prior Binary64Facts.
Import SpecFloat FloatOps FloatAxioms.

(** X10.  In exact arithmetic and for [lower < upper], a uniform prior
  maps the unit interval into the interval of its limits, reaches every
  value of that interval, and maps different units to different values. *)
Theorem uniform_value_for_onto (lo hi : R) :
  (lo < hi)%R →
  (∀ unit : R, (0 <= unit <= 1)%R →
     (lo <= UniformPrior_value_for lo hi unit <= hi)%R)
  ∧ (∀ value : R, (lo <= value <= hi)%R →
       ∃ unit : R, (0 <= unit <= 1)%R ∧ UniformPrior_value_for lo hi unit = value)
  ∧ (∀ unit unit' : R,
       UniformPrior_value_for lo hi unit = UniformPrior_value_for lo hi unit' → unit = unit').
Proof.
  intros Hlt. unfold UniformPrior_value_for. simpl. split_and!.
  - intros unit [H0 H1]. split.
    + assert (0 <= unit * (hi - lo))%R by (apply Rmult_le_pos; lra). lra.
    + assert (unit * (hi - lo) <= 1 * (hi - lo))%R by (apply Rmult_le_compat_r; lra). lra.
  - intros value [Hlo Hhi]. exists ((value - lo) * / (hi - lo))%R.
    assert (0 < / (hi - lo))%R as Hinv by (apply Rinv_0_lt_compat; lra).
    assert ((value - lo) * / (hi - lo) * (hi - lo) = value - lo)%R as Hmul.
    { rewrite Rmult_assoc, Rinv_l; lra. }
    split_and!.
    + apply Rmult_le_pos; lra.
    + apply (Rmult_le_reg_r (hi - lo)); lra.
    + lra.
  - intros unit unit' Heq. apply (Rmult_eq_reg_r (hi - lo)); lra.
Qed.

Lemma SFeqb_finite s m e (y : spec_float) :
  SFeqb (S754_finite s m e) y = true → y = S754_finite s m e.
Proof.
  unfold SFeqb, SFcompare. destruct y as [s'|s'| |s' m' e']; try (by destruct s);
    try (by destruct s').
  destruct s, s'; try done.
  - destruct (e ?= e')%Z eqn:He; try done. apply Z.compare_eq in He as ->.
    destruct (PosDef.Pos.compare_cont Eq m m') eqn:Hm; try done.
    apply Pos.compare_eq in Hm as ->. done.
  - destruct (e ?= e')%Z eqn:He; try done. apply Z.compare_eq in He as ->.
    destruct (PosDef.Pos.compare_cont Eq m m') eqn:Hm; try done.
    apply Pos.compare_eq in Hm as ->. done.
Qed.

Lemma SFsub_same s m e : SF64sub (S754_finite s m e) (S754_finite s m e) = S754_zero false.
Proof.
  unfold SF64sub, SFsub.
  rewrite Z.sub_diag. reflexivity.
Qed.

(** X11.  On floats, a uniform prior whose limits compare equal returns a
  value that compares equal to them for every finite unit, provided the
  limit is finite: the difference of the limits is a zero, and so is its
  product with the unit. *)
Theorem uniform_value_for_equal_limits (lo hi unit : PrimFloat.float) :
  PrimFloat.eqb lo hi = true →
  PrimFloat.is_finite lo = true → PrimFloat.is_finite unit = true →
  PrimFloat.eqb (UniformPrior_value_for lo hi unit) lo = true.
Proof.
  intros Heq Hlo Hunit. unfold UniformPrior_value_for. simpl.
  rewrite eqb_spec in Heq. rewrite eqb_spec, add_spec, mul_spec, sub_spec.
  apply is_finite_spec in Hlo, Hunit.
  destruct Hlo as [[s Hlo]|(s & m & e & Hlo)]; rewrite Hlo in *.
  - assert (∃ s', Prim2SF hi = S754_zero s') as [s' ->].
    { destruct (Prim2SF hi) as [s'|s'| |s' m' e']; try done; [by exists s'|..];
        unfold SFeqb, SFcompare in Heq; by destruct s'. }
    destruct Hunit as [[su ->]|(su & mu & eu & ->)]; by destruct s, s', su.
  - apply SFeqb_finite in Heq as ->. rewrite SFsub_same.
    destruct Hunit as [[su ->]|(su & mu & eu & ->)]; unfold SF64mul, SF64add; simpl;
      apply (SFeqb_refl (S754_finite s m e)); discriminate.
Qed.

Section identity.
Implicit Types (p q r : Prior).

(** X12.  [==] on priors is an equivalence that looks at the id alone:
  equal priors have the same hash, as a dictionary key must, and the
  same [repr], and priors with the same [repr] are equal; [!=] is its
  negation. *)
Theorem Prior_identity p q r :
  (Prior_eq p q = true ↔ id p = id q)
  ∧ Prior_eq p p = true
  ∧ Prior_eq p q = Prior_eq q p
  ∧ (Prior_eq p q = true → Prior_eq q r = true → Prior_eq p r = true)
  ∧ (Prior_eq p q = true → Prior_hash p = Prior_hash q)
  ∧ (Prior_eq p q = true ↔ Prior_repr p = Prior_repr q)
  ∧ Prior_ne p q = negb (Prior_eq p q)
  ∧ key_eqb p q = Prior_eq p q ∧ key_hash p = Prior_hash p.
Proof.
  unfold Prior_eq, Prior_hash, Prior_repr, Prior_ne. split_and!; try done.
  - apply Nat.eqb_eq.
  - apply Nat.eqb_refl.
  - apply Nat.eqb_sym.
  - rewrite !Nat.eqb_eq. congruence.
  - rewrite Nat.eqb_eq. by intros ->.
  - rewrite Nat.eqb_eq. split; [by intros ->|]. intros Heq.
    apply BuildFacts.append_inj_r in Heq.
    assert (∀ s t : string, s +:+ ">" = t +:+ ">" → s = t) as Hinj.
    { induction s as [|a s IH]; intros [|b t]; simpl; try done.
      - intros [= <- Ht]. by destruct t.
      - intros [= -> Hs]. by destruct s.
      - intros [= -> Hs]. f_equal. by apply IH. }
    by apply BuildFacts.str_of_nat_inj, Hinj.
Qed.

End identity.

End NumberFacts.

(** ** The claims on concrete programs *)

Module Scenarios.
Import Py Prior Pipeline PyFacts PriorFacts PipelineFacts.
Import Interp.

Local Open Scope R_scope.

(** [run_as t H] evaluates the closed term [t] and records its value. *)
Ltac run_as t H :=
  let r := eval vm_compute in t in
  assert (t = r) as H by (vm_compute; reflexivity).

(** The mapper of the specification's scenario has three priors, in the
    order of their ids. *)
Example sersic_prior_ids :
  prior_ids (H := cpython27) (mapper_of "galaxy" Sersic) = [0; 1; 2]%nat.
Proof. vm_compute. reflexivity. Qed.

Example origin_prior_built :
  dict_get (mapper_of "shifted" Shifted) "shifted"
  = Some (CMModel [("cls", PMClass Shifted); ("origin", PMTuple origin_prior)]).
Proof. vm_compute. reflexivity. Qed.

(** C5, on CPython 2.7.  The dictionary of the tuple prior for [origin]
    enumerates [origin_1] before [origin_0], and [value_for_arguments]
    follows it: with 10 for [origin_0] and 20 for [origin_1] the tuple is
    [(20, 10)], not [(10, 20)]. *)
Theorem value_for_arguments_follows_dict_order :
  TuplePrior_priors (H := cpython27) origin_prior
    = [("origin_1", origin_1); ("origin_0", origin_0)]
  ∧ TuplePrior_value_for_arguments (H := cpython27) origin_prior
      [(origin_0, 10); (origin_1, 20)] = Ok [20; 10].
Proof. split; vm_compute; reflexivity. Qed.

(** Where dictionaries keep the order of insertion the same call gives
    the values in the order of the elements. *)
Example value_for_arguments_insertion_order :
  TuplePrior_value_for_arguments (H := insertion_ordered) origin_prior
    [(origin_0, 10); (origin_1, 20)] = Ok [10; 20].
Proof. vm_compute. reflexivity. Qed.

(** C3: constructing an [Analysis] with no model for any role succeeds, and
    so does constructing one that is given both a model class and an
    instance for the pixelization. *)
Lemma Analysis_init_accepts_any_roles :
  Analysis_init (H := insertion_ordered) module_defaults None None []
  = Ok [("model_mapper", OMapper 2);
        ("non_linear_optimizer", OOptimizer 2);
        ("included_attributes", OList []);
        ("missing_attributes",
         OList [OStr "pixelization"; OStr "instrumentation";
                OStr "lens_galaxies"; OStr "source_galaxies"])]
  ∧ Analysis_init (H := insertion_ordered) module_defaults None None
      [("pixelization_class", OClass Sersic); ("pixelization", OInstance 7)]
    = Ok [("model_mapper", OMapper 2);
          ("non_linear_optimizer", OOptimizer 2);
          ("included_attributes", OList [OStr "pixelization_class"; OStr "pixelization"]);
          ("pixelization_class", OClass Sersic);
          ("pixelization", OInstance 7);
          ("missing_attributes",
           OList [OStr "instrumentation"; OStr "lens_galaxies"; OStr "source_galaxies"])].
Proof. split; vm_compute; reflexivity. Qed.

Lemma Analysis_roles_checked_by_run_witness :
  Analysis_init (H := insertion_ordered) module_defaults None None
    [("pixelization_class", OClass Sersic)] = Ok pixelized
  ∧ exactly_one pixelized [("pixelization", OInstance 7)]
      ("pixelization_class", "pixelization") = false
  ∧ Analysis_run pixelized [("pixelization", OInstance 7)]
    = Raise (AssertionError "pixelization_class already exists in analysis").
Proof.
  assert (exactly_one pixelized [("pixelization", OInstance 7)]
            ("pixelization_class", "pixelization") = false) as Hrole
    by (vm_compute; reflexivity).
  split; [vm_compute; reflexivity|]. split; [exact Hrole|].
  exact (proj2 (proj2 (Analysis_roles_checked_by_run (H := insertion_ordered)
           module_defaults None None [] pixelized [("pixelization", OInstance 7)]))
         [] ("pixelization_class", "pixelization")
         [("instrumentation_class", "instrumentation");
          ("lens_galaxy_priors", "lens_galaxies");
          ("source_galaxy_priors", "source_galaxies")]
         eq_refl (Forall_nil_2 _) Hrole).
Defined.

(** The specification's scenario: the vector [0.5, 0.5, 0.2] gives the
    centre (0, 0) and the intensity 1. *)
Example sersic_reconstruction :
  ∃ centre_y centre_x intensity,
    reconstruction_for_vector (H := cpython27) erfinv_stub (mapper_of "galaxy" Sersic)
      [1 / 2; 1 / 2; 1 / 5]
    = (Some [("galaxy",
              {| inst_cls := Sersic;
                 inst_kwargs := [("intensity", VFloat intensity);
                                 ("centre", VTuple [VFloat centre_y; VFloat centre_x])] |})],
       Ok [("galaxy",
            {| inst_cls := Sersic;
               inst_kwargs := [("intensity", VFloat intensity);
                               ("centre", VTuple [VFloat centre_y; VFloat centre_x])] |})])
    ∧ centre_y = 0 ∧ centre_x = 0 ∧ intensity = 1.
Proof.
  eexists _, _, _. split; [vm_compute; reflexivity|].
  unfold Rdiv. repeat split; lra.
Qed.

(** On CPython 2.7 the class [Shifted] is reconstructed with the two
    elements of [origin] exchanged: the vector [0, 1] gives [origin = (1, 0)]. *)
Example shifted_reconstruction :
  ∃ first second,
    (reconstruction_for_vector (H := cpython27) erfinv_stub (mapper_of "shifted" Shifted)
       [0; 1]).2
    = Ok [("shifted",
           {| inst_cls := Shifted;
              inst_kwargs := [("origin", VTuple [VFloat first; VFloat second])] |})]
    ∧ first = 1 ∧ second = 0.
Proof.
  eexists _, _. split; [vm_compute; reflexivity|].
  unfold Rdiv. repeat split; lra.
Qed.

Example two_profiles_tied :
  (λ self, prior_ids (H := cpython27) self)
    <$> tie_all two_profiles "sersic_1" "sersic_2" [("intensity", "intensity")]
  = Ok [1; 2; 3]%nat.
Proof. vm_compute. reflexivity. Qed.

Lemma tying_removes_one_prior_per_tie_witness :
  let A : PriorModel :=
    [("cls", PMClass Ring);
     ("intensity", PMPrior {| id := 0; dist := UniformPrior 0 5 |});
     ("radius", PMPrior {| id := 1; dist := UniformPrior 0 2 |})] in
  let B : PriorModel :=
    [("cls", PMClass Ring);
     ("intensity", PMPrior {| id := 2; dist := UniformPrior 0 5 |});
     ("radius", PMPrior {| id := 3; dist := UniformPrior 0 2 |})] in
  let ties := [("intensity", "intensity")] in
  ("sersic_1" ≠ "sersic_2"
   ∧ NoDup two_profiles.*1 ∧ NoDup A.*1
   ∧ dict_get two_profiles "sersic_1" = Some (CMModel A)
   ∧ dict_get two_profiles "sersic_2" = Some (CMModel B)
   ∧ NoDup (ids (slots (H := cpython27) two_profiles))
   ∧ NoDup ties.*1)
  ∧ ∃ self',
      tie_all two_profiles "sersic_1" "sersic_2" ties = Ok self'
      ∧ length (slots (H := cpython27) self') = length (slots (H := cpython27) two_profiles)
      ∧ length (priors (H := cpython27) self')
        = (length (slots (H := cpython27) two_profiles) - length ties)%nat
      ∧ NoDup (prior_ids (H := cpython27) self')
      ∧ Forall (fun t => ∃ q, get_model_attribute self' "sersic_1" t.1 = Ok (PMPrior q)
                              ∧ get_model_attribute self' "sersic_2" t.2 = Ok (PMPrior q)
                              ∧ id q ∈ prior_ids (H := cpython27) self') ties.
Proof.
  intros A B ties.
  assert ("sersic_1" ≠ "sersic_2") as H1 by discriminate.
  assert (NoDup two_profiles.*1) as H2 by (apply (bool_decide_unpack _); vm_compute; exact I).
  assert (NoDup A.*1) as H3 by (apply (bool_decide_unpack _); vm_compute; exact I).
  assert (dict_get two_profiles "sersic_1" = Some (CMModel A)) as H4 by reflexivity.
  assert (dict_get two_profiles "sersic_2" = Some (CMModel B)) as H5 by reflexivity.
  assert (NoDup (ids (slots (H := cpython27) two_profiles))) as H6
    by (apply (bool_decide_unpack _); vm_compute; exact I).
  assert (NoDup ties.*1) as H7 by (apply (bool_decide_unpack _); vm_compute; exact I).
  assert (Forall (fun t => (∃ p, dict_get A t.1 = Some (PMPrior p))
                           ∧ (∃ q, dict_get B t.2 = Some (PMPrior q))) ties) as H8.
  { repeat constructor; eexists; reflexivity. }
  split; [by repeat split|].
  exact (tying_removes_one_prior_per_tie (H := cpython27) two_profiles
           "sersic_1" "sersic_2" A B ties H1 H2 H3 H4 H5 H6 H7 H8).
Defined.

(** [Halo(Disc, Ring)] with [Disc(Profile)]: the entry for [radius] is the
    one of [Profile], met before [Ring]. *)
Lemma get_for_nearest_ancestor_depth_first_witness :
  let config := Config_init "/lens/config" in
  family Halo = [Halo; Disc] ++ Profile :: [object_class; Ring; object_class]
  ∧ has_after config [Halo; Disc] Profile "radius" = true
  ∧ (get_for_nearest_ancestor decimal_float Halo "radius" config).2 = Ok ("g", [1; 5 / 10]).
Proof.
  intros config.
  assert (family Halo = [Halo; Disc] ++ Profile :: [object_class; Ring; object_class])
    as Hfamily by reflexivity.
  assert (has_after config [Halo; Disc] Profile "radius" = true) as Hfound
    by (vm_compute; reflexivity).
  assert (∀ pre1 c' pre2, [Halo; Disc] = pre1 ++ c' :: pre2 →
            has_after config pre1 c' "radius" = false) as Hbefore.
  { intros pre1 c' pre2 Hsplit.
    destruct pre1 as [|x [|y pre1]]; cbn [app] in Hsplit.
    - injection Hsplit as <- _. vm_compute; reflexivity.
    - injection Hsplit as <- <- _. vm_compute; reflexivity.
    - injection Hsplit as _ _ Hnil. by destruct pre1. }
  split; [exact Hfamily|]. split; [exact Hfound|].
  rewrite (proj1 (proj2 (proj2
             (get_for_nearest_ancestor_depth_first decimal_float Halo "radius" config)))
           [Halo; Disc] Profile [object_class; Ring; object_class] Hfamily Hbefore Hfound).
  vm_compute. reflexivity.
Defined.

Example halo_radius_is_gaussian :
  ∃ mean sigma,
    (get_for_nearest_ancestor decimal_float Halo "radius" (Config_init "/lens/config")).2
    = Ok ("g", [mean; sigma]) ∧ mean = 1 ∧ sigma = 1 / 2.
Proof.
  eexists _, _. split; [vm_compute; reflexivity|]. split; [reflexivity|]. lra.
Qed.

(** No class of the family of [Halo] has an entry for [mass]. *)
Example halo_mass_is_missing :
  (get_for_nearest_ancestor decimal_float Halo "mass" (Config_init "/lens/config")).2
  = Raise (PriorException
      "The prior config for lens.profiles.Halo and the prior configs of its parents do no contain mass").
Proof. vm_compute. reflexivity. Qed.

(** C6.  The entry returned need not belong to a class that was visited.
    A lookup asks the one parser of the config, which keeps every file it
    has read, for a section with the name of the class: the module only
    selects the file to read first.  For the class [Ring] of the module
    [shapes] the classes visited are [shapes.Ring] and [object]; the
    directory has a file for neither module, and on a fresh config the
    lookup of [radius] raises the [PriorException].  Once [profiles.ini]
    was read, here by a lookup for [lens.profiles.Ring], the same call
    returns the entry of [lens.profiles.Ring], and [has] answers yes for
    [shapes], [Ring], [radius]. *)
Theorem get_for_nearest_ancestor_ignores_module :
  family shapes_Ring = [shapes_Ring; object_class]
  ∧ Forall (fun c => cfg_parser (Config_read (cls_module c) (Config_init "/lens/config")).1 = [])
      (family shapes_Ring)
  ∧ (Config_has "shapes" "Ring" "radius" (Config_init "/lens/config")).2 = Ok false
  ∧ (get_for_nearest_ancestor decimal_float shapes_Ring "radius" (Config_init "/lens/config")).2
    = Raise (PriorException
        "The prior config for shapes.Ring and the prior configs of its parents do no contain radius")
  ∧ (Config_get decimal_float "lens.profiles" "Ring" "radius" (Config_init "/lens/config")).2
    = Ok ("u", [0; 2])
  ∧ (Config_has "shapes" "Ring" "radius"
       (Config_get decimal_float "lens.profiles" "Ring" "radius"
          (Config_init "/lens/config")).1).2
    = Ok true
  ∧ (get_for_nearest_ancestor decimal_float shapes_Ring "radius"
       (Config_get decimal_float "lens.profiles" "Ring" "radius"
          (Config_init "/lens/config")).1).2
    = Ok ("u", [0; 2]).
Proof.
  split_and!; try (vm_compute; reflexivity).
  repeat constructor.
Qed.

Lemma MainPipeline_run_chains_stages_witness :
  let self := {| model_analyses := [10; 20]%nat; hyperparameter_analysis := () |} in
  MainPipeline_run log_model_run log_hyper_run (fun mr => mr) (fun mr => mr) fst snd
    self () () 0%nat 0%nat []
  = ([(0, 0); (11, 12)]%nat, Ok ([10; 31]%nat, [(11, 12); (32, 33)]%nat))
  ∧ stages log_model_run log_hyper_run (fun mr => mr) (fun mr => mr) fst snd
      () () () [] 0%nat 0%nat [10; 20]%nat [10; 31]%nat [(11, 12); (32, 33)]%nat
      [(0, 0); (11, 12)]%nat.
Proof.
  intros self.
  assert (MainPipeline_run log_model_run log_hyper_run (fun mr => mr) (fun mr => mr) fst snd
            self () () 0%nat 0%nat []
          = ([(0, 0); (11, 12)]%nat, Ok ([10; 31]%nat, [(11, 12); (32, 33)]%nat))) as Hrun
    by reflexivity.
  split; [exact Hrun|].
  exact (proj1 (proj1 (MainPipeline_run_chains_stages log_model_run log_hyper_run
                         (fun mr => mr) (fun mr => mr) fst snd self () () 0%nat 0%nat
                         [] [(0, 0); (11, 12)]%nat [10; 31]%nat [(11, 12); (32, 33)]%nat))
         Hrun).
Defined.

(** Analyses built in a fresh program without a mapper.  The second
    [ModelAnalysis] attaches its source galaxy to the mapper the first one
    holds; the second [HyperparameterAnalysis] replaces the pixelization
    model of the mapper the first one holds; an [Analysis] holds the third
    default mapper. *)
Lemma default_mapper_shared_and_mutated_witness :
  let w0 : world (list string) :=
    {| mappers := []; optimizers := 0; prior_number := 0 |} in
  ∃ w1,
    load_module (H := cpython27) decimal_float "/lens" w0 = (w1, Ok module_defaults)
    ∧ (∃ wa wb a1 a2 before after,
         ModelAnalysis_init attach_class module_defaults [("lens", Sersic)] [] None None w1
         = (wa, Ok a1)
         ∧ ModelAnalysis_init attach_class module_defaults [] [("source", Shifted)] None None wa
           = (wb, Ok a2)
         ∧ ModelAnalysis_mapper a1 = ModelAnalysis_mapper a2
         ∧ mappers wa !! ModelAnalysis_mapper a1 = Some before
         ∧ mappers wb !! ModelAnalysis_mapper a1 = Some after
         ∧ dict_get before "source" = None
         ∧ dict_get after "source"
           = Some (CMModel [("cls", PMClass Shifted);
                            ("origin",
                             PMTuple [("origin_0", TPPrior {| id := 3; dist := UniformPrior 0 1 |});
                                      ("origin_1", TPPrior {| id := 4; dist := UniformPrior 0 1 |})])]))
    ∧ (∃ wa wb h1 h2 after pm,
         HyperparameterAnalysis_init decimal_float module_defaults Sersic Shifted None None w1
         = (wa, Ok h1)
         ∧ HyperparameterAnalysis_init decimal_float module_defaults Shifted Sersic None None wa
           = (wb, Ok h2)
         ∧ HyperparameterAnalysis_mapper h1 = HyperparameterAnalysis_mapper h2
         ∧ mappers wb !! HyperparameterAnalysis_mapper h1 = Some after
         ∧ dict_get after "pixelization" = Some (CMModel pm)
         ∧ built_for decimal_float Shifted pm)
    ∧ (∃ a,
         Analysis_init (H := cpython27) module_defaults None None
           [("pixelization_class", OClass Sersic)] = Ok a
         ∧ dict_get a "model_mapper" = Some (OMapper 2)).
Proof.
  intros w0.
  destruct (default_mapper_shared_and_mutated (H := cpython27) decimal_float "/lens"
              attach_class w0)
    as (w1 & d & Hload & _ & _ & _ & _ & Hfresh & _ & Hmodel & _ & Hhyper & Hanalysis).
  run_as (load_module (H := cpython27) decimal_float "/lens" w0) Hload'.
  rewrite Hload' in Hload. injection Hload as <- <-.
  eexists. split; [exact Hload'|]. clear Hload'.
  split_and!.
  - run_as (smap attach_class ([("lens", Sersic)] ++ []) (empty_mapper, 0%nat)) H1.
    match type of H1 with _ = (?st1, _) =>
      run_as (smap attach_class ([] ++ [("source", Shifted)]) st1) H2 end.
    match type of H2 with _ = (?st2, _) =>
      run_as (dict_get st2.1 "source") Hafter end.
    destruct (Hmodel _ _ _ _ _ _ _ _ _ _ (Hfresh 0%nat ltac:(by left)) H1 H2)
      as (wa & wb & a1 & a2 & Ha1 & Ha2 & Hsame & _ & Hwa & Hwb).
    eexists wa, wb, a1, a2, _, _.
    split; [exact Ha1|]. split; [exact Ha2|]. split; [exact Hsame|].
    split; [exact Hwa|]. split; [exact Hwb|]. split; [reflexivity|exact Hafter].
  - run_as (add_class decimal_float "pixelization" Sersic (empty_mapper, 0%nat)) H1.
    match type of H1 with _ = (?st, _) =>
      run_as (add_class decimal_float "instrumentation" Shifted st) H2 end.
    match type of H2 with _ = (?st, _) =>
      run_as (add_class decimal_float "pixelization" Shifted st) H3 end.
    match type of H3 with _ = (?st, _) =>
      run_as (add_class decimal_float "instrumentation" Sersic st) H4 end.
    destruct (Hhyper _ _ _ _ _ _ _ _ _ _ (Hfresh 1%nat ltac:(by right; left)) H1 H2 H3 H4)
      as (wa & wb & h1 & h2 & pm_pix & pm_ins & Hh1 & Hh2 & Hsame & _ & _ & Hwb & Hpix
          & Hbuilt & _).
    eexists wa, wb, h1, h2, _, pm_pix.
    split; [exact Hh1|]. split; [exact Hh2|]. split; [exact Hsame|].
    split; [exact Hwb|]. split; [exact Hpix|exact Hbuilt].
  - destruct (Hanalysis [("pixelization_class", OClass Sersic)]) as (a & Ha & Hmapper & _).
    + simpl. rewrite list_elem_of_singleton. discriminate.
    + simpl. rewrite list_elem_of_singleton. discriminate.
    + intros v Hv. apply list_elem_of_singleton in Hv. discriminate.
    + exists a. split; [exact Ha|exact Hmapper].
Defined.

End Scenarios.

(** ** The properties above on the examples *)

Module Cases.
Import Py Prior Pipeline PyFacts PriorFacts PipelineFacts.
Import ReconstructionFacts BuildFacts RunFacts AnalysisFacts NumberFacts.
Import Interp.
Local Open Scope R_scope.

(** [run_as t H] evaluates the closed term [t] and records its value. *)
Ltac run_as t H :=
  let r := eval vm_compute in t in
  assert (t = r) as H by (vm_compute; reflexivity).

(** Deciding a statement about names by running its decision procedure. *)
Ltac decided := apply (bool_decide_unpack _); vm_compute; exact I.

(** Membership in a list that is written out. *)
Ltac members H :=
  repeat (apply elem_of_cons in H as [H|H];
          [first [discriminate H | injection H as -> -> | injection H as <- <- | idtac]|]);
  try (apply elem_of_nil in H; destruct H).

(** Two classes of the examples: five Priors, with the ids 0 to 4. *)
Lemma ClassMap_init_prior_ids_witness :
  let classes := [("galaxy", Sersic); ("shifted", Shifted)] in
  ∃ self,
    ClassMap_init (H := cpython27) decimal_float "/lens"
      (Some (Config_init "/lens/config")) classes ([], 0%nat) = ((self, 5%nat), Ok ())
    ∧ prior_ids (H := cpython27) self = seq 0 (5 - 0).
Proof.
  intros classes.
  assert (NoDup classes.*1) as Hnd by decided.
  assert ("config" ∉ classes.*1) as Hconfig by decided.
  assert (∀ name cls, (name, cls) ∈ classes →
            NoDup (tail (cls_args cls)) ∧ "cls" ∉ tail (cls_args cls)) as Hargs.
  { intros name cls Hin. members Hin; split; decided. }
  run_as (ClassMap_init (H := cpython27) decimal_float "/lens"
            (Some (Config_init "/lens/config")) classes ([], 0%nat)) Hinit.
  eexists. split; [exact Hinit|].
  exact (proj1 (proj2 (ClassMap_init_prior_ids (H := cpython27) decimal_float "/lens"
                         (Some (Config_init "/lens/config")) classes ([], 0%nat) _ 5
                         Hnd Hconfig Hargs Hinit))).
Defined.


Lemma add_class_makes_fresh_priors_witness :
  ∃ st',
    add_class decimal_float "galaxy" Sersic (empty_mapper, 0%nat) = (st', Ok ())
    ∧ (0 <= st'.2)%nat
    ∧ ids (slots (H := cpython27) st'.1)
      ≡ₚ ids (slots (H := cpython27) empty_mapper) ++ seq 0 (st'.2 - 0).
Proof.
  assert ("galaxy" ∉ empty_mapper.*1) as Hname by decided.
  assert (NoDup (tail (cls_args Sersic))) as Hargs by decided.
  assert ("cls" ∉ tail (cls_args Sersic)) as Hcls by decided.
  run_as (add_class decimal_float "galaxy" Sersic (empty_mapper, 0%nat)) Hadd.
  destruct (add_class_makes_fresh_priors (H := cpython27) decimal_float "galaxy" Sersic
              (empty_mapper, 0%nat) _ Hname Hargs Hcls Hadd) as (Hle & Hperm & _).
  eexists. split; [exact Hadd|]. split; [exact Hle|exact Hperm].
Defined.

(** [Shell] gets a Prior for [radius], with the id 0, before the missing
    entry for [thickness] makes [add_class] raise. *)
Lemma add_class_failure_keeps_models_witness :
  ∃ st' message,
    add_class decimal_float "shell" Shell (empty_mapper, 0%nat)
    = (st', Raise (PriorException message))
    ∧ st'.1.*1 = empty_mapper.*1
    ∧ prior_ids (H := cpython27) st'.1 = prior_ids (H := cpython27) empty_mapper
    ∧ st'.2 = 1%nat.
Proof.
  run_as (add_class decimal_float "shell" Shell (empty_mapper, 0%nat)) Hadd.
  destruct (add_class_failure_keeps_models (H := cpython27) decimal_float "shell" Shell
              (empty_mapper, 0%nat) _ _ Hadd) as (Hkeys & _ & Hids & _).
  eexists _, _. split; [exact Hadd|]. split; [exact Hkeys|]. split; [exact Hids|reflexivity].
Defined.

Lemma sersic_mapper_uniform (n : string) (p : Prior) :
  owns sersic_mapper n p → dist p ≠ Plain.
Proof.
  intros (name & pm & Hpm & Hp). members Hpm.
  destruct Hp as [Hp|(a & tp & Ha & Hp)].
  - members Hp. done.
  - members Ha. members Hp; done.
Qed.

(** The vector [0.5, 0.5, 0.2] on the mapper of one [Sersic]: the third
    unit goes to the Prior with the id 2, that of [intensity]. *)
Lemma arguments_for_vector_by_position_witness :
  ∃ arguments v,
    length [1 / 2; 1 / 2; 1 / 5] = length (priors (H := cpython27) sersic_mapper)
    ∧ arguments_for_vector (H := cpython27) erfinv_stub sersic_mapper [1 / 2; 1 / 2; 1 / 5]
      = Ok arguments
    ∧ priors (H := cpython27) sersic_mapper !! 2%nat
      = Some ("intensity", {| id := 2; dist := UniformPrior 0 5 |})
    ∧ value_for erfinv_stub {| id := 2; dist := UniformPrior 0 5 |} (Some (1 / 5)) = Ok v
    ∧ dict_get arguments {| id := 2; dist := UniformPrior 0 5 |} = Some v.
Proof.
  assert (length [1 / 2; 1 / 2; 1 / 5] = length (priors (H := cpython27) sersic_mapper))
    as Hlen by (vm_compute; reflexivity).
  assert (priors (H := cpython27) sersic_mapper !! 2%nat
          = Some ("intensity", {| id := 2; dist := UniformPrior 0 5 |})) as Hk
    by (vm_compute; reflexivity).
  destruct (arguments_for_vector_by_position (H := cpython27) erfinv_stub sersic_mapper
              [1 / 2; 1 / 2; 1 / 5] Hlen sersic_mapper_uniform)
    as (arguments & Hargs & Hpos & _).
  destruct (Hpos 2%nat "intensity" {| id := 2; dist := UniformPrior 0 5 |} (1 / 5) Hk eq_refl)
    as (v & Hv & Hget).
  exists arguments, v.
  split; [exact Hlen|]. split; [exact Hargs|]. split; [exact Hk|]. split; [exact Hv|].
  exact (Hget _ eq_refl).
Defined.

(** The tuple prior of [origin], looked up with both of its Priors and
    with one of them only. *)
Lemma value_for_arguments_lookup_witness :
  (∃ vs, TuplePrior_value_for_arguments (H := cpython27) origin_prior
           [(origin_0, 10); (origin_1, 20)] = Ok vs)
  ∧ TuplePrior_value_for_arguments (H := cpython27) origin_prior [(origin_0, 10)]
    = Raise KeyError.
Proof.
  split.
  - destruct (proj1 (value_for_arguments_lookup (H := cpython27) origin_prior
                       [(origin_0, 10); (origin_1, 20)])) as (vs & Hvs & _).
    + intros n p Hin. members Hin; eexists; reflexivity.
    + exists vs. exact Hvs.
  - apply (proj2 (value_for_arguments_lookup (H := cpython27) origin_prior [(origin_0, 10)])
             "origin_1" origin_1).
    + right. left.
    + reflexivity.
Defined.

(** The prior model of [Sersic], with values for its three Priors. *)
Lemma instance_for_arguments_keywords_witness :
  let intensity := {| id := 2; dist := UniformPrior 0 5 |} in
  let pm : PriorModel :=
    [("cls", PMClass Sersic);
     ("centre",
      PMTuple [("centre_0", TPPrior {| id := 0; dist := UniformPrior (-1) 1 |});
               ("centre_1", TPPrior {| id := 1; dist := UniformPrior (-1) 1 |})]);
     ("intensity", PMPrior intensity)] in
  let arguments : dict Prior R :=
    [({| id := 0; dist := UniformPrior (-1) 1 |}, 0);
     ({| id := 1; dist := UniformPrior (-1) 1 |}, 0);
     (intensity, 1)] in
  ∃ kwargs v,
    PriorModel_instance_for_arguments (H := cpython27) pm arguments = call_class Sersic kwargs
    ∧ dict_get arguments intensity = Some v
    ∧ dict_get kwargs "intensity" = Some (VFloat v).
Proof.
  intros intensity pm arguments.
  assert (NoDup pm.*1) as Hnd by decided.
  assert (∀ n p, holds pm n p → is_Some (dict_get arguments p)) as Hheld.
  { intros n p [Hp|(a & tp & Ha & Hp)].
    - members Hp. eexists; reflexivity.
    - members Ha. members Hp; eexists; reflexivity. }
  destruct (instance_for_arguments_keywords (H := cpython27) pm arguments Hnd Hheld)
    as (kwargs & Hcall & Hpriors & _).
  destruct (Hpriors "intensity" intensity ltac:(right; right; left)) as (v & Hv & Hkw).
  exists kwargs, v. split; [exact Hcall|]. split; [exact Hv|exact Hkw].
Defined.

(** The reconstruction of one [Sersic] from the vector [0.5, 0.5, 0.2]. *)
Lemma reconstruction_for_vector_instances_witness :
  ∃ recon inst,
    reconstruction_for_vector (H := cpython27) erfinv_stub sersic_mapper [1 / 2; 1 / 2; 1 / 5]
    = (Some recon, Ok recon)
    ∧ dict_get recon "galaxy" = Some inst.
Proof.
  assert (NoDup sersic_mapper.*1) as Hnd by decided.
  run_as (arguments_for_vector (H := cpython27) erfinv_stub sersic_mapper
            [1 / 2; 1 / 2; 1 / 5]) Hargs.
  match type of Hargs with _ = Ok ?arguments =>
    assert (∀ name pm, (name, CMModel pm) ∈ sersic_mapper →
              ∃ inst, PriorModel_instance_for_arguments (H := cpython27) pm arguments
                      = Ok inst) as Hall
  end.
  { intros name pm Hin. members Hin. eexists. vm_compute. reflexivity. }
  destruct (proj1 (reconstruction_for_vector_instances (H := cpython27) erfinv_stub
                     sersic_mapper [1 / 2; 1 / 2; 1 / 5] _ Hnd Hargs) Hall)
    as (recon & Hrecon & Hinst & _).
  destruct (Hinst "galaxy" _ ltac:(right; left)) as (inst & _ & Hget).
  exists recon, inst. split; [exact Hrecon|exact Hget].
Defined.

(** Two rings with one Prior for both radii: both instances get the
    radius that the one unit of the vector gives. *)
Lemma tied_attributes_receive_one_value_witness :
  ∃ recon ia ib v,
    (reconstruction_for_vector (H := cpython27) erfinv_stub tied_rings [1 / 4]).2 = Ok recon
    ∧ dict_get recon "ring_1" = Some ia ∧ dict_get recon "ring_2" = Some ib
    ∧ dict_get (inst_kwargs ia) "radius" = Some (VFloat v)
    ∧ dict_get (inst_kwargs ib) "radius" = Some (VFloat v).
Proof.
  set (shared := {| id := 0; dist := UniformPrior 0 2 |}).
  set (ring := [("cls", PMClass Ring); ("radius", PMPrior shared)] : PriorModel).
  assert (NoDup tied_rings.*1) as Hnd by decided.
  assert (NoDup ring.*1) as Hring by decided.
  run_as (reconstruction_for_vector (H := cpython27) erfinv_stub tied_rings [1 / 4]).2 Hrecon.
  destruct (tied_attributes_receive_one_value (H := cpython27) erfinv_stub tied_rings [1 / 4] _
              "ring_1" "ring_2" ring ring "radius" "radius" shared shared
              Hnd Hring Hring Hrecon ltac:(right; left) ltac:(right; right; left)
              ltac:(right; left) ltac:(right; left) eq_refl)
    as (ia & ib & v & Ha & Hb & Hva & Hvb).
  eexists _, ia, ib, v. split; [exact Hrecon|].
  split; [exact Ha|]. split; [exact Hb|]. split; [exact Hva|exact Hvb].
Defined.

Lemma uniform_value_for_onto_witness :
  (0 < 5)%R
  ∧ (0 <= UniformPrior_value_for 0 5 (1 / 5) <= 5)%R
  ∧ ∃ unit : R, (0 <= unit <= 1)%R ∧ UniformPrior_value_for 0 5 unit = 2.
Proof.
  assert (0 < 5)%R as Hlt by lra.
  destruct (uniform_value_for_onto 0 5 Hlt) as (Hrange & Honto & _).
  split; [exact Hlt|]. split.
  - apply Hrange. lra.
  - apply Honto. lra.
Defined.

(** Both limits at [0.3]: the value at 0.5 is [0.3]. *)
Lemma uniform_value_for_equal_limits_witness :
  PrimFloat.eqb three_tenths three_tenths = true
  ∧ PrimFloat.is_finite three_tenths = true
  ∧ PrimFloat.is_finite one_half = true
  ∧ PrimFloat.eqb (UniformPrior_value_for three_tenths three_tenths one_half) three_tenths
    = true.
Proof.
  assert (PrimFloat.eqb three_tenths three_tenths = true) as Heq by (vm_compute; reflexivity).
  assert (PrimFloat.is_finite three_tenths = true) as Hlimit by (vm_compute; reflexivity).
  assert (PrimFloat.is_finite one_half = true) as Hunit by (vm_compute; reflexivity).
  exact (conj Heq (conj Hlimit (conj Hunit
    (uniform_value_for_equal_limits three_tenths three_tenths one_half Heq Hlimit Hunit)))).
Defined.

(** A pipeline of the stages 10 and 20 whose model analysis raises at
    stage 20: the first stage runs, and the exception of the second is
    the outcome. *)
Lemma MainPipeline_run_stops_at_first_failure_witness :
  let self := {| model_analyses := [10; 20]%nat; hyperparameter_analysis := () |} in
  stages failing_model_run log_hyper_run (fun mr => mr) (fun mr => mr) fst snd
    () () () [] 0%nat 0%nat [10]%nat [10]%nat [(11, 12)]%nat [(0, 0)]%nat
  ∧ MainPipeline_run failing_model_run log_hyper_run (fun mr => mr) (fun mr => mr) fst snd
      self () () 0%nat 0%nat []
    = ([(0, 0)]%nat, Raise ValueError).
Proof.
  intros self.
  assert (stages failing_model_run log_hyper_run (fun mr => mr) (fun mr => mr) fst snd
            () () () [] 0%nat 0%nat [10]%nat [10]%nat [(11, 12)]%nat [(0, 0)]%nat)
    as Hstages.
  { eapply stages_next; [reflexivity|reflexivity|]. apply stages_done. }
  split; [exact Hstages|].
  exact (proj1 (MainPipeline_run_stops_at_first_failure failing_model_run log_hyper_run
                  (fun mr => mr) (fun mr => mr) fst snd self () () 0%nat 0%nat
                  [] [(0, 0)]%nat [10]%nat 20%nat [] [10]%nat [(11, 12)]%nat
                  eq_refl Hstages)
           [(0, 0)]%nat ValueError eq_refl).
Defined.

(** An analysis given a pixelization class: the three other roles are
    missing. *)
Lemma Analysis_init_attributes_witness :
  let kwargs := [("pixelization_class", OClass Sersic)] in
  ∃ self missing,
    Analysis_init (H := cpython27) module_defaults None None kwargs = Ok self
    ∧ dict_get self "pixelization_class" = Some (OClass Sersic)
    ∧ dict_get self "missing_attributes" = Some (OList (OStr <$> missing))
    ∧ ("pixelization" ∉ missing) ∧ "instrumentation" ∈ missing.
Proof.
  intros kwargs.
  assert (NoDup kwargs.*1) as Hnd by decided.
  assert ("included_attributes" ∉ kwargs.*1) as Hincluded by decided.
  assert ("missing_attributes" ∉ kwargs.*1) as Hmissing by decided.
  destruct (Analysis_init_attributes (H := cpython27) module_defaults None None kwargs
              Hnd Hincluded Hmissing) as (self & missing & Hinit & Hset & _ & Hlist & Hroles).
  exists self, missing. split; [exact Hinit|].
  split; [apply Hset; left|]. split; [exact Hlist|]. split.
  - intros Hin.
    apply (Hroles ("pixelization_class", "pixelization") ltac:(left)) in Hin.
    apply Hin. left.
  - apply (Hroles ("instrumentation_class", "instrumentation") ltac:(right; left)).
    decided.
Defined.

(** An analysis given a pixelization class runs when it is given the
    three other instances. *)
Lemma Analysis_run_needs_missing_attributes_witness :
  let kwargs := [("pixelization_class", OClass Sersic)] in
  let run_kwargs :=
    [("instrumentation", OInstance 1); ("lens_galaxies", OInstance 2);
     ("source_galaxies", OInstance 3)] in
  ∃ self,
    Analysis_init (H := insertion_ordered) module_defaults None None kwargs = Ok self
    ∧ dict_get self "missing_attributes"
      = Some (OList [OStr "instrumentation"; OStr "lens_galaxies"; OStr "source_galaxies"])
    ∧ Analysis_run self run_kwargs = Ok ().
Proof.
  intros kwargs run_kwargs.
  assert (NoDup kwargs.*1) as Hnd by decided.
  assert ("included_attributes" ∉ kwargs.*1) as Hincluded by decided.
  assert ("missing_attributes" ∉ kwargs.*1) as Hmissing by decided.
  destruct (Analysis_run_needs_missing_attributes (H := insertion_ordered) module_defaults
              None None kwargs run_kwargs Hnd Hincluded Hmissing)
    as (self & missing & Hinit & Hlist & Hrun & _).
  run_as (Analysis_init (H := insertion_ordered) module_defaults None None kwargs) Hvalue.
  assert (missing = ["instrumentation"; "lens_galaxies"; "source_galaxies"]) as ->.
  { rewrite Hvalue in Hinit. injection Hinit as <-.
    vm_compute in Hlist. injection Hlist as Hlist.
    destruct missing as [|m1 [|m2 [|m3 [|m4 missing]]]]; try discriminate Hlist.
    injection Hlist as <- <- <-. reflexivity. }
  exists self. split; [exact Hinit|]. split; [exact Hlist|].
  apply Hrun.
  - intros k v Hin. members Hin. reflexivity.
  - intros role Hin. members Hin; subst role; cbn [snd].
    + split; [discriminate|]. intros Hm. exfalso. members Hm.
    + split; [intros _; decided|reflexivity].
    + split; [intros _; decided|reflexivity].
    + split; [intros _; decided|reflexivity].
Defined.

(** [Shell] as the instrumentation class: the constructor raises, and
    the default mapper keeps the prior model of the pixelization. *)
Lemma HyperparameterAnalysis_init_leaves_pixelization_witness :
  let w : world (list string) :=
    {| mappers := [empty_mapper; empty_mapper; empty_mapper];
       optimizers := 3; prior_number := 0 |} in
  ∃ w' mapper pm message,
    HyperparameterAnalysis_init decimal_float module_defaults Sersic Shell None None w
    = (w', Raise (PriorException message))
    ∧ mappers w' !! 1%nat = Some mapper
    ∧ dict_get mapper "pixelization" = Some (CMModel pm)
    ∧ built_for decimal_float Sersic pm.
Proof.
  intros w.
  run_as (add_class decimal_float "pixelization" Sersic (empty_mapper, 0%nat)) H1.
  match type of H1 with _ = (?st, _) =>
    run_as (add_class decimal_float "instrumentation" Shell st) H2 end.
  destruct (HyperparameterAnalysis_init_leaves_pixelization decimal_float module_defaults
              Sersic Shell None None w empty_mapper _ _ _ eq_refl H1 H2)
    as (w' & Hinit & Hmapper & _ & (pm & Hpm & Hbuilt) & _).
  eexists w', _, pm, _. split; [exact Hinit|]. split; [exact Hmapper|].
  split; [exact Hpm|exact Hbuilt].
Defined.

End Cases.
